(** * Prismatic SVG baseline: cluster detection and latency sampling

    A shallow embedding of the two algorithmic cores of the benchmark
    prototype:

    - [detectCluster] of [network-view.js]: thresholded correlation graph,
      breadth-first search from the must-have tickers, connected components;
    - the latency samplers: [measureHoverLatency] and [measureBrushLatency]
      of [matrix.js], [measurePrismHoverLatency] and
      [measurePrismBrushLatency] of [prism.js], and the [measureBrush]
      functions of [MatrixEnriched], [PrismDynamic] and [PrismMulti];

    and of the code around them: the loader's ticker index and the
    distribution plot of [network-view.js]; the ticker field, the market
    proxy, the sector peer and the year handler of [combined.js];
    [subsetMatrix] and the adaptive cell sizes of the matrix and prism
    views; the prism grids of [PrismDynamic], [prism.js] and [PrismMulti];
    the element count of [knowledge-view.js].

    Conventions of the embedding.

    - A number of the data, a threshold and a clock reading are the
      rationals ([Q]) that these doubles denote.  The frame rate, the bin
      index of the distribution plot, [pearsonCorr] and the rounding of its
      result are computed in doubles ([Double]): every operation returns
      the double nearest to its exact result, and [NaN], the infinities
      and the signed zeros are separate values.  Comparisons of numbers
      are exact in either reading.  The latency [t1 - t0] of a trial is
      the exact difference, which is what the subtraction returns for two
      readings within a factor 2 of each other; the indices
      [floor(len * 0.5)] and [floor(len * 0.95)] and the heights of the
      plot are computed over the rationals.
    - The plain object [tickerIndex] is a finite map ([gmap]) of its own
      properties; a name that it inherits from [Object.prototype] reads as
      a value that is neither [undefined] nor an index ([getProperty]).
      The identifiers of the data are ticker symbols, none of them
      [__proto__], the one key that an assignment does not store as a
      property of the object itself.
    - A [Set] is the list of its members in insertion order.
    - Strings are byte strings compared bytewise, which is the order of
      [sort()] without comparator on ASCII identifiers.
    - A call either returns or throws a [TypeError]; the [while] loops run
      on a bound of iterations, and [OutOfFuel] marks its exhaustion, which
      no call reaches ([detectCluster_fuel]).
    - The asynchronous sampler loop is run against a clock that gives the
      two timestamps of every trial.
    - Text typed by the user is a string of 7-bit characters; lengths,
      day counts and pixel widths read from the data are natural numbers.
    - [gridCells] takes the correlation function as a parameter;
      [pearsonCorr] is the function of the code, in doubles. *)

From Stdlib Require Import QArith Qround Qabs Qpower Lqa.
From stdpp Require Import gmap strings list sorting relations.

Open Scope Z_scope.
Open Scope nat_scope.

(** ** Outcomes of a call *)

Inductive outcome (A : Type) : Type :=
  | Returned (a : A)
  | TypeError
  | OutOfFuel.
Arguments Returned {A} a.
Arguments TypeError {A}.
Arguments OutOfFuel {A}.

#[global] Instance outcome_ret : MRet outcome := λ A a, Returned a.
#[global] Instance outcome_bind : MBind outcome := λ A B f m,
  match m with
  | Returned a => f a
  | TypeError => TypeError
  | OutOfFuel => OutOfFuel
  end.

(** A [for] loop whose body may throw. *)
Fixpoint foldM {A B : Type} (f : B → A → outcome B) (b : B) (l : list A)
  : outcome B :=
  match l with
  | [] => Returned b
  | x :: l' => b' ← f b x; foldM f b' l'
  end.

(** ** [Array.prototype.sort]

    The language fixes the result of [sort] for a consistent comparator: the
    stable arrangement in which [cmp a b <= 0] for every [a] placed before
    [b].  [le a b] stands for [cmp(a, b) <= 0]; insertion from the right
    computes that arrangement. *)

Section Sort.
Context {A : Type} (le : A → A → bool).

Fixpoint insert_sorted (x : A) (l : list A) : list A :=
  match l with
  | [] => [x]
  | y :: l' => if le x y then x :: y :: l' else y :: insert_sorted x l'
  end.

Definition jsSort (l : list A) : list A := foldr insert_sorted [] l.
End Sort.

(** [a] occurs before [b] in [l]. *)
Definition before {A : Type} (l : list A) (a b : A) : Prop :=
  ∃ l1 l2 l3, l = l1 ++ a :: l2 ++ b :: l3.

(** ** JavaScript numbers *)

Module Double.

(** A JavaScript number is an IEEE 754 binary64 value: not-a-number, an
    infinity, a zero, each of the last two with its sign, or a finite value
    other than zero, which is the rational it denotes.  Every arithmetic
    operation returns the double nearest to its exact result, a tie going
    to the even significand. *)
Inductive double : Type :=
  | NaN
  | Infinity (negative : bool)
  | Zero (negative : bool)
  | Finite (q : Q).

Definition Qltb (a b : Q) : bool := negb (Qle_bool b a).

(** [floor(log2 q)] for a positive rational. *)
Definition ilog2 (q : Q) : Z :=
  let k := (Z.log2 (Qnum q) - Z.log2 (Zpos (Qden q)))%Z in
  if Qle_bool (2 ^ k) q then k else (k - 1)%Z.

(** The exponent of the unit in the last place at [q > 0]: 52 below the
    leading bit, and -1074 in the subnormal range. *)
Definition ulpExp (q : Q) : Z := Z.max (-1074) (ilog2 q - 52).

(** The nearest integer, a tie going to the even one. *)
Definition roundEven (x : Q) : Z :=
  let f := Qfloor x in
  match (x - inject_Z f ?= 1 # 2)%Q with
  | Lt => f
  | Gt => (f + 1)%Z
  | Eq => if Z.even f then f else (f + 1)%Z
  end.

(** The double nearest to a positive rational; [None] when that is beyond
    the largest double. *)
Definition roundPositive (q : Q) : option Q :=
  let e := ulpExp q in
  let r := (inject_Z (roundEven (q / 2 ^ e)) * 2 ^ e)%Q in
  if Qle_bool (2 ^ 1024) r then None else Some (Qred r).

Definition signed (negative : bool) (q : Q) : Q :=
  if negative then (- q)%Q else q.

(** Rounding of an exact result that is not zero. *)
Definition round (q : Q) : double :=
  let negative := Qltb q 0 in
  match roundPositive (Qabs q) with
  | None => Infinity negative
  | Some r => if Qeq_bool r 0 then Zero negative else Finite (signed negative r)
  end.

(** A decimal literal: the double nearest to it. *)
Definition ofQ (q : Q) : double :=
  if Qeq_bool q 0 then Zero false else round q.

(** A number that is given by the rational it denotes: a clock reading, a
    number of the data. *)
Definition exact (q : Q) : double :=
  if Qeq_bool q 0 then Zero false else Finite q.

(** An integer literal, a length or a count: below 2^53 every integer is a
    double. *)
Definition ofZ (z : Z) : double := exact (inject_Z z).

Definition neg (x : double) : double :=
  match x with
  | NaN => NaN
  | Infinity s => Infinity (negb s)
  | Zero s => Zero (negb s)
  | Finite q => Finite (- q)
  end.

Definition isNegative (x : double) : bool :=
  match x with
  | NaN => false
  | Infinity s | Zero s => s
  | Finite q => Qltb q 0
  end.

(** [x + y] *)
Definition add (x y : double) : double :=
  match x, y with
  | NaN, _ | _, NaN => NaN
  | Infinity s, Infinity s' => if Bool.eqb s s' then Infinity s else NaN
  | Infinity s, _ | _, Infinity s => Infinity s
  | Zero s, Zero s' => Zero (s && s')
  | Zero _, Finite q | Finite q, Zero _ => Finite q
  | Finite a, Finite b => if Qeq_bool (a + b) 0 then Zero false else round (a + b)
  end.

(** [x - y] *)
Definition sub (x y : double) : double := add x (neg y).

(** [x * y] *)
Definition mul (x y : double) : double :=
  match x, y with
  | NaN, _ | _, NaN => NaN
  | Infinity _, Zero _ | Zero _, Infinity _ => NaN
  | Infinity s, y => Infinity (xorb s (isNegative y))
  | x, Infinity s => Infinity (xorb (isNegative x) s)
  | Zero s, y => Zero (xorb s (isNegative y))
  | x, Zero s => Zero (xorb (isNegative x) s)
  | Finite a, Finite b => round (a * b)
  end.

(** [x / y] *)
Definition div (x y : double) : double :=
  match x, y with
  | NaN, _ | _, NaN => NaN
  | Infinity _, Infinity _ | Zero _, Zero _ => NaN
  | Infinity s, y => Infinity (xorb s (isNegative y))
  | x, Infinity s => Zero (xorb (isNegative x) s)
  | Zero s, y => Zero (xorb s (isNegative y))
  | x, Zero s => Infinity (xorb (isNegative x) s)
  | Finite a, Finite b => round (a / b)
  end.

(** [x < y] *)
Definition lt (x y : double) : bool :=
  match x, y with
  | NaN, _ | _, NaN => false
  | Infinity s, Infinity s' => s && negb s'
  | Infinity s, _ => s
  | _, Infinity s => negb s
  | Zero _, Zero _ => false
  | Zero _, Finite b => Qltb 0 b
  | Finite a, Zero _ => Qltb a 0
  | Finite a, Finite b => Qltb a b
  end.

(** [x !== x] *)
Definition isNaN (x : double) : bool :=
  match x with NaN => true | _ => false end.

(** [Math.max(x, y)] *)
Definition max (x y : double) : double :=
  match x, y with
  | NaN, _ | _, NaN => NaN
  | Zero s, Zero s' => Zero (s && s')
  | _, _ => if lt x y then y else x
  end.

(** [Math.min(x, y)] *)
Definition min (x y : double) : double :=
  match x, y with
  | NaN, _ | _, NaN => NaN
  | Zero s, Zero s' => Zero (s || s')
  | _, _ => if lt y x then y else x
  end.

(** An integer result: zero keeps the sign of the argument. *)
Definition integer (negative : bool) (z : Z) : double :=
  if (z =? 0)%Z then Zero negative else Finite (inject_Z z).

(** [Math.floor(x)] *)
Definition floor (x : double) : double :=
  match x with
  | Finite q => integer (Qltb q 0) (Qfloor q)
  | _ => x
  end.

(** [Math.round(x)]: the nearest integer, a half going up. *)
Definition roundHalfUp (x : double) : double :=
  match x with
  | Finite q => integer (Qltb q 0) (Qfloor (q + (1 # 2)))
  | _ => x
  end.

(** [Math.sqrt(x)] of a positive rational: the integer square root of the
    argument scaled by a power of 4 locates the root between two
    neighbouring integers well above 2^53, where half an integer more
    rounds as the root does. *)
Definition sqrtPositive (q : Q) : double :=
  let s := Z.max 0 (64 - ilog2 q / 2) in
  let scaled := (q * 4 ^ s)%Q in
  let n := Qfloor scaled in
  let t := Z.sqrt n in
  let exact := (t * t =? n)%Z && Qeq_bool (inject_Z n) scaled in
  round ((inject_Z t + (if exact then 0 else 1 # 2)) / 2 ^ s)%Q.

Definition sqrt (x : double) : double :=
  match x with
  | NaN => NaN
  | Infinity s => if s then NaN else x
  | Zero _ => x
  | Finite q => if Qltb q 0 then NaN else sqrtPositive q
  end.

(** The rational a finite number denotes. *)
Definition toQ (x : double) : option Q :=
  match x with
  | Zero _ => Some 0%Q
  | Finite q => Some q
  | _ => None
  end.

End Double.

(** ** Latency samplers *)

Module Sampler.

(** A JavaScript number as the [fps] field can hold it; a zero is
    [Num 0] whatever its sign. *)
Inductive number : Type :=
  | Num (q : Q)
  | PosInfinity
  | NegInfinity
  | NotANumber.

Definition ofDouble (x : Double.double) : number :=
  match x with
  | Double.NaN => NotANumber
  | Double.Infinity negative => if negative then NegInfinity else PosInfinity
  | Double.Zero _ => Num 0%Q
  | Double.Finite q => Num q
  end.

(** The object literal passed to [resolve]; a missing field and an
    [undefined] element are [None]. *)
Record stats : Type := Stats {
  p50 : option Q;
  p95 : option Q;
  fps : option number;
}.

(** What the promise resolves to: a bare number or a statistics record. *)
Inductive resolved : Type :=
  | ResNumber (q : Q)
  | ResStats (s : stats).

(** The clock readings of trial [i]: [t0] taken before the trigger and
    [t1] taken inside the animation-frame callback. *)
Definition clock : Type := nat → Q * Q.

(** [(a, b) => a - b] *)
Definition numAscending (a b : Q) : bool := Qle_bool (a - b) 0.

(** [Math.floor(len * p)] as an array index. *)
Definition floorIndex (len : nat) (p : Q) : nat :=
  Z.to_nat (Qfloor (inject_Z (Z.of_nat len) * p)%Q).

(** The loop [next]: [remaining] is [samples - i]; each trial pushes
    [t1 - t0] and, for the brush samplers, [t1]. *)
Fixpoint next (clk : clock) (remaining i : nat) (latencies stamps : list Q)
  : list Q * list Q :=
  match remaining with
  | 0 => (latencies, stamps)
  | S r =>
      let '(t0, t1) := clk i in
      next clk r (S i) (latencies ++ [(t1 - t0)%Q]) (stamps ++ [t1])
  end.

(** The [fps] expression evaluated when the loop ends:
    [len > 1 ? 1000 / ((stamps[len - 1] - stamps[0]) / (len - 1)) : 0],
    a subtraction and two divisions of doubles. *)
Definition fpsOf (stamps : list Q) : Double.double :=
  let len := length stamps in
  if bool_decide (1 < len) then
    Double.div (Double.ofZ 1000)
      (Double.div
         (Double.sub (Double.exact (nth (len - 1) stamps 0%Q))
                     (Double.exact (nth 0 stamps 0%Q)))
         (Double.ofZ (Z.of_nat len - 1)))
  else Double.ofZ 0.

(** The branch [i >= samples] of a hover sampler. *)
Definition finishHover (latencies : list Q) : resolved :=
  let sorted := jsSort numAscending latencies in
  ResStats {| p50 := sorted !! floorIndex (length sorted) (1 # 2)%Q;
              p95 := sorted !! floorIndex (length sorted) (95 # 100)%Q;
              fps := None |}.

(** The branch [i >= samples] of a brush sampler. *)
Definition finishBrush (latencies stamps : list Q) : resolved :=
  let sorted := jsSort numAscending latencies in
  let f := fpsOf stamps in
  ResStats {| p50 := sorted !! floorIndex (length sorted) (1 # 2)%Q;
              p95 := sorted !! floorIndex (length sorted) (95 # 100)%Q;
              fps := Some (ofDouble (Double.roundHalfUp f)) |}.

Definition zeroStats : stats :=
  {| p50 := Some 0%Q; p95 := Some 0%Q; fps := Some (Num 0%Q) |}.

(** [Math.min(cap, n)] trials, none when the bound is not positive. *)
Definition samplesOf (cap n : Z) : nat := Z.to_nat (Z.min cap n).

End Sampler.

(** [matrix.js] *)
Module Matrix.
Import Sampler.

(** [total] is [rects.size()]; the parameter [n] is not read. *)
Definition measureHoverLatency (total : nat) (n : Z) (clk : clock) : resolved :=
  if bool_decide (total = 0) then ResNumber 0%Q
  else
    let samples := samplesOf 200 (Z.of_nat total) in
    let '(latencies, _) := next clk samples 0 [] [] in
    finishHover latencies.

Definition measureBrushLatency (total : nat) (n : Z) (clk : clock) : resolved :=
  if bool_decide (total = 0) then ResNumber 0%Q
  else
    let samples := samplesOf 100 n in
    let '(latencies, frameTimestamps) := next clk samples 0 [] [] in
    finishBrush latencies frameTimestamps.
End Matrix.

(** [matrix-enriched.js] *)
Module MatrixEnriched.
Import Sampler.

Definition measureBrush (total : nat) (n : Z) (clk : clock) : resolved :=
  if bool_decide (total = 0) then ResStats zeroStats
  else
    let samples := samplesOf 60 n in
    let '(latencies, stamps) := next clk samples 0 [] [] in
    finishBrush latencies stamps.
End MatrixEnriched.

(** The dynamic prism view. *)
Module PrismDynamic.
Import Sampler.

Definition measureBrush (total : nat) (T : Z) (clk : clock) : resolved :=
  if bool_decide (total = 0) then ResStats zeroStats
  else
    let samples := samplesOf 50 T in
    let '(latencies, stamps) := next clk samples 0 [] [] in
    finishBrush latencies stamps.
End PrismDynamic.

(** The multi-prism view ([PrismMulti]). *)
Module PrismMulti.
Import Sampler.

Definition measureBrush (total : nat) (T : Z) (clk : clock) : resolved :=
  if bool_decide (total = 0) then ResStats zeroStats
  else
    let samples := samplesOf 50 T in
    let '(latencies, stamps) := next clk samples 0 [] [] in
    finishBrush latencies stamps.
End PrismMulti.

(** [prism.js] *)
Module Prism.
Import Sampler.

Definition measurePrismHoverLatency (total : nat) (clk : clock) : resolved :=
  if bool_decide (total = 0)
  then ResStats {| p50 := Some 0%Q; p95 := Some 0%Q; fps := None |}
  else
    let samples := samplesOf 300 (Z.of_nat total) in
    let '(latencies, _) := next clk samples 0 [] [] in
    finishHover latencies.

Definition measurePrismBrushLatency (total : nat) (T : Z) (clk : clock) : resolved :=
  if bool_decide (total = 0) then ResStats zeroStats
  else
    let samples := samplesOf 100 T in
    let '(latencies, frameTimestamps) := next clk samples 0 [] [] in
    finishBrush latencies frameTimestamps.
End Prism.

(** ** Cluster detection ([network-view.js]) *)

Module NetworkView.

(** The per-year object stored in [correlationData]. *)
Record CorrData : Type := {
  tickers : list string;
  matrix : list (list Q);
  tickerIndex : gmap string nat;
}.

(** [data.tickers.forEach((t, i) => { tickerIndex[t] = i; })] *)
Definition buildTickerIndex (tickers : list string) : gmap string nat :=
  foldl (λ idx it, <[it.2 := it.1]> idx) ∅ (imap pair tickers).

(** The object [loadCorrelationForYear] stores for a year. *)
Definition loadCorrelation (tickers : list string) (matrix : list (list Q))
  : CorrData :=
  {| tickers := tickers; matrix := matrix;
     tickerIndex := buildTickerIndex tickers |}.

Record Component : Type := {
  id : Z;
  indices : list nat;
  componentTickers : list string;
  size : nat;
  containsMustHave : bool;
}.

(** The returned object; the early return leaves four fields out. *)
Record ClusterResult : Type := {
  clusterTickers : list string;
  components : list Component;
  error : option string;
  validMustHave : option (list string);
  threshold : option Q;
  totalNodes : option nat;
  nodesAboveThreshold : option nat;
}.

(** [Math.abs(matrix[i][j]) >= threshold].  A missing row makes the
    element access throw; a missing entry is [undefined], whose absolute
    value is [NaN], and every comparison with [NaN] is false. *)
Definition qualifies (matrix : list (list Q)) (threshold : Q) (i j : nat)
  : outcome bool :=
  match matrix !! i with
  | None => TypeError
  | Some row =>
      Returned (match row !! j with
                | Some x => Qle_bool threshold (Qabs x)
                | None => false
                end)
  end.

(** [adj[i].push(j)]; [i] is always below [adj.length] here. *)
Definition push (adj : list (list nat)) (i j : nat) : list (list nat) :=
  alter (λ l, l ++ [j]) i adj.

(** The body of the inner [for (j = i + 1; j < n; j++)]. *)
Definition linkPair (matrix : list (list Q)) (threshold : Q) (i : nat)
    (adj : list (list nat)) (j : nat) : outcome (list (list nat)) :=
  q ← qualifies matrix threshold i j;
  Returned (if q : bool then push (push adj i j) j i else adj).

Definition buildAdj (n : nat) (matrix : list (list Q)) (threshold : Q)
  : outcome (list (list nat)) :=
  foldM (λ adj i, foldM (linkPair matrix threshold i) adj (seq (S i) (n - S i)))
        (replicate n []) (seq 0 n).

(** [Set.prototype.add] on the insertion-ordered member list. *)
Definition setAdd (s : list nat) (x : nat) : list nat :=
  if bool_decide (x ∈ s) then s else s ++ [x].

(** The body of [for (const neighbor of adj[current])] in the seed search. *)
Definition visit (st : list nat * list nat) (neighbor : nat)
  : list nat * list nat :=
  if bool_decide (neighbor ∈ st.1) then st
  else (st.1 ++ [neighbor], st.2 ++ [neighbor]).

(** [while (queue.length > 0)] of the seed search. *)
Fixpoint bfs (fuel : nat) (adj : list (list nat)) (visited queue : list nat)
  : outcome (list nat) :=
  match queue with
  | [] => Returned visited
  | current :: rest =>
      match fuel with
      | 0 => OutOfFuel
      | S fuel' =>
          match adj !! current with
          | None => TypeError
          | Some nbrs =>
              let st := foldl visit (visited, rest) nbrs in
              bfs fuel' adj st.1 st.2
          end
      end
  end.

(** The names of the members of [Object.prototype], which a plain object
    such as [tickerIndex] inherits. *)
Definition prototypeNames : list string :=
  [ "constructor"; "hasOwnProperty"; "isPrototypeOf"; "propertyIsEnumerable";
    "toLocaleString"; "toString"; "valueOf"; "__defineGetter__";
    "__defineSetter__"; "__lookupGetter__"; "__lookupSetter__"; "__proto__" ].

(** What [tickerIndex[t]] evaluates to: [undefined], the index stored
    under [t], or a member inherited from [Object.prototype] (a function,
    or the prototype itself), which is not [undefined]. *)
Inductive property : Type :=
  | Undefined
  | OwnIndex (i : nat)
  | Inherited.

#[global] Instance property_eq_dec : EqDecision property.
Proof. solve_decision. Defined.

Definition getProperty (tickerIndex : gmap string nat) (t : string) : property :=
  match tickerIndex !! t with
  | Some i => OwnIndex i
  | None => if bool_decide (t ∈ prototypeNames) then Inherited else Undefined
  end.

(** The body of [for (const ticker of validMustHave)].  A start value
    that is no node number is in no set, and [adj[current]] is then
    [undefined], which [for ... of] cannot iterate. *)
Definition seedStep (fuel : nat) (adj : list (list nat))
    (tickerIndex : gmap string nat) (reachable : list nat) (ticker : string)
  : outcome (list nat) :=
  match getProperty tickerIndex ticker with
  | Undefined | Inherited => TypeError
  | OwnIndex startIdx =>
      if bool_decide (startIdx ∈ reachable) then Returned reachable
      else
        visited ← bfs fuel adj [startIdx] [startIdx];
        Returned (foldl setAdd reachable visited)
  end.

(** [tickers[idx]]; every index the code reads is below [n]. *)
Definition tickerAt (tickers : list string) (idx : nat) : string :=
  default "" (tickers !! idx).

(** [validMustHave.includes(tickers[idx])] *)
Definition isMustHave (tickers validMustHave : list string) (idx : nat) : bool :=
  match tickers !! idx with
  | Some t => bool_decide (t ∈ validMustHave)
  | None => false
  end.

(** The body of [for (const neighbor of adj[current])] in the component
    search. *)
Definition mark (componentId : Z) (st : list Z * list nat) (neighbor : nat)
  : list Z * list nat :=
  if bool_decide (st.1 !! neighbor = Some (-1)%Z)
  then (<[neighbor := componentId]> st.1, st.2 ++ [neighbor])
  else st.

(** [while (queue.length > 0)] of the component search. *)
Fixpoint bfsComponent (fuel : nat) (adj : list (list nat)) (componentId : Z)
    (componentOf : list Z) (comp queue : list nat)
  : outcome (list Z * list nat) :=
  match queue with
  | [] => Returned (componentOf, comp)
  | current :: rest =>
      match fuel with
      | 0 => OutOfFuel
      | S fuel' =>
          match adj !! current with
          | None => TypeError
          | Some nbrs =>
              let st := foldl (mark componentId) (componentOf, rest) nbrs in
              bfsComponent fuel' adj componentId st.1 (comp ++ [current]) st.2
          end
      end
  end.

(** The mutable variables of the component loop. *)
Record Partition : Type := {
  componentOf : list Z;
  componentId : Z;
  found : list Component;
}.

Definition mkComponent (tickers validMustHave : list string) (cid : Z)
    (comp : list nat) : Component :=
  {| id := cid;
     indices := comp;
     componentTickers := map (tickerAt tickers) comp;
     size := length comp;
     containsMustHave := existsb (isMustHave tickers validMustHave) comp |}.

(** The body of the second [for (let i = 0; i < n; i++)]. *)
Definition componentStep (fuel : nat) (adj : list (list nat))
    (tickers validMustHave : list string) (st : Partition) (i : nat)
  : outcome Partition :=
  if bool_decide (componentOf st !! i = Some (-1)%Z) then
    match adj !! i with
    | None => TypeError
    | Some [] => Returned st
    | Some (_ :: _) =>
        r ← bfsComponent fuel adj (componentId st)
              (<[i := componentId st]> (componentOf st)) [] [i];
        Returned {| componentOf := r.1;
                    componentId := (componentId st + 1)%Z;
                    found := found st ++
                      [mkComponent tickers validMustHave (componentId st) r.2] |}
    end
  else Returned st.

(** The comparator handed to [components.sort]. *)
Definition compareComponents (a b : Component) : Z :=
  if bool_decide (containsMustHave a ≠ containsMustHave b)
  then (Z.b2z (containsMustHave b) - Z.b2z (containsMustHave a))%Z
  else (Z.of_nat (size b) - Z.of_nat (size a))%Z.

Definition componentLe (a b : Component) : bool :=
  bool_decide (compareComponents a b ≤ 0)%Z.

Definition noSeedError : string := "None of the must-have tickers found in data".

Definition detectCluster (corrData : CorrData) (mustHaveTickers : list string)
    (thr : Q) : outcome ClusterResult :=
  let n := length (tickers corrData) in
  let valid :=
    filter (λ t, getProperty (tickerIndex corrData) t ≠ Undefined)
           mustHaveTickers in
  if bool_decide (length valid = 0) then
    Returned {| clusterTickers := []; components := [];
                error := Some noSeedError; validMustHave := None;
                threshold := None; totalNodes := None;
                nodesAboveThreshold := None |}
  else
    adj ← buildAdj n (matrix corrData) thr;
    reachable ← foldM (seedStep (S n) adj (tickerIndex corrData)) [] valid;
    let cluster := jsSort String.leb (map (tickerAt (tickers corrData)) reachable) in
    part ← foldM (componentStep (S n) adj (tickers corrData) valid)
              {| componentOf := replicate n (-1)%Z; componentId := 0%Z;
                 found := [] |}
              (seq 0 n);
    Returned {| clusterTickers := cluster;
                components := jsSort componentLe (found part);
                error := None; validMustHave := Some valid;
                threshold := Some thr; totalNodes := Some n;
                nodesAboveThreshold := Some (length reachable) |}.

End NetworkView.

Import NetworkView.


(** ** Vocabulary of the sampler statements *)

Section SamplerSpec.
Import Sampler.

(** The samples a run of [k] trials collects, read off the clock. *)
Definition latenciesOf (clk : clock) (k : nat) : list Q :=
  map (λ i, ((clk i).2 - (clk i).1)%Q) (seq 0 k).

Definition stampsOf (clk : clock) (k : nat) : list Q :=
  map (λ i, (clk i).2) (seq 0 k).

(** Nearest-rank percentiles of a sample list, in the words of the
    specification: the elements at [floor(0.5 * len)] and
    [floor(0.95 * len)] of the ascending arrangement. *)
Definition nearestRank (samples : list Q) (s : stats) : Prop :=
  ∃ sorted : list Q,
    sorted ≡ₚ samples ∧ StronglySorted Qle sorted ∧
    is_Some (p50 s) ∧ p50 s = sorted !! (length samples / 2) ∧
    is_Some (p95 s) ∧ p95 s = sorted !! (length samples * 95 / 100).

(** [r] is the integer nearest to [x], halves going up. *)
Definition nearestInteger (x : Q) (r : Z) : Prop :=
  (inject_Z r - (1 # 2) <= x)%Q ∧ (x < inject_Z r + (1 # 2))%Q.

(** The formula of the specification, over the rationals. *)
Definition exactFps (first last : Q) (count : nat) : Q :=
  (1000 / ((last - first) / inject_Z (Z.of_nat count - 1)))%Q.

(** The same formula in doubles: each of the three operations gives the
    double nearest to its exact result. *)
Definition doubleFps (first last : Q) (count : nat) : Double.double :=
  Double.div (Double.ofZ 1000)
    (Double.div (Double.sub (Double.exact last) (Double.exact first))
                (Double.ofZ (Z.of_nat count - 1))).

(** Two positive rationals that agree up to the factor [c]. *)
Definition within (c x y : Q) : Prop :=
  (0 < x)%Q ∧ (0 < y)%Q ∧ (x <= y * c)%Q ∧ (y <= x * c)%Q.

(** Frames per second over a run, rounded as the code rounds it: the
    formula in doubles, then [Math.round].  For frames between a
    nanosecond and a million seconds apart the double is within 2^-50 of
    the exact quotient, relatively. *)
Definition roundedFps (stamps : list Q) (f : option number) : Prop :=
  (length stamps ≤ 1 → f = Some (Num 0%Q)) ∧
  (1 < length stamps →
   ∀ first last : Q,
     stamps !! 0 = Some first → stamps !! (length stamps - 1) = Some last →
     f = Some (ofDouble (Double.roundHalfUp
                           (doubleFps first last (length stamps)))) ∧
     ((first == last)%Q → f = Some PosInfinity) ∧
     ((1 # 1000000 <= last - first)%Q → (last - first <= 1000000000)%Q →
      length stamps ≤ 1001 →
      ∃ (x : Q) (r : Z),
        doubleFps first last (length stamps) = Double.Finite x ∧
        (exactFps first last (length stamps) * (1 - 2 ^ (-50)) <= x)%Q ∧
        (x <= exactFps first last (length stamps) * (1 + 2 ^ (-50)))%Q ∧
        nearestInteger x r ∧ f = Some (Num (inject_Z r)))).

(** A clock whose frames are stamped 4, 100, 200 and 404 ms. *)
Definition unevenClock : clock :=
  λ i, match i with
       | 0 => (0, 4)%Q
       | 1 => (96, 100)%Q
       | 2 => (196, 200)%Q
       | _ => (400, 404)%Q
       end.

(** A clock for examples: trial [i] is triggered at [16 i] ms and its
    frame completes 4 ms later. *)
Definition steadyClock : clock :=
  λ i, (inject_Z (16 * Z.of_nat i), inject_Z (16 * Z.of_nat i + 4)).
End SamplerSpec.

(** ** Vocabulary of the cluster statements *)

Section ClusterSpec.

(** [matrix[i][j]], when the row and the entry exist. *)
Definition entry (matrix : list (list Q)) (i j : nat) : option Q :=
  row ← matrix !! i; row !! j.

(** [|matrix[i][j]| >= threshold] *)
Definition aboveThreshold (matrix : list (list Q)) (thr : Q) (i j : nat) : bool :=
  match entry matrix i j with
  | Some x => Qle_bool thr (Qabs x)
  | None => false
  end.

(** The ThresholdGraph of the data model, read from the upper triangle. *)
Definition thresholdGraph (n : nat) (matrix : list (list Q)) (thr : Q)
    (a b : nat) : Prop :=
  a < n ∧ b < n ∧
  ((a < b ∧ aboveThreshold matrix thr a b = true) ∨
   (b < a ∧ aboveThreshold matrix thr b a = true)).

(** A qualifying edge between two distinct nodes. *)
Definition qualifyingEdge (matrix : list (list Q)) (thr : Q) (i j : nat) : Prop :=
  i ≠ j ∧ aboveThreshold matrix thr i j = true.

Definition symmetricMatrix (matrix : list (list Q)) : Prop :=
  ∀ i j, match entry matrix i j, entry matrix j i with
         | Some x, Some y => (x == y)%Q
         | None, None => True
         | _, _ => False
         end.

(** [b] is listed in [adj[a]]. *)
Definition edge (adj : list (list nat)) (a b : nat) : Prop :=
  ∃ l, adj !! a = Some l ∧ b ∈ l.

(** The adjacency lists after the pairs selected by [P] have been
    examined by the double loop. *)
Definition adjInv (n : nat) (matrix : list (list Q)) (thr : Q)
    (P : nat → nat → Prop) (adj : list (list nat)) : Prop :=
  length adj = n ∧
  ∀ a b, edge adj a b ↔
    a < n ∧ b < n ∧
    ((a < b ∧ P a b ∧ aboveThreshold matrix thr a b = true) ∨
     (b < a ∧ P b a ∧ aboveThreshold matrix thr b a = true)).

(** Mutual reachability through listed neighbours. *)
Definition connected (adj : list (list nat)) : relation nat := rtc (edge adj).

(** A state of the seed search from [start]: [visited] holds distinct
    nodes reachable from [start], the queue is part of it, and every
    visited node that has left the queue has all its neighbours visited. *)
Record bfsInv (n : nat) (adj : list (list nat)) (start : nat)
    (visited queue : list nat) : Prop := {
  bfs_nodup : NoDup visited;
  bfs_bound : ∀ x, x ∈ visited → x < n;
  bfs_queue : ∀ x, x ∈ queue → x ∈ visited;
  bfs_start : start ∈ visited;
  bfs_sound : ∀ x, x ∈ visited → connected adj start x;
  bfs_closed : ∀ x y, x ∈ visited → x ∉ queue → edge adj x y → y ∈ visited;
}.

(** A state of the component search from [root]: [old] is the marking
    before the search, [comp] the nodes already taken from the queue. *)
Record compInv (n : nat) (adj : list (list nat)) (cid : Z) (old : list Z)
    (root : nat) (marks : list Z) (comp queue : list nat) : Prop := {
  ci_length : length marks = n;
  ci_nodup : NoDup (comp ++ queue);
  ci_marked : ∀ x, x ∈ comp ++ queue →
                   marks !! x = Some cid ∧ old !! x = Some (-1)%Z;
  ci_other : ∀ x, x ∉ comp ++ queue → marks !! x = old !! x;
  ci_sound : ∀ x, x ∈ comp ++ queue → connected adj root x;
  ci_root : root ∈ comp ++ queue;
  ci_closed : ∀ x y, x ∈ comp → edge adj x y → y ∈ comp ++ queue;
}.

(** The component loop before iteration [i]: every marked node lies in
    the recorded component that carries its mark; every recorded
    component is the connectivity class of its first (and smallest)
    member, which has a neighbour; every unmarked node below [i] is
    isolated. *)
Record partInv (n : nat) (adj : list (list nat))
    (tickers valid : list string) (i : nat) (st : Partition) : Prop := {
  pi_length : length (componentOf st) = n;
  pi_id : componentId st = Z.of_nat (length (found st));
  pi_marks : ∀ x c, componentOf st !! x = Some c →
    c = (-1)%Z ∨
    ∃ k comp, c = Z.of_nat k ∧ found st !! k = Some comp ∧ x ∈ indices comp;
  pi_found : ∀ k c, found st !! k = Some c →
    c = mkComponent tickers valid (Z.of_nat k) (indices c) ∧
    NoDup (indices c) ∧
    ∃ root rest, indices c = root :: rest ∧ root < i ∧
      (∃ y, edge adj root y) ∧
      (∀ x, x ∈ indices c ↔ connected adj root x) ∧
      (∀ x, x ∈ indices c →
            componentOf st !! x = Some (Z.of_nat k) ∧ root ≤ x);
  pi_seen : ∀ x, x < i → componentOf st !! x = Some (-1)%Z →
                 adj !! x = Some [];
  pi_order : ∀ k k' c c' r r', k < k' →
    found st !! k = Some c → found st !! k' = Some c' →
    head (indices c) = Some r → head (indices c') = Some r' → r < r';
}.

(** The identifiers of the components flagged [containsMustHave]. *)
Definition flaggedTickers (r : ClusterResult) : list string :=
  concat (map componentTickers
            (filter (λ c, containsMustHave c = true) (components r))).

(** A list deduplicated and sorted ascending. *)
Definition sortedUnion (l : list string) : list string :=
  jsSort String.leb (remove_dups l).

(** Two calls end the same way, with the same cluster and components. *)
Definition sameOutput (o1 o2 : outcome ClusterResult) : Prop :=
  match o1, o2 with
  | Returned r1, Returned r2 =>
      clusterTickers r1 = clusterTickers r2 ∧
      components r1 = components r2 ∧
      error r1 = error r2
  | TypeError, TypeError => True
  | OutOfFuel, OutOfFuel => True
  | _, _ => False
  end.

(** Node [x] has a qualifying edge to another node of the matrix. *)
Definition hasDegree (n : nat) (matrix : list (list Q)) (thr : Q) (x : nat) : Prop :=
  ∃ y, y < n ∧ qualifyingEdge matrix thr x y.

(** The object comes from [loadCorrelationForYear]: the index is the one
    built from the ticker list, and the matrix has a row per ticker. *)
Definition loaded (c : CorrData) : Prop :=
  tickerIndex c = buildTickerIndex (tickers c) ∧
  length (matrix c) = length (tickers c).

(** The filter applied to the requested tickers:
    [tickerIndex[t] !== undefined]. *)
Definition validSeeds (c : CorrData) (mustHaveTickers : list string) : list string :=
  filter (λ t, getProperty (tickerIndex c) t ≠ Undefined) mustHaveTickers.

(** No requested ticker is read from [Object.prototype]: a request that
    names a member of [Object.prototype] names a ticker of the data. *)
Definition ownSeeds (c : CorrData) (mustHaveTickers : list string) : Prop :=
  ∀ t, t ∈ mustHaveTickers → t ∈ prototypeNames → is_Some (tickerIndex c !! t).

(** Four tickers whose only strong correlations are A-B and C-D. *)
Definition demo : CorrData :=
  loadCorrelation ["A"; "B"; "C"; "D"]
    [ [1; 9#10; 1#10; 0]; [9#10; 1; 0; 1#10];
      [1#10; 0; 1; -(7#10)]; [0; 1#10; -(7#10); 1] ]%Q.
End ClusterSpec.

(** ** Drawing the year rows ([render] of [network-view.js]) *)

Module NetworkViewRender.

(** [result.components.filter(c => c.size >= 2).slice(0, 5)]: the
    components that [render] goes through; it draws each one whose box
    still fits into the row. *)
Definition displayComps (r : ClusterResult) : list Component :=
  take 5 (filter (λ c, 2 ≤ size c) (components r)).

Definition nBins : nat := 40.
Definition rowH : Q := 90.

(** [Math.min(nBins - 1, Math.max(0, Math.floor((v + 1) / 2 * nBins)))]
    for a number [v] of the matrix: an addition, a division and a
    multiplication of doubles.  The result is an integer from 0 to
    [nBins - 1], a zero being the index 0. *)
Definition binIndex (v : Q) : Z :=
  let x := Double.mul
             (Double.div (Double.add (Double.exact v) (Double.ofZ 1))
                         (Double.ofZ 2))
             (Double.ofZ (Z.of_nat nBins)) in
  match Double.min (Double.ofZ (Z.of_nat nBins - 1))
                   (Double.max (Double.ofZ 0) (Double.floor x)) with
  | Double.Finite idx => Qfloor idx
  | _ => 0%Z
  end.

(** [for (const v of values) { ...; bins[idx]++; }] on
    [new Array(nBins).fill(0)].  An [undefined] value gives the index
    [NaN], and [bins[NaN]++] touches no bin. *)
Definition histogram (values : list (option Q)) : list nat :=
  foldl (λ bins v,
           match v with
           | Some x => alter S (Z.to_nat (binIndex x)) bins
           | None => bins
           end)
        (replicate nBins 0) values.

(** [Math.max(...bins, 1)] *)
Definition maxOf (bins : list nat) : nat := foldr Nat.max 1 bins.

(** The height [y] of bin [b] in a path: [rowH - (bins[b] / max) * rowH *
    scale], with [scale] 0.85 for the market area and 0.7 for a stock line. *)
Definition plotY (scale : Q) (bins : list nat) (b : nat) : Q :=
  (rowH - (inject_Z (Z.of_nat (bins !!! b)) / inject_Z (Z.of_nat (maxOf bins)))
          * rowH * scale)%Q.

(** [matrix[tidx].filter((_, j) => j !== tidx)] *)
Definition stockCorrs (row : list Q) (tidx : nat) : list Q := delete tidx row.

End NetworkViewRender.

(** ** Further vocabulary of the sampler statements *)

Section SamplerSpecMore.
Import Sampler.

(** Both percentiles are measured latencies, the median not above the
    95th percentile. *)
Definition orderedPercentiles (samples : list Q) (s : stats) : Prop :=
  ∃ x y, p50 s = Some x ∧ p95 s = Some y ∧ (x <= y)%Q ∧
         x ∈ samples ∧ y ∈ samples.

(** A clock that never runs backwards. *)
Definition monotoneClock (clk : clock) : Prop :=
  (∀ i, ((clk i).1 <= (clk i).2)%Q) ∧
  (∀ i, ((clk i).2 <= (clk (S i)).2)%Q).

(** No statistic is negative. *)
Definition nonnegativeStats (s : stats) : Prop :=
  (∀ x, p50 s = Some x → (0 <= x)%Q) ∧
  (∀ x, p95 s = Some x → (0 <= x)%Q) ∧
  (∀ f, fps s = Some (Num f) → (0 <= f)%Q) ∧
  fps s ≠ Some NegInfinity.

(** A number that is not negative: no [NaN], no [-Infinity], no [-0]. *)
Definition notNegative (x : Double.double) : Prop :=
  match x with
  | Double.NaN => False
  | Double.Infinity negative | Double.Zero negative => negative = false
  | Double.Finite q => (0 < q)%Q
  end.

(** The record of a run without trials. *)
Definition undefinedStats : stats :=
  {| p50 := None; p95 := None; fps := Some (Num 0%Q) |}.
End SamplerSpecMore.

(** ** The knowledge view ([knowledge-view.js]) *)

Module KnowledgeView.

(** An entry of [metadataCache.metadata]. *)
Record Meta : Type := {
  sector : string;
  subIndustry : string;
  hqState : string;
}.

(** [meta[t]], the metadata object given by its entries in the order of
    [Object.entries]. *)
Definition metaOf (meta : list (string * Meta)) (t : string) : option Meta :=
  (λ found, found.2.2) <$> list_find (λ e, e.1 = t) meta.

(** A loop [for (const [t, m] of Object.entries(meta))] that skips the
    selected ticker and pushes the tickers whose entry passes the test. *)
Definition collect (meta : list (string * Meta)) (selectedTicker : string)
    (test : Meta → bool) : list string :=
  map fst (filter (λ e, e.1 ≠ selectedTicker ∧ test e.2 = true) meta).

Record Item : Type := { label : string; itemTickers : list string }.
Record Layer : Type := { name : string; items : list Item }.

Definition sameSector (sel m : Meta) : bool :=
  bool_decide (sector m = sector sel).
Definition sameSubIndustry (sel m : Meta) : bool :=
  bool_decide (subIndustry m = subIndustry sel).
Definition sameState (sel m : Meta) : bool :=
  bool_decide (hqState m = hqState sel ∧ hqState m ≠ "Unknown").
Definition sharedHuman (sel m : Meta) : bool :=
  bool_decide (sector m = sector sel ∧ hqState m = hqState sel ∧
               hqState m ≠ "Unknown").

(** The array [layers]. *)
Definition layersOf (meta : list (string * Meta)) (selectedTicker : string)
    (sel : Meta) : list Layer :=
  [ {| name := "Business";
       items :=
         [ {| label := sector sel;
              itemTickers := take 40 (collect meta selectedTicker (sameSector sel)) |};
           {| label := String.substring 0 22 (subIndustry sel);
              itemTickers := take 25 (collect meta selectedTicker (sameSubIndustry sel)) |} ] |};
    {| name := "Location";
       items :=
         [ {| label := hqState sel;
              itemTickers := take 35 (collect meta selectedTicker (sameState sel)) |} ] |};
    {| name := "Human";
       items :=
         [ {| label := "Shared Relations";
              itemTickers := take 20 (collect meta selectedTicker (sharedHuman sel)) |} ] |} ].

(** Elements appended for one node: the circle, the chord and, for a
    cluster member of a list of at most 15, its label. *)
Definition nodeElements (clusterTickers nodeTickers : list string)
    (ticker : string) : nat :=
  2 + (if bool_decide (ticker ∈ clusterTickers ∧ length nodeTickers ≤ 15)
       then 1 else 0).

(** Sub-arc, item label and the nodes. *)
Definition itemElements (clusterTickers : list string) (item : Item) : nat :=
  2 + sum_list (map (nodeElements clusterTickers (itemTickers item))
                    (itemTickers item)).

(** Outer arc, layer label and the items. *)
Definition layerElements (clusterTickers : list string) (layer : Layer) : nat :=
  2 + sum_list (map (itemElements clusterTickers) (items layer)).

(** [render], reduced to the [elCount] it returns; [metadataCache] is
    [None] when the cache or its [metadata] field is missing. *)
Definition render (hasContainer : bool)
    (metadataCache : option (list (string * Meta)))
    (selectedTicker : string) (clusterTickers : option (list string)) : nat :=
  if hasContainer then
    match metadataCache with
    | None => 0
    | Some meta =>
        match metaOf meta selectedTicker with
        | None => 0
        | Some sel =>
            let layers := layersOf meta selectedTicker sel in
            1 + sum_list (map (layerElements (default [] clusterTickers)) layers)
              + 2 + 2 * length layers
        end
    end
  else 0.

End KnowledgeView.

(** ** The orchestrator ([combined.js]) *)

Module Combined.
Import Stdlib.Strings.Ascii.
Import KnowledgeView.

(** A character matched by the class [[,;\s]]. *)
Definition isSeparator (a : Ascii.ascii) : bool :=
  Ascii.is_space a || Ascii.eqb a ","%char || Ascii.eqb a ";"%char.

Definition startsWithSeparator (s : string) : bool :=
  match s with
  | String a _ => isSeparator a
  | EmptyString => false
  end.

(** [raw.split(/[,;\s]+/)]: the pieces between maximal runs of
    separators, the empty pieces at both ends included. *)
Fixpoint split (s : string) : list string :=
  match s with
  | EmptyString => [EmptyString]
  | String a s' =>
      if isSeparator a then
        if startsWithSeparator s' then split s' else EmptyString :: split s'
      else
        match split s' with
        | h :: r => String a h :: r
        | [] => [String a EmptyString]
        end
  end.

Definition upperChar (a : Ascii.ascii) : Ascii.ascii :=
  let n := Ascii.nat_of_ascii a in
  if (97 <=? n) && (n <=? 122) then Ascii.ascii_of_nat (n - 32) else a.

Fixpoint toUpperCase (s : string) : string :=
  match s with
  | EmptyString => EmptyString
  | String a s' => String (upperChar a) (toUpperCase s')
  end.

Fixpoint trimStart (s : string) : string :=
  match s with
  | EmptyString => EmptyString
  | String a s' => if Ascii.is_space a then trimStart s' else s
  end.

Fixpoint trimEnd (s : string) : string :=
  match s with
  | EmptyString => EmptyString
  | String a s' =>
      let r := trimEnd s' in
      if Ascii.is_space a && String.eqb r EmptyString then EmptyString
      else String a r
  end.

Definition trim (s : string) : string := trimEnd (trimStart s).

(** [parseMustHaveTickers], as a function of the text of the input field. *)
Definition parseMustHaveTickers (raw : string) : list string :=
  filter (λ t, 0 < String.length t)
         (map (λ t, toUpperCase (trim t)) (split raw)).

(** [mustHave.join(', ')] *)
Definition joinTickers (tickers : list string) : string :=
  String.concat ", " tickers.

Definition candidates : list string := ["SPY"; "VOO"; "IVV"; "XLK"; "QQQ"].

(** [findMarketProxy]; the result is [None] for the [undefined] that
    [allTickers[0]] gives on an empty list. *)
Definition findMarketProxy (clusterTickers allTickers : list string)
  : option string :=
  match list_find (λ c, c ∈ allTickers ∧ c ∉ clusterTickers) candidates with
  | Some found => Some found.2
  | None =>
      match list_find (λ t, t ∉ clusterTickers) allTickers with
      | Some found => Some found.2
      | None => head allTickers
      end
  end.


(** The test of both loops of [findSectorPeer]. *)
Definition sectorMate (meta : list (string * Meta)) (ticker : string)
    (selectedSector : string) (t : string) : Prop :=
  t ≠ ticker ∧ ∃ m, metaOf meta t = Some m ∧ sector m = selectedSector.

#[global] Instance sectorMate_dec meta ticker selectedSector t :
  Decision (sectorMate meta ticker selectedSector t).
Proof.
  unfold sectorMate. destruct (metaOf meta t) as [m|].
  - destruct (decide (t ≠ ticker ∧ sector m = selectedSector)) as [H|H].
    + left. destruct H. eauto.
    + right. intros [? (m' & [= <-] & ?)]. by apply H.
  - right. by intros [_ (m & ? & _)].
Defined.


(** The branch [onYearSelected] takes for a cluster. *)
Inductive YearSelection : Type :=
  | NoClusterFound
  | ClusterTooLarge
  | RenderMatrix (n maxWidth : nat).

Definition onYearSelected (clusterTickers : list string) : YearSelection :=
  if bool_decide (length clusterTickers = 0) then NoClusterFound
  else if bool_decide (500 < length clusterTickers) then ClusterTooLarge
  else RenderMatrix (length clusterTickers) 500.

End Combined.

(** ** Drawing the matrix ([matrix-enriched.js], [matrix.js]) *)

(** [array.map(f)] with a callback that may throw. *)
Fixpoint mapM {A B : Type} (f : A → outcome B) (l : list A) : outcome (list B) :=
  match l with
  | [] => Returned []
  | x :: l' => y ← f x; ys ← mapM f l'; Returned (y :: ys)
  end.

Module MatrixView.

(** [Math.max(1, Math.min(cap, Math.floor(width / n)))] for the positive
    widths of the call sites; for [n = 0] the quotient is [Infinity] and
    the result is [cap]. *)
Definition cellSizeFor (cap width n : nat) : nat :=
  if bool_decide (n = 0) then Nat.max 1 cap
  else Nat.max 1 (Nat.min cap (width / n)).

(** [options.maxWidth || 500] *)
Definition maxPlotWidth (maxWidth : option nat) : nat :=
  match maxWidth with
  | Some 0 | None => 500
  | Some w => w
  end.

(** The cell size of [MatrixEnriched.render]. *)
Definition cellSize (maxWidth : option nat) (n : nat) : nat :=
  cellSizeFor 6 (maxPlotWidth maxWidth) n.

(** The cell size of [loadAndRender] in [matrix.js]. *)
Definition baselineCellSize (N : nat) : nat := cellSizeFor 4 600 N.

(** [idx !== undefined ? idx : 0]: a row number, or [None] for a member
    inherited from [Object.prototype], which is no row number. *)
Definition indexOf (tickerIndex : gmap string nat) (t : string) : option nat :=
  match getProperty tickerIndex t with
  | OwnIndex i => Some i
  | Undefined => Some 0
  | Inherited => None
  end.

(** [subsetMatrix]: the tickers and the sub-matrix; an entry read outside
    a row is [undefined], here [None], and [matrix[rowIdx]] is [undefined]
    for a row that does not exist, which makes the entry access throw. *)
Definition subsetMatrix (fullData : CorrData) (subsetTickers : list string)
  : outcome (list string * list (list (option Q))) :=
  let indices := map (indexOf (tickerIndex fullData)) subsetTickers in
  newMatrix ← mapM (λ rowIdx,
                      match rowIdx ≫= (λ r, matrix fullData !! r) with
                      | None => TypeError
                      | Some row =>
                          Returned (map (λ colIdx, colIdx ≫= (λ c, row !! c))
                                        indices)
                      end) indices;
  Returned (subsetTickers, newMatrix).

End MatrixView.

(** ** The prism grids ([PrismDynamic], [prism.js], [PrismMulti]) *)

Module PrismGrid.

Definition MIN_WINDOW : nat := 5.

Record Cell : Type := { e : nat; w : nat; value : Q }.

(** The rational that a finite number denotes, 0 for a zero of either
    sign. *)
Definition valueOf (x : Double.double) : Q :=
  match x with
  | Double.Finite q => q
  | _ => 0%Q
  end.

(** [Math.round(corr * 10000) / 10000] for a finite [corr]. *)
Definition round4 (corr : Q) : Q :=
  valueOf (Double.div
             (Double.roundHalfUp (Double.mul (Double.exact corr) (Double.ofZ 10000)))
             (Double.ofZ 10000)).

(** [arr[i]]: a number of the series, [undefined] past its end. *)
Definition element (arr : list Q) (i : nat) : Double.double :=
  match arr !! i with
  | Some x => Double.exact x
  | None => Double.NaN
  end.

(** The five running sums of [pearsonCorr]. *)
Record Sums : Type := {
  sumA : Double.double;
  sumB : Double.double;
  sumAB : Double.double;
  sumA2 : Double.double;
  sumB2 : Double.double;
}.

(** The body of the loop [for (let i = start; i < end; i++)]. *)
Definition accumulate (arrA arrB : list Q) (s : Sums) (i : nat) : Sums :=
  let a := element arrA i in
  let b := element arrB i in
  {| sumA := Double.add (sumA s) a;
     sumB := Double.add (sumB s) b;
     sumAB := Double.add (sumAB s) (Double.mul a b);
     sumA2 := Double.add (sumA2 s) (Double.mul a a);
     sumB2 := Double.add (sumB2 s) (Double.mul b b) |}.

(** [pearsonCorr(arrA, arrB, start, end)] as a number. *)
Definition correlation (arrA arrB : list Q) (start end_ : nat) : Double.double :=
  let n := (Z.of_nat end_ - Z.of_nat start)%Z in
  if (n <? Z.of_nat MIN_WINDOW)%Z then Double.ofZ 0
  else
    let s := foldl (accumulate arrA arrB)
               {| sumA := Double.ofZ 0; sumB := Double.ofZ 0;
                  sumAB := Double.ofZ 0; sumA2 := Double.ofZ 0;
                  sumB2 := Double.ofZ 0 |}
               (seq start (end_ - start)) in
    let meanA := Double.div (sumA s) (Double.ofZ n) in
    let meanB := Double.div (sumB s) (Double.ofZ n) in
    let varA := Double.sub (Double.div (sumA2 s) (Double.ofZ n))
                           (Double.mul meanA meanA) in
    let varB := Double.sub (Double.div (sumB2 s) (Double.ofZ n))
                           (Double.mul meanB meanB) in
    if Double.lt varA (Double.ofQ (1 # 1000000000000))
       || Double.lt varB (Double.ofQ (1 # 1000000000000))
    then Double.ofZ 0
    else
      let cov := Double.sub (Double.div (sumAB s) (Double.ofZ n))
                            (Double.mul meanA meanB) in
      let r := Double.div cov (Double.sqrt (Double.mul varA varB)) in
      if Double.isNaN r then Double.ofZ 0
      else Double.max (Double.ofZ (-1)) (Double.min (Double.ofZ 1) r).

(** [pearsonCorr]: the result is finite ([correlation_finite]), and read
    as the rational it denotes. *)
Definition pearsonCorr (arrA arrB : list Q) (start end_ : nat) : Q :=
  valueOf (correlation arrA arrB start end_).

(** The double loop of [computePrismGrid], with the correlation function
    as a parameter. *)
Definition gridCells (pearsonCorr : list Q → list Q → nat → nat → Q)
    (rA rB : list Q) (T : nat) : list Cell :=
  e ← seq MIN_WINDOW (T - MIN_WINDOW);
  (λ w, {| e := e; w := w;
           value := round4 (pearsonCorr rA rB (e - w) e) |})
    <$> seq MIN_WINDOW (S e - MIN_WINDOW).

(** A year of [returnsData.years]: the number of trading days and the
    return series, one per ticker ([null] where missing). *)
Record YearData : Type := {
  T : nat;
  returns : list (option (list Q));
}.

Record PrismResult : Type := {
  resultT : nat;
  cells : list Cell;
  validCells : nat;
}.

(** [computePrismGrid]: [None] when the call gives no grid.  It returns
    [null] when the year, a ticker or a return series is missing; a name
    inherited from [Object.prototype] in place of a ticker is no position
    of [returns], and in place of the year it has no [returns] to read, so
    that no grid comes of these calls either. *)
Definition computePrismGrid (pearsonCorr : list Q → list Q → nat → nat → Q)
    (returnsData : option (gmap string YearData))
    (tickerIndex : gmap string nat) (tickerA tickerB yearStr : string)
  : option PrismResult :=
  years ← returnsData;
  yearData ← years !! yearStr;
  idxA ← tickerIndex !! tickerA;
  idxB ← tickerIndex !! tickerB;
  rA ← mjoin (returns yearData !! idxA);
  rB ← mjoin (returns yearData !! idxB);
  let cells := gridCells pearsonCorr rA rB (T yearData) in
  Some {| resultT := T yearData; cells := cells; validCells := length cells |}.

(** [dense[w] && dense[w][e]], kept when neither [null] nor [undefined]. *)
Definition denseValue (dense : list (option (list (option Q)))) (w e : nat)
  : option Q :=
  row ← mjoin (dense !! w); mjoin (row !! e).

(** The double loop of [loadAndRender] in [prism.js] and of
    [PrismMulti.render] over a precomputed grid. *)
Definition denseCells (T minW : nat) (dense : list (option (list (option Q))))
  : list Cell :=
  w ← seq minW (T - minW);
  omap (λ e, (λ v, {| e := e; w := w; value := v |}) <$> denseValue dense w e)
       (seq w (T - w)).

(** The cell size of [renderPrism] and [PrismMulti.render]
    ([options.maxWidth || 380], at most 3). *)
Definition cellSize (maxWidth : option nat) (T : nat) : nat :=
  MatrixView.cellSizeFor 3
    (match maxWidth with Some 0 | None => 380 | Some w => w end) T.

End PrismGrid.

(** ** Vocabulary of the statements about [combined.js] *)

Section CombinedSpec.
Import Combined.

(** The characters of a string. *)
Definition chars (s : string) : list Ascii.ascii := String.list_ascii_of_string s.

(** A lower-case letter [a]..[z]. *)
Definition lowerCase (a : Ascii.ascii) : Prop :=
  97 ≤ Ascii.nat_of_ascii a ≤ 122.

(** Text of 7-bit characters, on which [\\s], [trim] and [toUpperCase]
    act as modelled. *)
Definition asciiText (s : string) : Prop :=
  Forall (λ a, Ascii.nat_of_ascii a < 128) (chars s).

(** A non-empty identifier without separators or lower-case letters. *)
Definition cleanTicker (t : string) : Prop :=
  t ≠ EmptyString ∧
  Forall (λ a, isSeparator a = false ∧ ¬ lowerCase a) (chars t).

(** A run of separators, possibly empty. *)
Definition blank (s : string) : Prop :=
  Forall (λ a, isSeparator a = true) (chars s).
End CombinedSpec.

(** ** Vocabulary of the statements about the matrix view *)

Section MatrixSpec.
Import MatrixView.

(** [m[a][b]] of a sub-matrix: [None] outside the matrix, [Some None]
    for an [undefined] entry. *)
Definition cell (m : list (list (option Q))) (a b : nat) : option (option Q) :=
  row ← m !! a; row !! b.

(** The list shown when the tickers unknown to the data are replaced by
    [first]. *)
Definition knownOr (c : CorrData) (first : string) (subsetTickers : list string)
  : list string :=
  map (λ t, if bool_decide (t ∈ tickers c) then t else first) subsetTickers.
End MatrixSpec.

(** ** Vocabulary of the statements about the prism grids *)

Section PrismSpec.
Import PrismGrid.

(** Where a cell is drawn: end day and window. *)
Definition position (c : Cell) : nat * nat := (e c, w c).

(** A precomputed grid with a value for every window from [minW] and every
    end day from the window to [T - 1]. *)
Definition fullGrid (T minW : nat) (dense : list (option (list (option Q)))) : Prop :=
  ∀ w e, minW ≤ w → w ≤ e → e < T → is_Some (denseValue dense w e).

(** A precomputed grid of 7 days. *)
Definition demoGrid : list (option (list (option Q))) :=
  [ None; None; None; None; None;
    Some [None; None; None; None; None; Some (1 # 2); Some (1 # 4)];
    Some [None; None; None; None; None; None; Some (3 # 4)] ]%Q.
End PrismSpec.

(** ** Vocabulary of the statements about the distribution plot *)

Section HistogramSpec.
Import NetworkViewRender.

(** [(v + 1) / 2 * nBins], the number that [binIndex] floors and clamps. *)
Definition scaled (v : Q) : Double.double :=
  Double.mul
    (Double.div (Double.add (Double.exact v) (Double.ofZ 1)) (Double.ofZ 2))
    (Double.ofZ (Z.of_nat nBins)).




(** The value is defined and falls into bin [b]. *)
Definition inBin (b : nat) (v : option Q) : bool :=
  match v with
  | Some x => bool_decide (Z.to_nat (binIndex x) = b)
  | None => false
  end.
End HistogramSpec.

(** ** Vocabulary of the statements about the knowledge view *)

Section KnowledgeSpec.
Import KnowledgeView.

(** The tickers drawn as nodes, layer by layer. *)
Definition nodesOf (layers : list Layer) : list string :=
  layer ← layers; item ← items layer; itemTickers item.

(** Metadata of three companies. *)
Definition demoMeta : list (string * Meta) :=
  [ ("AAPL", {| sector := "Tech"; subIndustry := "Hardware"; hqState := "CA" |});
    ("JPM", {| sector := "Financials"; subIndustry := "Banks"; hqState := "NY" |});
    ("MSFT", {| sector := "Tech"; subIndustry := "Software"; hqState := "WA" |}) ].
End KnowledgeSpec.

(** * Properties *)

(** ** Sorting *)

Section SortFacts.
Context {A : Type} (le : A → A → bool).

Lemma insert_sorted_perm x l : insert_sorted le x l ≡ₚ x :: l.
Proof.
  induction l as [|y l IH]; simpl; [done|].
  destruct (le x y); [done|]. rewrite IH. apply Permutation_swap.
Qed.

Lemma jsSort_perm l : jsSort le l ≡ₚ l.
Proof.
  induction l as [|x l IH]; simpl; [done|].
  rewrite insert_sorted_perm. by f_equiv.
Qed.

Lemma jsSort_length l : length (jsSort le l) = length l.
Proof. by rewrite jsSort_perm. Qed.

Lemma jsSort_elem x l : x ∈ jsSort le l ↔ x ∈ l.
Proof. by rewrite jsSort_perm. Qed.

Hypothesis le_total : ∀ a b, le a b = true ∨ le b a = true.
Hypothesis le_trans : ∀ a b c, le a b = true → le b c = true → le a c = true.

Lemma insert_sorted_sorted x l :
  StronglySorted (λ a b, le a b = true) l →
  StronglySorted (λ a b, le a b = true) (insert_sorted le x l).
Proof.
  induction 1 as [|y l Hs IH Hall]; simpl.
  - repeat constructor.
  - destruct (le x y) eqn:Hxy.
    + constructor; [by constructor|]. constructor; [done|].
      eapply Forall_impl; [exact Hall|]. intros z Hz. by eapply le_trans.
    + constructor; [done|].
      rewrite insert_sorted_perm. constructor; [|done].
      destruct (le_total x y); congruence.
Qed.

Lemma jsSort_sorted l : StronglySorted (λ a b, le a b = true) (jsSort le l).
Proof.
  induction l as [|x l IH]; simpl; [constructor|].
  by apply insert_sorted_sorted.
Qed.
End SortFacts.

Section BeforeFacts.
Context {A : Type}.
Implicit Types l : list A.

Lemma before_cons y l a b :
  before (y :: l) a b ↔ (a = y ∧ b ∈ l) ∨ before l a b.
Proof.
  split.
  - intros ([|z l1] & l2 & l3 & Heq); simplify_eq/=.
    + left. split; [done|]. set_solver.
    + right. by exists l1, l2, l3.
  - intros [[-> Hb]|(l1 & l2 & l3 & ->)].
    + apply list_elem_of_split in Hb as (l2 & l3 & ->). by exists [], l2, l3.
    + by exists (y :: l1), l2, l3.
Qed.

Lemma before_nil a b : ¬ before (@nil A) a b.
Proof. intros ([|??] & ? & ? & ?); simplify_eq/=. Qed.

Lemma before_elem_l l a b : before l a b → a ∈ l.
Proof. intros (l1 & l2 & l3 & ->). set_solver. Qed.

Lemma before_elem_r l a b : before l a b → b ∈ l.
Proof. intros (l1 & l2 & l3 & ->). set_solver. Qed.

Lemma before_lookup l i j a b :
  l !! i = Some a → l !! j = Some b → i < j → before l a b.
Proof.
  revert i j. induction l as [|y l IH]; intros i j Hi Hj Hlt; [done|].
  apply before_cons. destruct i as [|i]; simplify_eq/=.
  - left. split; [done|]. destruct j as [|j]; [lia|]. simpl in Hj.
    by eapply list_elem_of_lookup_2.
  - right. destruct j as [|j]; [lia|]. simpl in Hj.
    eapply (IH i j); [done..|lia].
Qed.

Lemma before_app_l l l' a b : before l a b → before (l ++ l') a b.
Proof.
  intros (l1 & l2 & l3 & ->). exists l1, l2, (l3 ++ l').
  by rewrite <-!app_assoc, <-!app_comm_cons, <-app_assoc.
Qed.

Lemma before_snoc l x a b :
  before (l ++ [x]) a b ↔ before l a b ∨ (a ∈ l ∧ b = x).
Proof.
  induction l as [|y l IH]; simpl.
  - split.
    + intros H. apply before_cons in H as [[_ H]|H]; [set_solver|].
      by apply before_nil in H.
    + intros [H|[H _]]; [by apply before_nil in H|set_solver].
  - rewrite !before_cons, IH, elem_of_app, !elem_of_cons, elem_of_nil.
    intuition congruence.
Qed.

Lemma StronglySorted_before (R : A → A → Prop) l a b :
  StronglySorted R l → before l a b → R a b.
Proof.
  induction 1 as [|y l Hs IH Hall]; intros Hb; [by apply before_nil in Hb|].
  apply before_cons in Hb as [[-> Hb]|Hb]; [|by apply IH].
  rewrite Forall_forall in Hall. by apply Hall.
Qed.

Lemma StronglySorted_mono (R R' : A → A → Prop) l :
  (∀ a b, R a b → R' a b) → StronglySorted R l → StronglySorted R' l.
Proof.
  intros HR. induction 1 as [|y l Hs IH Hall]; constructor; [done|].
  eapply Forall_impl; [exact Hall|]. auto.
Qed.

(** Stability: elements the comparator ties keep their relative order. *)
Lemma insert_sorted_before (le : A → A → bool) x l a b :
  before (insert_sorted le x l) a b →
  before l a b ∨ (a = x ∧ b ∈ l) ∨ (b = x ∧ a ∈ l ∧ le x a = false).
Proof.
  induction l as [|y l IH]; simpl.
  - intros H. apply before_cons in H as [[_ H]|H]; [set_solver|].
    by apply before_nil in H.
  - destruct (le x y) eqn:Hxy.
    + intros H. apply before_cons in H as [[-> H]|H]; auto.
    + intros H. apply before_cons in H as [[-> H]|H].
      * rewrite insert_sorted_perm in H.
        apply elem_of_cons in H as [->|H].
        -- right; right. set_solver.
        -- left. apply before_cons. auto.
      * destruct (IH H) as [H'|[[-> H']|(-> & H' & Hle)]].
        -- left. apply before_cons. auto.
        -- right; left. set_solver.
        -- right; right. set_solver.
Qed.

Lemma jsSort_stable (le : A → A → bool) l a b :
  before (jsSort le l) a b → le b a = true → before l a b.
Proof.
  revert a b. induction l as [|x l IH]; intros a b; simpl.
  - intros H. by apply before_nil in H.
  - intros H Hle. apply before_cons.
    apply insert_sorted_before in H as [H|[[-> H]|(-> & H & Hx)]].
    + right. by apply IH.
    + left. split; [done|]. by apply jsSort_elem in H.
    + congruence.
Qed.
End BeforeFacts.

(** ** JavaScript numbers *)

Section DoubleFacts.
Import Double.


Lemma Qltb_lt a b : Qltb a b = true ↔ (a < b)%Q.
Proof.
  unfold Qltb. rewrite negb_true_iff, <-not_true_iff_false, Qle_bool_iff.
  split; [apply Qnot_le_lt|apply Qlt_not_le].
Qed.

Lemma Qltb_ge a b : Qltb a b = false ↔ (b <= a)%Q.
Proof. unfold Qltb. by rewrite negb_false_iff, Qle_bool_iff. Qed.

Lemma pow2_pos e : (0 < 2 ^ e)%Q.
Proof. by apply Qpower_0_lt. Qed.

Lemma pow2_plus a b : (2 ^ (a + b) == 2 ^ a * 2 ^ b)%Q.
Proof. by apply Qpower_plus. Qed.

Lemma pow2_minus a b : (2 ^ (a - b) == 2 ^ a / 2 ^ b)%Q.
Proof. by apply Qpower_minus. Qed.

Lemma pow2_le a b : (a ≤ b)%Z → (2 ^ a <= 2 ^ b)%Q.
Proof. intros. by apply Qpower_le_compat_l. Qed.

Lemma pow2_le_inv a b : (2 ^ a <= 2 ^ b)%Q → (a ≤ b)%Z.
Proof. intros. by apply (Qpower_le_compat_l_inv 2). Qed.

Lemma pow2_Z a : (0 ≤ a)%Z → (2 ^ a == inject_Z (2 ^ a))%Q.
Proof. intros. symmetry. by apply (Zpower_Qpower 2). Qed.

Lemma roundEven_error x :
  (inject_Z (roundEven x) - (1 # 2) <= x)%Q ∧ (x <= inject_Z (roundEven x) + (1 # 2))%Q.
Proof.
  unfold roundEven.
  pose proof (Qfloor_le x) as Hlo. pose proof (Qlt_floor x) as Hhi.
  rewrite inject_Z_plus in Hhi. change (inject_Z 1) with 1%Q in Hhi.
  destruct (Qcompare_spec (x - inject_Z (Qfloor x)) (1 # 2)) as [H|H|H];
    [destruct (Z.even (Qfloor x))|..]; rewrite ?inject_Z_plus;
    change (inject_Z 1) with 1%Q; split; lra.
Qed.

Lemma roundEven_nonneg x : (0 <= x)%Q → (0 ≤ roundEven x)%Z.
Proof.
  intros Hx. assert (0 ≤ Qfloor x)%Z as Hf.
  { change 0%Z with (Qfloor 0). by apply Qfloor_resp_le. }
  unfold roundEven. destruct (_ ?= _)%Q; [destruct (Z.even _)|..]; lia.
Qed.

Lemma ratio_bounds (q : Q) :
  (0 < q)%Q →
  let k := (Z.log2 (Qnum q) - Z.log2 (Z.pos (Qden q)))%Z in
  (2 ^ (k - 1) <= q)%Q ∧ (q < 2 ^ (k + 1))%Q.
Proof.
  intros Hq k. destruct q as [p d]. unfold k.
  change (Qnum (p # d)) with p. change (Qden (p # d)) with d.
  assert (0 < p)%Z as Hp.
  { unfold Qlt in Hq. simpl in Hq. lia. }
  destruct (Z.log2_spec p Hp) as [Hpa Hpb].
  destruct (Z.log2_spec (Z.pos d) ltac:(done)) as [Hda Hdb].
  pose proof (Z.log2_nonneg p) as Ha. pose proof (Z.log2_nonneg (Z.pos d)) as Hb.
  set (a := Z.log2 p) in *. set (b := Z.log2 (Z.pos d)) in *.
  replace (a - b - 1)%Z with (a - Z.succ b)%Z by lia.
  replace (a - b + 1)%Z with (Z.succ a - b)%Z by lia.
  rewrite !pow2_minus, !pow2_Z by lia.
  rewrite (Qmake_Qdiv p d).
  assert (0 < inject_Z (Z.pos d))%Q as Hd0 by (by rewrite <-(Zlt_Qlt 0)).
  assert (0 < inject_Z (2 ^ Z.succ b))%Q as Hb0 by (rewrite <-(Zlt_Qlt 0); lia).
  assert (0 < inject_Z (2 ^ b))%Q as Hb1 by (rewrite <-(Zlt_Qlt 0); lia).
  split.
  - apply Qle_shift_div_l; [done|].
    assert (E : (inject_Z (2 ^ a) / inject_Z (2 ^ Z.succ b) * inject_Z (Z.pos d)
                 == inject_Z (2 ^ a) * inject_Z (Z.pos d) / inject_Z (2 ^ Z.succ b))%Q).
    { field. intros E. rewrite E in Hb0. by apply Qlt_irrefl in Hb0. }
    rewrite E. apply Qle_shift_div_r; [done|].
    rewrite <-!inject_Z_mult, <-Zle_Qle. nia.
  - apply Qlt_shift_div_r; [done|].
    assert (E : (inject_Z (2 ^ Z.succ a) / inject_Z (2 ^ b) * inject_Z (Z.pos d)
                 == inject_Z (2 ^ Z.succ a) * inject_Z (Z.pos d) / inject_Z (2 ^ b))%Q).
    { field. intros E. rewrite E in Hb1. by apply Qlt_irrefl in Hb1. }
    rewrite E. apply Qlt_shift_div_l; [done|].
    rewrite <-!inject_Z_mult, <-Zlt_Qlt. nia.
Qed.

Lemma ilog2_bounds q :
  (0 < q)%Q → (2 ^ ilog2 q <= q)%Q ∧ (q < 2 ^ (ilog2 q + 1))%Q.
Proof.
  intros Hq. destruct (ratio_bounds q Hq) as [Hlo Hhi]. unfold ilog2.
  set (k := (Z.log2 (Qnum q) - Z.log2 (Z.pos (Qden q)))%Z) in *.
  destruct (Qle_bool (2 ^ k) q) eqn:Ht.
  - apply Qle_bool_iff in Ht. done.
  - replace (k - 1 + 1)%Z with k by lia. split; [done|].
    apply Qnot_le_lt. intros H. apply Qle_bool_iff in H. congruence.
Qed.

Lemma ilog2_le q k : (0 < q)%Q → (q <= 2 ^ k)%Q → (ilog2 q ≤ k)%Z.
Proof.
  intros Hq Hk. apply pow2_le_inv.
  eapply Qle_trans; [apply ilog2_bounds|]; done.
Qed.

Lemma ilog2_ge q k : (0 < q)%Q → (2 ^ k <= q)%Q → (k ≤ ilog2 q)%Z.
Proof.
  intros Hq Hk. destruct (ilog2_bounds q Hq) as [_ Hhi].
  assert (2 ^ k < 2 ^ (ilog2 q + 1))%Q as Hlt by (by eapply Qle_lt_trans).
  apply Qpower_lt_compat_l_inv in Hlt; [lia|done].
Qed.

Lemma pow2_half e : (2 ^ (e - 1) == 2 ^ e * (1 # 2))%Q.
Proof. rewrite pow2_minus. change (2 ^ 1)%Q with 2%Q. field. Qed.

(** The rounded value of a positive rational lies within half a unit in the
    last place of it. *)
Lemma roundPositive_spec q :
  (0 < q)%Q →
  match roundPositive q with
  | Some r => (0 <= r)%Q ∧ (r - 2 ^ (ulpExp q - 1) <= q)%Q ∧
              (q <= r + 2 ^ (ulpExp q - 1))%Q ∧ (r < 2 ^ 1024)%Q
  | None => (2 ^ 1024 <= q + 2 ^ (ulpExp q - 1))%Q
  end.
Proof.
  intros Hq. unfold roundPositive.
  set (e := ulpExp q). set (m := roundEven (q / 2 ^ e)).
  pose proof (pow2_pos e) as He.
  assert (Hx : (0 <= q / 2 ^ e)%Q).
  { apply Qle_shift_div_l; [done|]. lra. }
  pose proof (roundEven_nonneg _ Hx) as Hm. fold m in Hm.
  rewrite Zle_Qle in Hm. change (inject_Z 0) with 0%Q in Hm.
  destruct (roundEven_error (q / 2 ^ e)) as [Hlo Hhi]. fold m in Hlo, Hhi.
  pose proof (pow2_half e) as Hh.
  assert (Hq' : (q / 2 ^ e * 2 ^ e == q)%Q) by (field; lra).
  set (E := (2 ^ e)%Q) in *. set (x := (q / E)%Q) in *.
  set (h := (2 ^ (e - 1))%Q) in *.
  assert (Hlo' : (inject_Z m * E - h <= q)%Q) by nra.
  assert (Hhi' : (q <= inject_Z m * E + h)%Q) by nra.
  destruct (Qle_bool _ _) eqn:Ht.
  - apply Qle_bool_iff in Ht. lra.
  - rewrite Qred_correct. split_and!; [|done..|].
    + apply Qmult_le_0_compat; lra.
    + apply Qnot_le_lt. intros H. apply Qle_bool_iff in H. congruence.
Qed.

Lemma signed_false q : signed false q = q.
Proof. done. Qed.

(** Rounding a positive rational: the sign is kept, and the result is a zero
    only below the least positive double. *)
Lemma round_positive q :
  (0 < q)%Q →
  match round q with
  | Finite r => (0 < r)%Q ∧ (r - 2 ^ (ulpExp q - 1) <= q)%Q ∧
                (q <= r + 2 ^ (ulpExp q - 1))%Q ∧ (r < 2 ^ 1024)%Q
  | Zero s => s = false ∧ (q <= 2 ^ (ulpExp q - 1))%Q
  | Infinity s => s = false ∧ (2 ^ 1024 <= q + 2 ^ (ulpExp q - 1))%Q
  | NaN => False
  end.
Proof.
  intros Hq. unfold round.
  assert (Hs : Qltb q 0 = false) by (apply Qltb_ge; lra).
  assert (Ha : Qabs q = q).
  { destruct q as [p d]. unfold Qabs. f_equal. unfold Qlt in Hq. simpl in Hq. lia. }
  rewrite Hs, Ha. pose proof (roundPositive_spec q Hq) as H.
  destruct (roundPositive q) as [r|]; [|done].
  destruct H as (H0 & Hlo & Hhi & Hmax).
  destruct (Qeq_bool r 0) eqn:Hz.
  - apply Qeq_bool_iff in Hz. split; [done|]. lra.
  - apply Qeq_bool_neq in Hz. rewrite signed_false. split_and!; [|done..]. lra.
Qed.

Lemma Qabs_opp_eq q : Qabs (- q) = Qabs q.
Proof. destruct q as [p d]. unfold Qabs, Qopp. simpl. by rewrite Z.abs_opp. Qed.

Lemma round_opp q : ¬ (q == 0)%Q → round (- q) = neg (round q).
Proof.
  intros Hq. unfold round. rewrite Qabs_opp_eq.
  assert (Hs : Qltb (- q) 0 = negb (Qltb q 0)).
  { destruct (Qltb q 0) eqn:H.
    - apply Qltb_lt in H. apply Qltb_ge. lra.
    - apply Qltb_ge in H. apply Qltb_lt. lra. }
  rewrite Hs. destruct (roundPositive (Qabs q)) as [r|]; [|done].
  destruct (Qeq_bool r 0); [done|]. simpl.
  destruct (Qltb q 0); simpl; [|done].
  f_equal. destruct r as [p d]. unfold Qopp. simpl. by rewrite Z.opp_involutive.
Qed.

(** Within the normal range the relative error of rounding is at most
    2^-53. *)
Lemma round_relative q :
  (2 ^ (-1022) <= q)%Q → (q <= 2 ^ 1023)%Q →
  ∃ r, round q = Finite r ∧
       (q * (1 - 2 ^ (-53)) <= r)%Q ∧ (r <= q * (1 + 2 ^ (-53)))%Q.
Proof.
  intros Hlo Hhi.
  assert (Hq : (0 < q)%Q).
  { eapply Qlt_le_trans; [apply (pow2_pos (-1022))|done]. }
  pose proof (ilog2_ge q _ Hq Hlo) as Hl.
  destruct (ilog2_bounds q Hq) as [Hb _].
  assert (He : ulpExp q = (ilog2 q - 52)%Z) by (unfold ulpExp; lia).
  assert (Hu : (2 ^ (ulpExp q - 1) <= q * 2 ^ (-53))%Q).
  { rewrite He. replace (ilog2 q - 52 - 1)%Z with (ilog2 q + -53)%Z by lia.
    rewrite pow2_plus. apply Qmult_le_compat_r; [done|].
    apply Qlt_le_weak, pow2_pos. }
  assert (H53 : (0 < 2 ^ (-53))%Q ∧ (2 ^ (-53) < 1 # 2)%Q).
  { split; [apply pow2_pos|]. by vm_compute. }
  assert (H24 : (2 ^ 1024 == 2 * 2 ^ 1023)%Q).
  { change 1024%Z with (1 + 1023)%Z. rewrite pow2_plus. done. }
  pose proof (round_positive q Hq) as H.
  destruct (round q) as [|s|s|r].
  - done.
  - destruct H as [_ H]. exfalso. nra.
  - destruct H as [_ H]. exfalso. nra.
  - exists r. split; [done|]. destruct H as (_ & H1 & H2 & _). split; nra.
Qed.

(** Up to 2^k the absolute error of rounding is at most 2^(k-53). *)
Lemma round_absolute q k :
  (0 < q)%Q → (q <= 2 ^ k)%Q → (-1022 ≤ k ≤ 1022)%Z →
  ∃ x, toQ (round q) = Some x ∧ (0 <= x)%Q ∧
       (x - 2 ^ (k - 53) <= q)%Q ∧ (q <= x + 2 ^ (k - 53))%Q.
Proof.
  intros Hq Hk Hr.
  pose proof (ilog2_le q k Hq Hk) as Hl.
  assert (Hu : (2 ^ (ulpExp q - 1) <= 2 ^ (k - 53))%Q).
  { apply pow2_le. unfold ulpExp. lia. }
  assert (Hk' : (2 ^ k <= 2 ^ 1022)%Q) by (apply pow2_le; lia).
  assert (Hk'' : (2 ^ (k - 53) <= 2 ^ 1022)%Q) by (apply pow2_le; lia).
  assert (H24 : (2 ^ 1024 == 4 * 2 ^ 1022)%Q).
  { change 1024%Z with (2 + 1022)%Z. rewrite pow2_plus. done. }
  pose proof (pow2_pos (k - 53)) as Hp.
  pose proof (round_positive q Hq) as H.
  destruct (round q) as [|s|s|r]; simpl.
  - done.
  - destruct H as [_ H]. exfalso. lra.
  - destruct H as [_ H]. exists 0%Q. split; [done|]. split; lra.
  - destruct H as (H0 & H1 & H2 & _). exists r. split; [done|]. split; lra.
Qed.

Lemma pow2_52 : (2 ^ (-52) == 2 * 2 ^ (-53))%Q.
Proof. by vm_compute. Qed.

(** The same, as agreement up to a factor. *)
Lemma round_within q :
  (2 ^ (-1022) <= q)%Q → (q <= 2 ^ 1023)%Q →
  ∃ r, round q = Finite r ∧ within (1 + 2 ^ (-52)) r q.
Proof.
  intros Hlo Hhi. destruct (round_relative q Hlo Hhi) as (r & Hr & H1 & H2).
  assert (Hq : (0 < q)%Q).
  { eapply Qlt_le_trans; [apply (pow2_pos (-1022))|done]. }
  exists r. split; [done|]. unfold within. rewrite pow2_52.
  assert (Hu : (0 < 2 ^ (-53))%Q ∧ (2 ^ (-53) < 1 # 4)%Q).
  { split; [apply pow2_pos|by vm_compute]. }
  set (u := (2 ^ (-53))%Q) in *. split_and!; [nra|done|nra|nra].
Qed.

Lemma within_div c x y n :
  within c x y → (0 < n)%Q → within c (x / n) (y / n).
Proof.
  intros (Hx & Hy & H1 & H2) Hn. unfold within, Qdiv.
  pose proof (Qinv_lt_0_compat n Hn) as Hi. set (i := (/ n)%Q) in *.
  split_and!; nra.
Qed.

Lemma within_inv c x y a :
  within c x y → (0 < a)%Q → within c (a / x) (a / y).
Proof.
  intros (Hx & Hy & H1 & H2) Ha.
  assert (Hix : (x * / x == 1)%Q) by (field; lra).
  assert (Hiy : (y * / y == 1)%Q) by (field; lra).
  pose proof (Qinv_lt_0_compat x Hx) as Hpx.
  pose proof (Qinv_lt_0_compat y Hy) as Hpy.
  unfold within, Qdiv. set (ix := (/ x)%Q) in *. set (iy := (/ y)%Q) in *.
  assert (H3 : (ix <= iy * c)%Q).
  { assert (E : (ix == y * (ix * iy))%Q).
    { transitivity (ix * (y * iy))%Q; [rewrite Hiy|]; ring. }
    assert (E' : (iy * c == x * c * (ix * iy))%Q).
    { transitivity (iy * c * (x * ix))%Q; [rewrite Hix|]; ring. }
    rewrite E, E'. apply Qmult_le_compat_r; [done|]. nra. }
  assert (H4 : (iy <= ix * c)%Q).
  { assert (E : (iy == x * (ix * iy))%Q).
    { transitivity (iy * (x * ix))%Q; [rewrite Hix|]; ring. }
    assert (E' : (ix * c == y * c * (ix * iy))%Q).
    { transitivity (ix * c * (y * iy))%Q; [rewrite Hiy|]; ring. }
    rewrite E, E'. apply Qmult_le_compat_r; [done|]. nra. }
  split_and!; nra.
Qed.

Lemma within_trans c c' x y z :
  (1 <= c)%Q → (1 <= c')%Q →
  within c x y → within c' y z → within (c * c') x z.
Proof.
  intros Hc Hc' (Hx & Hy & H1 & H2) (_ & Hz & H3 & H4).
  unfold within. split_and!; [done..| |]; nra.
Qed.

Lemma within_Qeq c x y y' : (y == y')%Q → within c x y → within c x y'.
Proof. intros E (Hx & Hy & H1 & H2). unfold within. rewrite <-E. done. Qed.

Lemma exact_nonzero q : ¬ (q == 0)%Q → exact q = Finite q.
Proof.
  intros Hq. unfold exact. destruct (Qeq_bool q 0) eqn:H; [|done].
  by apply Qeq_bool_iff in H.
Qed.

Lemma exact_zero q : (q == 0)%Q → exact q = Zero false.
Proof. intros Hq. unfold exact. by rewrite (proj2 (Qeq_bool_iff _ _) Hq). Qed.

Lemma ofZ_nonzero z : z ≠ 0%Z → ofZ z = Finite (inject_Z z).
Proof.
  intros Hz. apply exact_nonzero. intros E. apply Hz.
  unfold Qeq in E. simpl in E. lia.
Qed.

(** [last - first] of two clock readings that differ. *)
Lemma sub_exact (last first : Q) :
  ¬ (last - first == 0)%Q →
  ∃ d, sub (exact last) (exact first) = d ∧
       (d = round (last - first) ∨
        ∃ q, d = Finite q ∧ (q == last - first)%Q).
Proof.
  intros Hd. unfold sub, exact.
  destruct (Qeq_bool last 0) eqn:Hl; destruct (Qeq_bool first 0) eqn:Hf; simpl.
  - exfalso. apply Qeq_bool_iff in Hl, Hf. apply Hd. rewrite Hl, Hf. ring.
  - eexists. split; [done|]. right. eexists. split; [done|].
    apply Qeq_bool_iff in Hl. rewrite Hl. ring.
  - eexists. split; [done|]. right. eexists. split; [done|].
    apply Qeq_bool_iff in Hf. rewrite Hf. ring.
  - eexists. split; [done|]. left.
    change (last + - first)%Q with (last - first)%Q.
    destruct (Qeq_bool (last - first) 0) eqn:Hz; [|done].
    by apply Qeq_bool_iff in Hz.
Qed.





Lemma roundEven_le_int x (n : Z) : (x <= inject_Z n)%Q → (roundEven x ≤ n)%Z.
Proof.
  intros Hx. pose proof (Qfloor_le x) as Hf.
  assert (Hfn : (Qfloor x ≤ n)%Z) by (rewrite Zle_Qle; lra).
  unfold roundEven.
  destruct (Qcompare_spec (x - inject_Z (Qfloor x)) (1 # 2)) as [H|H|H];
    [|done|].
  - destruct (Z.eq_dec (Qfloor x) n) as [E|Hne]; [rewrite E in H; lra|].
    destruct (Z.even _); lia.
  - destruct (Z.eq_dec (Qfloor x) n) as [E|Hne]; [rewrite E in H; lra|lia].
Qed.

(** Rounding does not cross an integer below 2^52. *)
Lemma roundPositive_le q (n : Z) :
  (0 < q)%Q → (q <= inject_Z n)%Q → (n ≤ 2 ^ 52)%Z →
  ∃ r, roundPositive q = Some r ∧ (0 <= r)%Q ∧ (r <= inject_Z n)%Q.
Proof.
  intros Hq Hn H52.
  assert (Hq52 : (q <= 2 ^ 52)%Q).
  { rewrite pow2_Z by lia. eapply Qle_trans; [exact Hn|]. by rewrite <-Zle_Qle. }
  pose proof (ilog2_le q 52 Hq Hq52) as Hl.
  unfold roundPositive.
  assert (He : (ulpExp q ≤ 0)%Z) by (unfold ulpExp; lia).
  set (e := ulpExp q) in *.
  pose proof (pow2_pos e) as Hpe.
  assert (Hinv : (2 ^ (- e) * 2 ^ e == 1)%Q).
  { rewrite <-pow2_plus. by replace (- e + e)%Z with 0%Z by lia. }
  assert (HN : (inject_Z (n * 2 ^ (- e)) == inject_Z n * 2 ^ (- e))%Q).
  { rewrite inject_Z_mult, pow2_Z by lia. done. }
  assert (Hx : (q / 2 ^ e <= inject_Z (n * 2 ^ (- e)))%Q).
  { rewrite HN. apply Qle_shift_div_r; [done|].
    set (E := (2 ^ e)%Q) in *. set (E' := (2 ^ (- e))%Q) in *.
    assert (Hn' : (inject_Z n * E' * E == inject_Z n)%Q).
    { transitivity (inject_Z n * (E' * E))%Q; [ring|]. rewrite Hinv. ring. }
    by rewrite Hn'. }
  pose proof (roundEven_le_int _ _ Hx) as Hm.
  assert (Hx0 : (0 <= q / 2 ^ e)%Q).
  { apply Qle_shift_div_l; [done|]. lra. }
  pose proof (roundEven_nonneg _ Hx0) as Hm0.
  set (m := roundEven (q / 2 ^ e)) in *.
  rewrite Zle_Qle in Hm, Hm0. change (inject_Z 0) with 0%Q in Hm0.
  rewrite HN in Hm.
  assert (Hr : (inject_Z m * 2 ^ e <= inject_Z n)%Q).
  { set (E := (2 ^ e)%Q) in *. set (E' := (2 ^ (- e))%Q) in *.
    assert (Hn' : (inject_Z n == inject_Z n * E' * E)%Q).
    { transitivity (inject_Z n * (E' * E))%Q; [rewrite Hinv|]; ring. }
    rewrite Hn'. apply Qmult_le_compat_r; [done|lra]. }
  assert (Hbig : (inject_Z n < 2 ^ 1024)%Q).
  { apply Qle_lt_trans with (2 ^ 52)%Q.
    - rewrite pow2_Z by lia. by rewrite <-Zle_Qle.
    - by apply Qpower_lt_compat_l. }
  destruct (Qle_bool _ _) eqn:Ht.
  - apply Qle_bool_iff in Ht. lra.
  - eexists. split; [done|]. rewrite Qred_correct. split; [|done].
    apply Qmult_le_0_compat; lra.
Qed.

Lemma round_bounded q (n : Z) :
  ¬ (q == 0)%Q → (- inject_Z n <= q)%Q → (q <= inject_Z n)%Q → (n ≤ 2 ^ 52)%Z →
  ∃ x, toQ (round q) = Some x ∧ (- inject_Z n <= x)%Q ∧ (x <= inject_Z n)%Q.
Proof.
  intros Hq Hlo Hhi Hn. unfold round.
  assert (Ha : (0 < Qabs q)%Q).
  { destruct (Qlt_le_dec q 0).
    - rewrite Qabs_neg; lra.
    - rewrite Qabs_pos; [|done]. destruct (Qeq_dec q 0); [done|lra]. }
  assert (Ha' : (Qabs q <= inject_Z n)%Q) by (by apply Qabs_Qle_condition).
  destruct (roundPositive_le (Qabs q) n Ha Ha' Hn) as (r & -> & H0 & H1).
  destruct (Qeq_bool r 0); simpl.
  - exists 0%Q. split; [done|]. split; lra.
  - eexists. split; [done|]. unfold signed. destruct (Qltb q 0); split; lra.
Qed.
End DoubleFacts.

(** ** Latency samplers *)

Section SamplerFacts.
Import Sampler.

Lemma next_spec clk r i latencies stamps :
  next clk r i latencies stamps =
  (latencies ++ map (λ i, ((clk i).2 - (clk i).1)%Q) (seq i r),
   stamps ++ map (λ i, (clk i).2) (seq i r)).
Proof.
  revert i latencies stamps. induction r as [|r IH]; intros i lat st; simpl.
  - by rewrite !app_nil_r.
  - destruct (clk i) as [t0 t1] eqn:Hc. rewrite IH. simpl.
    by rewrite <-!app_assoc.
Qed.

Lemma next_run clk k : next clk k 0 [] [] = (latenciesOf clk k, stampsOf clk k).
Proof. by rewrite next_spec. Qed.

Lemma numAscending_le a b : numAscending a b = true ↔ (a <= b)%Q.
Proof.
  unfold numAscending. rewrite Qle_bool_iff, <-(Qplus_le_l _ _ b).
  assert (E : (a - b + b == a)%Q) by ring.
  by rewrite E, Qplus_0_l.
Qed.

Lemma numAscending_total a b : numAscending a b = true ∨ numAscending b a = true.
Proof.
  rewrite !numAscending_le. destruct (Qlt_le_dec a b) as [H|H]; [|by right].
  left. by apply Qlt_le_weak.
Qed.

Lemma numAscending_trans a b c :
  numAscending a b = true → numAscending b c = true → numAscending a c = true.
Proof. rewrite !numAscending_le. apply Qle_trans. Qed.

Lemma sorted_ascending l : StronglySorted Qle (jsSort numAscending l).
Proof.
  eapply StronglySorted_mono;
    [|apply jsSort_sorted; [apply numAscending_total|apply numAscending_trans]].
  intros a b. by rewrite numAscending_le.
Qed.

Lemma floorIndex_half len : floorIndex len (1 # 2) = len / 2.
Proof.
  unfold floorIndex, Qfloor, Qmult, inject_Z, Qnum, Qden.
  rewrite Z.mul_1_r. change (Z.pos (1 * 2)) with (Z.of_nat 2).
  by rewrite <-Nat2Z.inj_div, Nat2Z.id.
Qed.

Lemma floorIndex_95 len : floorIndex len (95 # 100) = len * 95 / 100.
Proof.
  unfold floorIndex, Qfloor, Qmult, inject_Z, Qnum, Qden.
  change 95%Z with (Z.of_nat 95). change (Z.pos (1 * 100)) with (Z.of_nat 100).
  by rewrite <-Nat2Z.inj_mul, <-Nat2Z.inj_div, Nat2Z.id.
Qed.

Lemma percentiles_nearestRank latencies f :
  latencies ≠ [] →
  let sorted := jsSort numAscending latencies in
  nearestRank latencies
    {| p50 := sorted !! floorIndex (length sorted) (1 # 2)%Q;
       p95 := sorted !! floorIndex (length sorted) (95 # 100)%Q;
       fps := f |}.
Proof.
  intros Hne sorted. exists sorted. simpl.
  assert (Hlen : length sorted = length latencies) by apply jsSort_length.
  assert (0 < length latencies) by (destruct latencies; simpl; [done|lia]).
  rewrite floorIndex_half, floorIndex_95, Hlen.
  split_and!; [apply jsSort_perm|apply sorted_ascending| |done| |done].
  - apply lookup_lt_is_Some. rewrite Hlen. apply Nat.div_lt; lia.
  - apply lookup_lt_is_Some. rewrite Hlen.
    apply Nat.Div0.div_lt_upper_bound. lia.
Qed.

Lemma latenciesOf_length clk k : length (latenciesOf clk k) = k.
Proof. unfold latenciesOf. by rewrite length_map, length_seq. Qed.

Lemma stampsOf_length clk k : length (stampsOf clk k) = k.
Proof. unfold stampsOf. by rewrite length_map, length_seq. Qed.

Lemma latenciesOf_nonempty clk k : 0 < k → latenciesOf clk k ≠ [].
Proof.
  intros Hk Heq. apply (f_equal length) in Heq.
  rewrite latenciesOf_length in Heq. simpl in Heq. lia.
Qed.

Lemma Math_round_nearest q : nearestInteger q (Qfloor (q + (1 # 2))).
Proof.
  split.
  - apply Qplus_le_l with (z := (1 # 2)%Q).
    assert (E : (inject_Z (Qfloor (q + (1 # 2))) - (1 # 2) + (1 # 2)
                 == inject_Z (Qfloor (q + (1 # 2))))%Q) by ring.
    rewrite E. apply Qfloor_le.
  - apply Qplus_lt_l with (z := (1 # 2)%Q).
    assert (E : (inject_Z (Qfloor (q + (1 # 2))) + (1 # 2) + (1 # 2)
                 == inject_Z (Qfloor (q + (1 # 2)) + 1))%Q)
      by (rewrite inject_Z_plus; ring).
    rewrite E. apply Qlt_floor.
Qed.

Lemma roundHalfUp_finite x :
  ofDouble (Double.roundHalfUp (Double.Finite x))
  = Num (inject_Z (Qfloor (x + (1 # 2)))).
Proof.
  unfold Double.roundHalfUp, Double.integer.
  destruct (Z.eqb_spec (Qfloor (x + (1 # 2))) 0) as [->|]; done.
Qed.

Lemma fpsOf_formula stamps first last :
  1 < length stamps →
  stamps !! 0 = Some first → stamps !! (length stamps - 1) = Some last →
  fpsOf stamps = doubleFps first last (length stamps).
Proof.
  intros Hlen Hfirst Hlast. unfold fpsOf, doubleFps.
  rewrite bool_decide_eq_true_2 by done.
  by rewrite (nth_lookup_Some _ _ _ _ Hfirst), (nth_lookup_Some _ _ _ _ Hlast).
Qed.

Lemma count_positive count :
  1 < count →
  Double.ofZ (Z.of_nat count - 1) = Double.Finite (inject_Z (Z.of_nat count - 1)) ∧
  (1 <= inject_Z (Z.of_nat count - 1))%Q.
Proof.
  intros Hc. split; [apply ofZ_nonzero; lia|].
  rewrite <-(Zle_Qle 1). lia.
Qed.

(** Two frames with the same timestamp: [1000 / (0 / (count - 1))]. *)
Lemma doubleFps_coincide first last count :
  1 < count → (first == last)%Q →
  doubleFps first last count = Double.Infinity false.
Proof.
  intros Hc Heq. unfold doubleFps.
  destruct (count_positive count Hc) as [-> Hn].
  assert (Hsub : Double.sub (Double.exact last) (Double.exact first)
                 = Double.Zero false).
  { unfold Double.sub, Double.exact.
    destruct (Qeq_bool last 0) eqn:Hl.
    - apply Qeq_bool_iff in Hl.
      rewrite (proj2 (Qeq_bool_iff first 0)) by (by rewrite Heq). done.
    - destruct (Qeq_bool first 0) eqn:Hf.
      + apply Qeq_bool_iff in Hf. apply Qeq_bool_neq in Hl.
        exfalso. apply Hl. by rewrite <-Heq.
      + simpl. rewrite (proj2 (Qeq_bool_iff _ 0)); [done|]. rewrite Heq. ring. }
  rewrite Hsub. simpl.
  rewrite (proj2 (Qltb_ge _ _)) by lra. done.
Qed.

Lemma within_refl c x : (0 < x)%Q → (1 <= c)%Q → within c x x.
Proof. intros Hx Hc. unfold within. split_and!; [done..| |]; nra. Qed.

Lemma within_half c x y :
  within c x y → (c <= 2)%Q → (y * (1 # 2) <= x)%Q ∧ (x <= y * 2)%Q.
Proof. intros (Hx & Hy & H1 & H2) Hc. split; nra. Qed.

Lemma normal_range q :
  (1 # 10000000000000 <= q)%Q → (q <= 10000000000000)%Q →
  (2 ^ (-1022) <= q)%Q ∧ (q <= 2 ^ 1023)%Q.
Proof.
  intros Hlo Hhi. split.
  - apply Qle_trans with (2 ^ (-44))%Q; [by apply pow2_le|].
    eapply Qle_trans; [|exact Hlo]. by vm_compute.
  - apply Qle_trans with (2 ^ 44)%Q; [|by apply pow2_le].
    eapply Qle_trans; [exact Hhi|]. by vm_compute.
Qed.

(** Three roundings away from the exact quotient. *)
Lemma doubleFps_accurate first last count :
  1 < count → count ≤ 1001 →
  (1 # 1000000 <= last - first)%Q → (last - first <= 1000000000)%Q →
  ∃ x, doubleFps first last count = Double.Finite x ∧
       within ((1 + 2 ^ (-52)) * ((1 + 2 ^ (-52)) * (1 + 2 ^ (-52))))
              x (exactFps first last count).
Proof.
  intros Hc Hc' Hlo Hhi. unfold doubleFps, exactFps.
  destruct (count_positive count Hc) as [-> Hn].
  assert (Hn' : (inject_Z (Z.of_nat count - 1) <= 1000)%Q).
  { rewrite <-(Zle_Qle _ 1000). lia. }
  set (n := inject_Z (Z.of_nat count - 1)) in *.
  set (D := (last - first)%Q) in *.
  assert (Hu : (1 <= 1 + 2 ^ (-52))%Q ∧ (1 + 2 ^ (-52) <= 2)%Q).
  { split; by vm_compute. }
  set (c := (1 + 2 ^ (-52))%Q) in *.
  assert (H1 : ∃ d1, Double.sub (Double.exact last) (Double.exact first)
                     = Double.Finite d1 ∧ within c d1 D).
  { destruct (sub_exact last first) as (d & Hd & [->| (q & -> & Hq)]).
    - fold D. lra.
    - destruct (round_within D) as (r & Hr & Hw); [apply normal_range; lra..|].
      exists r. by rewrite Hd.
    - exists q. split; [done|]. fold D in Hq.
      apply (within_Qeq c q q D Hq), within_refl; lra. }
  destruct H1 as (d1 & -> & Hw1).
  destruct (within_half _ _ _ Hw1) as [Hd1 Hd1']; [lra|].
  assert (Hq2 : (1 # 2000000000 <= d1 / n)%Q ∧ (d1 / n <= 10000000000)%Q).
  { split; [apply Qle_shift_div_l|apply Qle_shift_div_r]; nra. }
  destruct (round_within (d1 / n)) as (d2 & Hr2 & Hw2); [apply normal_range; lra..|].
  change (Double.div (Double.Finite d1) (Double.Finite n))
    with (Double.round (d1 / n)).
  rewrite Hr2.
  destruct (within_half _ _ _ Hw2) as [Hd2 Hd2']; [lra|].
  assert (Hd2pos : (0 < d2)%Q) by apply Hw2.
  assert (Hq3 : (1 # 100000000 <= inject_Z 1000 / d2)%Q ∧
                (inject_Z 1000 / d2 <= 10000000000000)%Q).
  { change (inject_Z 1000) with 1000%Q. destruct Hq2 as [Hq2 Hq2'].
    set (q2 := (d1 / n)%Q) in *.
    split; [apply Qle_shift_div_l|apply Qle_shift_div_r]; lra. }
  destruct (round_within (inject_Z 1000 / d2)) as (x & Hr3 & Hw3);
    [apply normal_range; lra..|].
  change (Double.div (Double.ofZ 1000) (Double.Finite d2))
    with (Double.round (inject_Z 1000 / d2)).
  rewrite Hr3. exists x. split; [done|].
  apply (within_trans c (c * c) x (inject_Z 1000 / d2)); [lra|nra|done|].
  change (inject_Z 1000) with 1000%Q.
  apply within_inv; [|done].
  apply (within_trans c c d2 (d1 / n)); [lra|lra|done|].
  apply within_div; [done|lra].
Qed.

Lemma fpsOf_rounded stamps :
  roundedFps stamps (Some (ofDouble (Double.roundHalfUp (fpsOf stamps)))).
Proof.
  unfold roundedFps. split.
  - intros Hle. unfold fpsOf. rewrite bool_decide_eq_false_2 by lia. done.
  - intros Hlt first last Hfirst Hlast.
    rewrite (fpsOf_formula stamps first last) by done. split_and!.
    + done.
    + intros Heq. by rewrite doubleFps_coincide.
    + intros Hlo Hhi Hlen.
      destruct (doubleFps_accurate first last (length stamps))
        as (x & Hx & Hpx & Hpe & Hle1 & Hle2); [done..|].
      exists x, (Qfloor (x + (1 # 2))). rewrite Hx.
      assert (Hc : (1 <= (1 + 2 ^ (-52)) * ((1 + 2 ^ (-52)) * (1 + 2 ^ (-52))))%Q ∧
                   ((1 + 2 ^ (-52)) * ((1 + 2 ^ (-52)) * (1 + 2 ^ (-52)))
                    <= 1 + 2 ^ (-50))%Q ∧
                   (0 < 2 ^ (-50))%Q ∧ (2 ^ (-50) < 1)%Q).
      { split_and!; by vm_compute. }
      set (C := ((1 + 2 ^ (-52)) * ((1 + 2 ^ (-52)) * (1 + 2 ^ (-52))))%Q) in *.
      set (ε := (2 ^ (-50))%Q) in *.
      set (X := exactFps first last (length stamps)) in *.
      split_and!; [done|nra|nra|apply Math_round_nearest|].
      by rewrite roundHalfUp_finite.
Qed.
End SamplerFacts.

Section SamplerClaims.
Import Sampler.

Lemma brush_run total cap n clk :
  0 < total →
  let k := samplesOf cap n in
  (if bool_decide (total = 0) then ResStats zeroStats
   else let '(latencies, stamps) := next clk k 0 [] [] in
        finishBrush latencies stamps)
  = finishBrush (latenciesOf clk k) (stampsOf clk k).
Proof.
  intros Ht k. rewrite bool_decide_eq_false_2 by lia. by rewrite next_run.
Qed.

(** Unfold a sampler on a non-empty target down to its final reduction. *)
Ltac run_sampler f :=
  unfold f; rewrite ?brush_run by done;
  rewrite ?bool_decide_eq_false_2 by lia; rewrite ?next_run;
  eexists; split; [done|].

Ltac nonempty_run :=
  apply percentiles_nearestRank, latenciesOf_nonempty; unfold samplesOf; lia.

(** C6: a sampler run that collects at least one latency returns as p50
    and p95 the elements at indices floor(0.5 * len) and floor(0.95 * len)
    of the latencies in ascending order (nearest rank, no interpolation). *)
Theorem percentiles_are_nearest_rank (total : nat) (n m : Z) (clk : clock) :
  0 < total → (0 < n)%Z →
  (∃ s, Matrix.measureHoverLatency total m clk = ResStats s ∧
        nearestRank (latenciesOf clk (samplesOf 200 (Z.of_nat total))) s) ∧
  (∃ s, Matrix.measureBrushLatency total n clk = ResStats s ∧
        nearestRank (latenciesOf clk (samplesOf 100 n)) s) ∧
  (∃ s, MatrixEnriched.measureBrush total n clk = ResStats s ∧
        nearestRank (latenciesOf clk (samplesOf 60 n)) s) ∧
  (∃ s, PrismDynamic.measureBrush total n clk = ResStats s ∧
        nearestRank (latenciesOf clk (samplesOf 50 n)) s) ∧
  (∃ s, PrismMulti.measureBrush total n clk = ResStats s ∧
        nearestRank (latenciesOf clk (samplesOf 50 n)) s) ∧
  (∃ s, Prism.measurePrismHoverLatency total clk = ResStats s ∧
        nearestRank (latenciesOf clk (samplesOf 300 (Z.of_nat total))) s) ∧
  (∃ s, Prism.measurePrismBrushLatency total n clk = ResStats s ∧
        nearestRank (latenciesOf clk (samplesOf 100 n)) s).
Proof.
  intros Ht Hn. split_and!.
  - run_sampler Matrix.measureHoverLatency. nonempty_run.
  - run_sampler Matrix.measureBrushLatency. nonempty_run.
  - run_sampler MatrixEnriched.measureBrush. nonempty_run.
  - run_sampler PrismDynamic.measureBrush. nonempty_run.
  - run_sampler PrismMulti.measureBrush. nonempty_run.
  - run_sampler Prism.measurePrismHoverLatency. nonempty_run.
  - run_sampler Prism.measurePrismBrushLatency. nonempty_run.
Qed.

Lemma percentiles_are_nearest_rank_witness :
  0 < 7 ∧ (0 < 5)%Z ∧
  ∃ s, Matrix.measureBrushLatency 7 5 steadyClock = ResStats s ∧
       nearestRank (latenciesOf steadyClock (samplesOf 100 5)) s.
Proof.
  split; [lia|]. split; [lia|].
  apply (percentiles_are_nearest_rank 7 5 0 steadyClock); lia.
Defined.

(** C7 fails as stated: with two frames 16 ms apart the quotient is 62.5
    frames per second, and the sampler returns 63. *)
Lemma fps_is_not_the_exact_quotient :
  ∃ s f,
    Matrix.measureBrushLatency 3 2 steadyClock = ResStats s ∧
    stampsOf steadyClock 2 = [4; 20]%Q ∧
    fps s = Some (Num f) ∧
    ¬ (f == 1000 / ((20 - 4) / (2 - 1)))%Q.
Proof.
  eexists _, _. split_and!; [vm_compute; reflexivity|reflexivity|reflexivity|].
  intros H. vm_compute in H. discriminate H.
Qed.

(** Each of the three operations rounds: with frames stamped 4, 100, 200
    and 404 ms the exact quotient is 7.5, the division [400 / 3] gives
    133.33333333333334, [1000] divided by it 7.499999999999999, and the
    sampler returns 7. *)
Lemma fps_rounds_each_operation :
  ∃ s, Matrix.measureBrushLatency 5 4 unevenClock = ResStats s ∧
       stampsOf unevenClock 4 = [4; 100; 200; 404]%Q ∧
       (exactFps 4 404 4 == 15 # 2)%Q ∧
       doubleFps 4 404 4
         = Double.Finite (8444249301319679 # 1125899906842624) ∧
       fps s = Some (Num 7).
Proof.
  eexists. split_and!; [by vm_compute|done|done|by vm_compute|by vm_compute].
Qed.

(** C7 (amended): a brush sampler returns as fps [Math.round] of
    1000 / ((last_frame_ts - first_frame_ts) / (frame_count - 1)) computed
    in doubles, when frame_count > 1: Infinity when the two timestamps
    coincide and, for frames between 10^-6 ms and 10^9 ms apart and at most
    1001 of them, the integer nearest, halves up, to a number within a
    relative 2^-50 of the exact quotient; the sampler returns 0 when
    frame_count <= 1. *)
Theorem fps_is_rounded_quotient (total : nat) (n : Z) (clk : clock) :
  0 < total →
  (∃ s, Matrix.measureBrushLatency total n clk = ResStats s ∧
        roundedFps (stampsOf clk (samplesOf 100 n)) (fps s)) ∧
  (∃ s, MatrixEnriched.measureBrush total n clk = ResStats s ∧
        roundedFps (stampsOf clk (samplesOf 60 n)) (fps s)) ∧
  (∃ s, PrismDynamic.measureBrush total n clk = ResStats s ∧
        roundedFps (stampsOf clk (samplesOf 50 n)) (fps s)) ∧
  (∃ s, PrismMulti.measureBrush total n clk = ResStats s ∧
        roundedFps (stampsOf clk (samplesOf 50 n)) (fps s)) ∧
  (∃ s, Prism.measurePrismBrushLatency total n clk = ResStats s ∧
        roundedFps (stampsOf clk (samplesOf 100 n)) (fps s)).
Proof.
  intros Ht. split_and!.
  - run_sampler Matrix.measureBrushLatency. apply fpsOf_rounded.
  - run_sampler MatrixEnriched.measureBrush. apply fpsOf_rounded.
  - run_sampler PrismDynamic.measureBrush. apply fpsOf_rounded.
  - run_sampler PrismMulti.measureBrush. apply fpsOf_rounded.
  - run_sampler Prism.measurePrismBrushLatency. apply fpsOf_rounded.
Qed.

Lemma fps_is_rounded_quotient_witness :
  0 < 3 ∧
  ∃ s, Matrix.measureBrushLatency 3 2 steadyClock = ResStats s ∧
       roundedFps (stampsOf steadyClock (samplesOf 100 2)) (fps s).
Proof.
  split; [lia|]. apply (fps_is_rounded_quotient 3 2 steadyClock). lia.
Defined.

(** C8: on a target with zero elements the samplers of [matrix.js]
    resolve to the bare number 0, while the [measureBrush] functions
    resolve to the record {p50: 0, p95: 0, fps: 0}; no trial runs in
    either case. *)
Theorem empty_target_results (n : Z) (clk : clock) :
  Matrix.measureBrushLatency 0 n clk = ResNumber 0 ∧
  Matrix.measureHoverLatency 0 n clk = ResNumber 0 ∧
  Matrix.measureBrushLatency 0 n clk ≠ ResStats zeroStats ∧
  MatrixEnriched.measureBrush 0 n clk = ResStats zeroStats ∧
  PrismDynamic.measureBrush 0 n clk = ResStats zeroStats ∧
  PrismMulti.measureBrush 0 n clk = ResStats zeroStats ∧
  Prism.measurePrismBrushLatency 0 n clk = ResStats zeroStats ∧
  Prism.measurePrismHoverLatency 0 clk =
    ResStats {| p50 := Some 0%Q; p95 := Some 0%Q; fps := None |}.
Proof. by split_and!. Qed.
End SamplerClaims.

(** ** Loops that may throw *)

Section FoldM.
Context {A B : Type} (f : B → A → outcome B).

Lemma foldM_app b l1 l2 :
  foldM f b (l1 ++ l2) = b' ← foldM f b l1; foldM f b' l2.
Proof.
  revert b. induction l1 as [|x l1 IH]; intros b; simpl; [done|].
  destruct (f b x); simpl; auto.
Qed.

(** Partial correctness: an invariant kept by every iteration that
    returns holds when the loop returns. *)
Lemma foldM_returned (I : B → Prop) l b b' :
  I b →
  (∀ b x b', x ∈ l → I b → f b x = Returned b' → I b') →
  foldM f b l = Returned b' → I b'.
Proof.
  revert b. induction l as [|x l IH]; intros b Hb Hstep; simpl.
  - by intros [= <-].
  - destruct (f b x) as [b1| |] eqn:Hf; simpl; [|done..].
    apply IH.
    + eapply Hstep; [|done..]. left.
    + intros ??? Hin. apply Hstep. by right.
Qed.

End FoldM.

(** Total correctness of a counting loop [for (k = s; k < s + len; k++)]. *)
Lemma foldM_seq {B : Type} (f : B → nat → outcome B) (I : nat → B → Prop) len :
  ∀ s b,
  I s b →
  (∀ k b, s ≤ k < s + len → I k b → ∃ b', f b k = Returned b' ∧ I (S k) b') →
  ∃ b', foldM f b (seq s len) = Returned b' ∧ I (s + len) b'.
Proof.
  induction len as [|len IH]; intros s b Hb Hstep; simpl.
  - exists b. by rewrite Nat.add_0_r.
  - destruct (Hstep s b) as (b1 & -> & Hb1); [lia|done|]. simpl.
    destruct (IH (S s) b1) as (b' & Hfold & Hb'); [done| |].
    + intros k b2 Hk. apply Hstep. lia.
    + exists b'. split; [done|]. by replace (s + S len) with (S s + len) by lia.
Qed.

(** A loop over a list, with the invariant indexed by the processed prefix. *)
Lemma foldM_prefix {A B : Type} (f : B → A → outcome B)
    (I : list A → B → Prop) l :
  ∀ pre b,
  I pre b →
  (∀ done x b, x ∈ l → I done b → ∃ b', f b x = Returned b' ∧ I (done ++ [x]) b') →
  ∃ b', foldM f b l = Returned b' ∧ I (pre ++ l) b'.
Proof.
  induction l as [|x l IH]; intros pre b Hb Hstep; simpl.
  - exists b. by rewrite app_nil_r.
  - destruct (Hstep pre x b) as (b1 & -> & Hb1); [left|done|]. simpl.
    destruct (IH (pre ++ [x]) b1) as (b' & Hfold & Hb'); [done| |].
    + intros ??? Hin. apply Hstep. by right.
    + exists b'. split; [done|]. by rewrite <-app_assoc in Hb'.
Qed.

(** ** The ticker index *)

Section TickerIndex.
Implicit Types l : list string.

Lemma buildTickerIndex_snoc l t :
  buildTickerIndex (l ++ [t]) = <[t := length l]> (buildTickerIndex l).
Proof.
  unfold buildTickerIndex. rewrite imap_app, foldl_app. simpl.
  by rewrite Nat.add_0_r.
Qed.

Lemma buildTickerIndex_lookup l t i :
  buildTickerIndex l !! t = Some i → l !! i = Some t.
Proof.
  revert i. induction l as [|x l IH] using rev_ind; intros i.
  - unfold buildTickerIndex. simpl. by rewrite lookup_empty.
  - rewrite buildTickerIndex_snoc.
    destruct (decide (x = t)) as [->|Hne].
    + rewrite lookup_insert_eq. intros [= <-].
      by rewrite lookup_app_r, Nat.sub_diag.
    + rewrite lookup_insert_ne by done. intros H.
      apply lookup_app_l_Some. by apply IH.
Qed.

Lemma buildTickerIndex_is_Some l t :
  is_Some (buildTickerIndex l !! t) ↔ t ∈ l.
Proof.
  split.
  - intros [i Hi]. apply buildTickerIndex_lookup in Hi.
    by eapply list_elem_of_lookup_2.
  - induction l as [|x l IH] using rev_ind; [by intros ?%elem_of_nil|].
    rewrite buildTickerIndex_snoc, elem_of_app, list_elem_of_singleton.
    destruct (decide (x = t)) as [->|Hne].
    + rewrite lookup_insert_eq. eauto.
    + rewrite lookup_insert_ne by done. intros [H|H]; [auto|congruence].
Qed.

Lemma buildTickerIndex_NoDup l t i :
  NoDup l → l !! i = Some t → buildTickerIndex l !! t = Some i.
Proof.
  intros Hnd Hi.
  destruct (proj2 (buildTickerIndex_is_Some l t)) as [j Hj].
  { by eapply list_elem_of_lookup_2. }
  rewrite Hj. f_equal. apply buildTickerIndex_lookup in Hj.
  by eapply NoDup_lookup.
Qed.
End TickerIndex.

(** ** The adjacency lists *)

Section Adjacency.
Context (n : nat) (matrix : list (list Q)) (thr : Q).
Implicit Types adj : list (list nat).

Lemma qualifies_returned i j :
  i < length matrix →
  qualifies matrix thr i j = Returned (aboveThreshold matrix thr i j).
Proof.
  intros Hi. unfold qualifies, aboveThreshold, entry.
  destruct (lookup_lt_is_Some_2 matrix i Hi) as [row ->]. done.
Qed.

Lemma qualifies_inv i j q :
  qualifies matrix thr i j = Returned q → q = aboveThreshold matrix thr i j.
Proof.
  unfold qualifies, aboveThreshold, entry.
  destruct (matrix !! i); simpl; [|done]. by intros [= <-].
Qed.

Lemma edge_push adj i j a b :
  i < length adj →
  edge (push adj i j) a b ↔ edge adj a b ∨ (a = i ∧ b = j).
Proof.
  intros Hi. unfold edge, push.
  destruct (lookup_lt_is_Some_2 adj i Hi) as [li Hli].
  destruct (decide (a = i)) as [->|Hne].
  - rewrite list_lookup_alter_eq, Hli. simpl. split.
    + intros (l & [= <-] & Hb). apply elem_of_app in Hb as [Hb|Hb].
      * left. eauto.
      * right. by apply list_elem_of_singleton in Hb.
    + intros [(l & Hl & Hb)|[_ ->]].
      * simplify_eq. exists (l ++ [j]). split; [done|]. set_solver.
      * exists (li ++ [j]). split; [done|]. set_solver.
  - rewrite list_lookup_alter_ne by done. naive_solver.
Qed.

Lemma adjInv_ext P P' adj :
  (∀ a b, a < b < n → P a b ↔ P' a b) → adjInv n matrix thr P adj → adjInv n matrix thr P' adj.
Proof.
  intros HP [Hlen Hadj]. split; [done|]. intros a b. rewrite Hadj.
  split; intros (Ha & Hb & [(? & ? & ?)|(? & ? & ?)]); split_and!; try done.
  - left. split_and!; try done. apply HP; [lia|done].
  - right. split_and!; try done. apply HP; [lia|done].
  - left. split_and!; try done. apply HP; [lia|done].
  - right. split_and!; try done. apply HP; [lia|done].
Qed.

Lemma linkPair_inv P adj i j :
  i < j < n → n ≤ length matrix → adjInv n matrix thr P adj →
  ∃ adj', linkPair matrix thr i adj j = Returned adj' ∧
          adjInv n matrix thr (λ a b, P a b ∨ (a = i ∧ b = j)) adj'.
Proof.
  intros Hij Hm [Hlen Hadj]. unfold linkPair.
  rewrite qualifies_returned by lia. simpl.
  destruct (aboveThreshold matrix thr i j) eqn:Hq.
  - eexists. split; [done|]. split.
    + unfold push. by rewrite !length_alter.
    + intros a b. rewrite !edge_push by (unfold push; rewrite ?length_alter; lia).
      rewrite Hadj. clear Hadj. intuition (subst; first [lia|congruence|auto]).
  - eexists. split; [done|]. split; [done|].
    intros a b. rewrite Hadj.
    split; intros (Ha & Hb & H); split_and!; try done.
    + destruct H as [(? & ? & ?)|(? & ? & ?)]; [left|right]; auto.
    + destruct H as [(? & [?|[-> ->]] & ?)|(? & [?|[-> ->]] & ?)];
        try congruence; [left|right]; auto.
Qed.

Lemma buildAdj_inv :
  n ≤ length matrix →
  ∃ adj, buildAdj n matrix thr = Returned adj ∧ adjInv n matrix thr (λ _ _, True) adj.
Proof.
  intros Hm. unfold buildAdj.
  destruct (foldM_seq
    (λ adj i, foldM (linkPair matrix thr i) adj (seq (S i) (n - S i)))
    (λ i adj, adjInv n matrix thr (λ a _, a < i) adj) n 0 (replicate n []))
    as (adj & Hfold & Hinv).
  - split; [by rewrite length_replicate|].
    intros a b. split; [|lia].
    intros (l & Hl & Hb). apply lookup_replicate in Hl as [-> _].
    by apply elem_of_nil in Hb.
  - intros i adj Hi Hinv.
    destruct (foldM_seq (linkPair matrix thr i)
      (λ j adj, adjInv n matrix thr (λ a b, a < i ∨ (a = i ∧ b < j)) adj)
      (n - S i) (S i) adj) as (adj' & Hfold & Hinv').
    + eapply adjInv_ext; [|exact Hinv]. intros a b Hab. simpl. lia.
    + intros j adj1 Hj Hinv1.
      destruct (linkPair_inv _ adj1 i j ltac:(lia) Hm Hinv1) as (adj2 & -> & Hinv2).
      eexists. split; [done|].
      eapply adjInv_ext; [|exact Hinv2]. intros a b Hab. simpl. lia.
    + exists adj'. split; [done|].
      eapply adjInv_ext; [|exact Hinv']. intros a b Hab. simpl. lia.
  - exists adj. split; [done|].
    eapply adjInv_ext; [|exact Hinv]. intros a b Hab. simpl. lia.
Qed.

(** What [buildAdj] returns is the ThresholdGraph. *)
Lemma buildAdj_graph :
  n ≤ length matrix →
  ∃ adj, buildAdj n matrix thr = Returned adj ∧ length adj = n ∧
         ∀ a b, edge adj a b ↔ thresholdGraph n matrix thr a b.
Proof.
  intros Hm. destruct (buildAdj_inv Hm) as (adj & Hb & Hlen & Hadj).
  exists adj. split_and!; [done..|].
  intros a b. rewrite Hadj. unfold thresholdGraph. naive_solver.
Qed.
End Adjacency.

(** ** Breadth-first search from a seed *)

Lemma bounded_length (n : nat) (l : list nat) :
  NoDup l → (∀ x, x ∈ l → x < n) → length l ≤ n.
Proof.
  intros Hnd Hb. rewrite <-(length_seq n 0).
  apply submseteq_length, NoDup_submseteq; [done|].
  intros x Hx. apply elem_of_seq. specialize (Hb x Hx). lia.
Qed.

Section Graph.
Context (n : nat) (adj : list (list nat)).
Hypothesis adj_length : length adj = n.
Hypothesis adj_bound : ∀ a b, edge adj a b → a < n ∧ b < n.

Lemma foldl_visit nbrs :
  ∀ visited queue, ∃ new,
    foldl visit (visited, queue) nbrs = (visited ++ new, queue ++ new) ∧
    (NoDup visited → NoDup (visited ++ new)) ∧
    (∀ x, x ∈ new → x ∈ nbrs) ∧
    (∀ x, x ∈ nbrs → x ∈ visited ++ new).
Proof.
  induction nbrs as [|w nbrs IH]; intros visited queue; simpl.
  - exists []. rewrite !app_nil_r. split_and!; [done..|].
    by intros x ?%elem_of_nil.
  - unfold visit at 2. simpl. case_bool_decide as Hw.
    + destruct (IH visited queue) as (new & -> & Hnd & Hsub & Hcov).
      exists new. split_and!; [done..| |].
      * intros x Hx. right. auto.
      * intros x [->|Hx]%elem_of_cons; [|auto].
        apply elem_of_app. auto.
    + destruct (IH (visited ++ [w]) (queue ++ [w])) as (new & -> & Hnd & Hsub & Hcov).
      exists (w :: new). rewrite <-!app_assoc. simpl. split_and!; [done| | |].
      * intros Hv. rewrite <-app_assoc in Hnd. apply Hnd.
        apply NoDup_app. split_and!; [done| |apply NoDup_singleton].
        intros x Hx ->%list_elem_of_singleton. done.
      * intros x [->|Hx]%elem_of_cons; [left|right; auto].
      * intros x [->|Hx]%elem_of_cons.
        -- apply elem_of_app. right. left.
        -- specialize (Hcov x Hx). by rewrite <-app_assoc in Hcov.
Qed.

Lemma bfs_total start fuel :
  ∀ visited queue,
    bfsInv n adj start visited queue →
    n + length queue ≤ fuel + length visited →
    ∃ res, bfs fuel adj visited queue = Returned res ∧
           bfsInv n adj start res [].
Proof.
  induction fuel as [|fuel IH]; intros visited queue Hinv Hfuel.
  - destruct queue as [|current rest].
    + exists visited. done.
    + pose proof (bounded_length n visited (bfs_nodup _ _ _ _ _ Hinv)
                    (bfs_bound _ _ _ _ _ Hinv)). simpl in Hfuel. lia.
  - destruct queue as [|current rest]; [by exists visited|]. simpl.
    assert (Hcur : current ∈ visited).
    { apply (bfs_queue _ _ _ _ _ Hinv). left. }
    assert (Hlt : current < length adj).
    { rewrite adj_length. by apply (bfs_bound _ _ _ _ _ Hinv). }
    destruct (lookup_lt_is_Some_2 adj current Hlt) as [nbrs Hnbrs].
    rewrite Hnbrs.
    destruct (foldl_visit nbrs visited rest) as (new & -> & Hnd & Hsub & Hcov).
    simpl. apply IH.
    + destruct Hinv as [Hinv1 Hinv2 Hinv3 Hinv4 Hinv5 Hinv6].
      assert (Hedge : ∀ x, x ∈ new → edge adj current x).
      { intros x Hx. exists nbrs. auto. }
      split.
      * auto.
      * intros x [Hx|Hx]%elem_of_app; [auto|].
        by apply (adj_bound current x), Hedge.
      * intros x [Hx|Hx]%elem_of_app; apply elem_of_app; [left|right; done].
        apply Hinv3. by right.
      * apply elem_of_app. auto.
      * intros x [Hx|Hx]%elem_of_app; [auto|].
        eapply rtc_r; [apply Hinv5, Hcur|]. by apply Hedge.
      * intros x y Hx Hnq (l & Hl & Hy).
        assert (Hxr : x ∉ rest) by (intros ?; apply Hnq, elem_of_app; auto).
        assert (Hxn : x ∉ new) by (intros ?; apply Hnq, elem_of_app; auto).
        apply elem_of_app in Hx as [Hx|Hx]; [|done].
        destruct (decide (x = current)) as [->|Hne].
        -- apply Hcov. by simplify_eq.
        -- apply elem_of_app. left. apply (Hinv6 x y); [done| |by exists l].
           intros [->|?]%elem_of_cons; done.
    + rewrite !length_app. simpl in Hfuel. lia.
Qed.

(** The seed search returns the nodes connected to the seed, each once. *)
Lemma bfs_spec start fuel :
  start < n → n ≤ fuel →
  ∃ res, bfs fuel adj [start] [start] = Returned res ∧
         NoDup res ∧ ∀ x, x ∈ res ↔ connected adj start x.
Proof.
  intros Hs Hfuel.
  destruct (bfs_total start fuel [start] [start]) as (res & Hres & Hinv).
  - split.
    + apply NoDup_singleton.
    + by intros x ->%list_elem_of_singleton.
    + done.
    + left.
    + intros x ->%list_elem_of_singleton. apply rtc_refl.
    + intros x y Hx Hnq. done.
  - simpl. lia.
  - exists res. split_and!; [done|by destruct Hinv|].
    intros x. split; [by apply (bfs_sound _ _ _ _ _ Hinv)|].
    revert x. apply (rtc_ind_r (λ z, z ∈ res)).
    + by apply (bfs_start _ _ _ _ _ Hinv).
    + intros y z _ Hyz Hy.
      eapply (bfs_closed _ _ _ _ _ Hinv); [exact Hy| |done].
      by intros ?%elem_of_nil.
Qed.
End Graph.

(** ** Breadth-first search of one component *)

Section ComponentSearch.
Context (n : nat) (adj : list (list nat)) (cid : Z) (old : list Z).
Hypothesis adj_length : length adj = n.
Hypothesis adj_bound : ∀ a b, edge adj a b → a < n ∧ b < n.
Hypothesis adj_sym : ∀ a b, edge adj a b → edge adj b a.
Hypothesis cid_mark : cid ≠ (-1)%Z.
Hypothesis old_length : length old = n.
Hypothesis old_closed :
  ∀ x y c, old !! x = Some c → c ≠ (-1)%Z → edge adj x y →
           old !! y ≠ Some (-1)%Z.

Lemma foldl_mark nbrs :
  ∀ (marks : list Z) queue, ∃ marks' new,
    foldl (mark cid) (marks, queue) nbrs = (marks', queue ++ new) ∧
    length marks' = length marks ∧
    NoDup new ∧
    (∀ x, x ∈ new → x ∈ nbrs ∧ marks !! x = Some (-1)%Z) ∧
    (∀ x, x ∈ new → marks' !! x = Some cid) ∧
    (∀ x, x ∉ new → marks' !! x = marks !! x) ∧
    (∀ x, x ∈ nbrs → x ∈ new ∨ marks !! x ≠ Some (-1)%Z).
Proof.
  induction nbrs as [|w nbrs IH]; intros marks queue; simpl.
  - exists marks, []. rewrite app_nil_r.
    split_and!; try done; [apply NoDup_nil_2|..];
      by intros x ?%elem_of_nil.
  - unfold mark at 2. simpl. case_bool_decide as Hw.
    + destruct (IH (<[w := cid]> marks) (queue ++ [w]))
        as (marks' & new & -> & Hlen & Hnd & Hsub & Hnew & Hoth & Hcov).
      assert (Hwlt : w < length marks) by (by eapply lookup_lt_Some).
      assert (Hwn : w ∉ new).
      { intros Hin. destruct (Hsub w Hin) as [_ Hm].
        rewrite list_lookup_insert_eq in Hm by done. congruence. }
      exists marks', (w :: new). rewrite <-app_assoc. simpl.
      split_and!; [done|by rewrite Hlen, length_insert|by constructor|..].
      * intros x [->|Hx]%elem_of_cons; [split; [left|done]|].
        destruct (Hsub x Hx) as [Hin Hm]. split; [by right|].
        rewrite list_lookup_insert_ne in Hm; [done|]. by intros ->.
      * intros x [->|Hx]%elem_of_cons; [|auto].
        rewrite Hoth by done. by apply list_lookup_insert_eq.
      * intros x Hx. rewrite not_elem_of_cons in Hx. destruct Hx as [Hne Hx].
        rewrite Hoth by done. by apply list_lookup_insert_ne.
      * intros x [->|Hx]%elem_of_cons; [left; left|].
        destruct (Hcov x Hx) as [Hin|Hm]; [left; by right|].
        destruct (decide (x = w)) as [->|Hne]; [left; left|].
        right. by rewrite list_lookup_insert_ne in Hm.
    + destruct (IH marks queue)
        as (marks' & new & -> & Hlen & Hnd & Hsub & Hnew & Hoth & Hcov).
      exists marks', new. split_and!; try done.
      * intros x Hx. destruct (Hsub x Hx). split; [by right|done].
      * intros x [->|Hx]%elem_of_cons; auto.
Qed.

Lemma bfsComponent_total root fuel :
  ∀ marks comp queue,
    compInv n adj cid old root marks comp queue →
    n ≤ fuel + length comp →
    ∃ marks' comp' rest,
      bfsComponent fuel adj cid marks comp queue = Returned (marks', comp') ∧
      comp' = comp ++ queue ++ rest ∧
      compInv n adj cid old root marks' comp' [].
Proof.
  induction fuel as [|fuel IH]; intros marks comp queue Hinv Hfuel.
  - destruct queue as [|current rest].
    + exists marks, comp, []. by rewrite !app_nil_r.
    + assert (length (comp ++ current :: rest) ≤ n).
      { apply (bounded_length n); [by destruct Hinv|].
        intros x Hx. destruct (ci_marked _ _ _ _ _ _ _ _ Hinv x Hx) as [Hm _].
        apply lookup_lt_Some in Hm. by rewrite (ci_length _ _ _ _ _ _ _ _ Hinv) in Hm. }
      rewrite length_app in *. simpl in *. lia.
  - destruct queue as [|current rest].
    { exists marks, comp, []. by rewrite !app_nil_r. }
    simpl.
    destruct Hinv as [H1 H2 H3 H4 H5 H6 H7].
    assert (Hcur : current ∈ comp ++ current :: rest) by set_solver.
    assert (Hbound : ∀ x, x ∈ comp ++ current :: rest → x < n).
    { intros x Hx. destruct (H3 x Hx) as [Hm _].
      apply lookup_lt_Some in Hm. by rewrite H1 in Hm. }
    assert (Hlt : current < length adj) by (rewrite adj_length; auto).
    destruct (lookup_lt_is_Some_2 adj current Hlt) as [nbrs Hnbrs].
    rewrite Hnbrs.
    destruct (foldl_mark nbrs marks rest)
      as (marks' & new & -> & Hlen & Hnd & Hsub & Hnew & Hoth & Hcov).
    simpl.
    assert (Hfresh : ∀ x, x ∈ new → x ∉ comp ++ current :: rest).
    { intros x Hx Hin. destruct (Hsub x Hx) as [_ Hm].
      destruct (H3 x Hin) as [Hm' _]. congruence. }
    destruct (IH marks' (comp ++ [current]) (rest ++ new))
      as (marks2 & comp2 & rest2 & Hrun & Hcomp2 & Hinv2).
    + split.
      * congruence.
      * rewrite <-app_assoc. simpl. rewrite app_comm_cons, app_assoc.
        apply NoDup_app. split_and!; [done| |done].
        intros x Hx Hx'. by apply (Hfresh x Hx').
      * intros x Hx. rewrite <-app_assoc in Hx. simpl in Hx.
        rewrite app_comm_cons, app_assoc in Hx.
        apply elem_of_app in Hx as [Hx|Hx].
        -- destruct (H3 x Hx) as [Hm Ho]. split; [|done].
           rewrite Hoth; [done|]. intros Hin. by apply (Hfresh x Hin).
        -- split; [auto|]. destruct (Hsub x Hx) as [_ Hm].
           rewrite <-Hm. symmetry. apply H4. by apply Hfresh.
      * intros x Hx. rewrite <-app_assoc in Hx. simpl in Hx.
        rewrite app_comm_cons, app_assoc in Hx.
        rewrite not_elem_of_app in Hx. destruct Hx as [Hx Hx'].
        rewrite Hoth by done. by apply H4.
      * intros x Hx. rewrite <-app_assoc in Hx. simpl in Hx.
        rewrite app_comm_cons, app_assoc in Hx.
        apply elem_of_app in Hx as [Hx|Hx]; [auto|].
        eapply rtc_r; [apply H5, Hcur|]. exists nbrs. split; [done|].
        by apply Hsub.
      * rewrite <-app_assoc. simpl. rewrite app_comm_cons, app_assoc.
        apply elem_of_app. auto.
      * intros x y Hx Hxy. rewrite <-app_assoc. simpl.
        rewrite app_comm_cons, app_assoc. apply elem_of_app.
        apply elem_of_app in Hx as [Hx|Hx].
        { left. by eapply H7. }
        apply list_elem_of_singleton in Hx as ->.
        destruct Hxy as (l & Hl & Hy). simplify_eq.
        destruct (Hcov y Hy) as [Hin|Hm]; [by right|]. left.
        destruct (decide (y ∈ comp ++ current :: rest)) as [|Hout]; [done|].
        exfalso. rewrite (H4 y Hout) in Hm.
        assert (Hy_lt : y < length old).
        { rewrite old_length. apply (adj_bound current y). by exists nbrs. }
        destruct (lookup_lt_is_Some_2 old y Hy_lt) as [c Hc].
        rewrite Hc in Hm.
        apply (old_closed y current c); [done|congruence| |].
        -- apply adj_sym. by exists nbrs.
        -- by destruct (H3 current Hcur).
    + rewrite length_app. simpl. lia.
    + exists marks2, comp2, (new ++ rest2). split_and!; [done| |done].
      rewrite Hcomp2, <-!app_assoc. done.
Qed.
End ComponentSearch.

(** ** The component loop *)

Section Components.
Context (n : nat) (adj : list (list nat)) (tickers valid : list string).
Hypothesis adj_length : length adj = n.
Hypothesis adj_bound : ∀ a b, edge adj a b → a < n ∧ b < n.
Hypothesis adj_sym : ∀ a b, edge adj a b → edge adj b a.

Lemma connected_sym a b : connected adj a b → connected adj b a.
Proof.
  induction 1 as [|a b c Hab _ IH]; [apply rtc_refl|].
  eapply rtc_r; [exact IH|]. by apply adj_sym.
Qed.

Lemma connected_last a b :
  connected adj a b → a ≠ b → ∃ z, edge adj b z.
Proof.
  intros Hc Hne. apply rtc_inv_r in Hc as [->|(z & _ & Hz)]; [done|].
  exists z. by apply adj_sym.
Qed.

Lemma edge_nil a : adj !! a = Some [] → ∀ z, ¬ edge adj a z.
Proof. intros Ha z (l & Hl & Hz). simplify_eq. by apply elem_of_nil in Hz. Qed.

Lemma partInv_skip i st :
  partInv n adj tickers valid i st →
  (componentOf st !! i = Some (-1)%Z → adj !! i = Some []) →
  partInv n adj tickers valid (S i) st.
Proof.
  intros [Hlen Hid Hmarks Hfound Hseen Hord] Hi. split; try done.
  - intros k c Hc.
    destruct (Hfound k c Hc) as (Hmk & Hnd & root & rest & Hroot & Hlt & Hrest).
    split_and!; try done. exists root, rest. split_and!; [done|lia|apply Hrest..].
  - intros x Hx Hm. destruct (decide (x = i)) as [->|]; [auto|].
    apply Hseen; [lia|done].
Qed.

Lemma componentStep_inv i st :
  i < n → partInv n adj tickers valid i st →
  ∃ st', componentStep (S n) adj tickers valid st i = Returned st' ∧
         partInv n adj tickers valid (S i) st'.
Proof.
  intros Hi Hinv. pose proof Hinv as Hinv0.
  destruct Hinv as [Hlen Hid Hmarks Hfound Hseen Hord].
  unfold componentStep. case_bool_decide as Hmark.
  2: { exists st. split; [done|]. by apply partInv_skip. }
  assert (Hlt : i < length adj) by lia.
  destruct (lookup_lt_is_Some_2 adj i Hlt) as [nbrs Hnbrs]. rewrite Hnbrs.
  destruct nbrs as [|w nbrs].
  { exists st. split; [done|]. by apply partInv_skip. }
  set (cid := componentId st).
  assert (Hcid : cid ≠ (-1)%Z) by (unfold cid; lia).
  assert (Hclosed : ∀ x y c, componentOf st !! x = Some c → c ≠ (-1)%Z →
            edge adj x y → componentOf st !! y ≠ Some (-1)%Z).
  { intros x y c Hx Hc Hxy.
    destruct (Hmarks x c Hx) as [|(k & comp & -> & Hk & Hin)]; [done|].
    destruct (Hfound k comp Hk) as (_ & _ & root & rest & _ & _ & _ & Hcls & Hmk).
    assert (Hy : y ∈ indices comp).
    { apply Hcls. eapply rtc_r; [by apply Hcls|done]. }
    destruct (Hmk y Hy) as [-> _]. intros [=]. lia. }
  destruct (bfsComponent_total n adj cid (componentOf st) adj_length adj_bound
              adj_sym Hcid Hlen Hclosed i (S n)
              (<[i := cid]> (componentOf st)) [] [i])
    as (marks' & comp & rest & -> & Hcomp & Hinv').
  { split; simpl.
    - by rewrite length_insert.
    - apply NoDup_singleton.
    - intros x ->%list_elem_of_singleton. split; [|done].
      apply list_lookup_insert_eq. lia.
    - intros x Hx. apply list_lookup_insert_ne.
      intros ->. apply Hx. left.
    - intros x ->%list_elem_of_singleton. apply rtc_refl.
    - left.
    - by intros x y ?%elem_of_nil. }
  { simpl. lia. }
  simpl in Hcomp. simpl.
  destruct Hinv' as [H1 H2 H3 H4 H5 H6 H7]. rewrite app_nil_r in *.
  assert (Hclass : ∀ x, x ∈ comp ↔ connected adj i x).
  { intros x. split; [auto|]. revert x.
    apply (rtc_ind_r (λ z, z ∈ comp)); [done|].
    intros y z _ Hyz Hy. by eapply H7. }
  eexists. split; [done|]. split; simpl.
  - done.
  - rewrite length_app. simpl. lia.
  - intros x c Hx. destruct (decide (x ∈ comp)) as [Hin|Hout].
    + right. exists (length (found st)), (mkComponent tickers valid cid comp).
      destruct (H3 x Hin) as [Hm _]. split_and!.
      * unfold cid in Hm. rewrite Hid in Hm. congruence.
      * by rewrite lookup_app_r, Nat.sub_diag.
      * done.
    + rewrite (H4 x Hout) in Hx.
      destruct (Hmarks x c Hx) as [|(k & c' & -> & Hk & Hin)]; [by left|].
      right. exists k, c'. split_and!; [done| |done].
      by apply lookup_app_l_Some.
  - intros k c Hc. apply lookup_app_Some in Hc as [Hc|[Hk Hc]].
    + destruct (Hfound k c Hc) as (Hmk & Hnd & root & rest' & Hroot & Hri & Hdeg & Hcls & Hin).
      split_and!; try done. exists root, rest'. split_and!; try done; [lia|].
      intros x Hx. destruct (Hin x Hx) as [Hm Hle]. split; [|done].
      rewrite H4; [done|]. intros Hxc.
      destruct (H3 x Hxc) as [_ Ho]. rewrite Hm in Ho.
      injection Ho. lia.
    + apply list_lookup_singleton_Some in Hc as [Hk0 <-].
      assert (k = length (found st)) as -> by lia.
      simpl. split_and!.
      * unfold cid. by rewrite Hid.
      * done.
      * exists i, (rest). split_and!; try done.
        -- lia.
        -- exists w. exists (w :: nbrs). split; [done|left].
        -- intros x Hx. destruct (H3 x Hx) as [Hm Ho].
           split; [unfold cid in Hm; by rewrite Hid in Hm|].
           destruct (decide (i ≤ x)) as [|Hxi]; [done|]. exfalso.
           assert (Hx0 : adj !! x = Some []) by (apply Hseen; [lia|done]).
           destruct (connected_last i x) as (z & Hz); [by apply Hclass|lia|].
           by apply (edge_nil x Hx0 z).
  - intros x Hx Hm.
    assert (Hout : x ∉ comp).
    { intros Hin. destruct (H3 x Hin) as [Hm' _]. congruence. }
    rewrite (H4 x Hout) in Hm.
    assert (x ≠ i) by (intros ->; apply Hout, Hclass, rtc_refl).
    apply Hseen; [lia|done].
  - intros k k' c c' r r' Hk Hc Hc' Hr Hr'.
    apply lookup_app_Some in Hc as [Hc|[Hge Hc]].
    2: { apply list_lookup_singleton_Some in Hc as [Hk0 _].
         apply lookup_lt_Some in Hc'. rewrite length_app in Hc'.
         simpl in Hc'. lia. }
    apply lookup_app_Some in Hc' as [Hc'|[Hge' Hc']]; [by eapply Hord|].
    apply list_lookup_singleton_Some in Hc' as [_ <-]. simpl in Hr'.
    rewrite Hcomp in Hr'. simpl in Hr'. injection Hr' as <-.
    destruct (Hfound k c Hc) as (_ & _ & root & rest' & Hroot & Hri & _).
    rewrite Hroot in Hr. simpl in Hr. injection Hr as <-. done.
Qed.

(** The loop returns, with every non-isolated node in a component. *)
Lemma components_total :
  ∃ part,
    foldM (componentStep (S n) adj tickers valid)
      {| componentOf := replicate n (-1)%Z; componentId := 0%Z; found := [] |}
      (seq 0 n) = Returned part ∧
    partInv n adj tickers valid n part.
Proof.
  destruct (foldM_seq (componentStep (S n) adj tickers valid)
              (λ i st, partInv n adj tickers valid i st) n 0
              {| componentOf := replicate n (-1)%Z; componentId := 0%Z;
                 found := [] |}) as (part & Hrun & Hinv).
  - split; simpl.
    + by rewrite length_replicate.
    + done.
    + intros x c Hx. apply lookup_replicate in Hx as [-> _]. by left.
    + intros k c Hc. by rewrite lookup_nil in Hc.
    + intros x Hx. lia.
    + intros k k' c c' r r' _ Hc. by rewrite lookup_nil in Hc.
  - intros i st Hi Hinv. apply componentStep_inv; [lia|done].
  - by exists part.
Qed.
End Components.

(** ** The seed loop *)

Lemma foldl_setAdd (l reach : list nat) :
  NoDup reach →
  NoDup (foldl setAdd reach l) ∧
  ∀ x, x ∈ foldl setAdd reach l ↔ x ∈ reach ∨ x ∈ l.
Proof.
  revert reach. induction l as [|y l IH]; intros reach Hnd; simpl.
  - split; [done|]. intros x. rewrite elem_of_nil. tauto.
  - unfold setAdd at 2 4. case_bool_decide as Hy.
    + destruct (IH reach Hnd) as [Hnd' Hin]. split; [done|].
      intros x. rewrite Hin, elem_of_cons. split; [tauto|].
      intros [?|[->|?]]; auto.
    + destruct (IH (reach ++ [y])) as [Hnd' Hin].
      { apply NoDup_app. split_and!; [done| |apply NoDup_singleton].
        intros x Hx ->%list_elem_of_singleton. done. }
      split; [done|]. intros x.
      rewrite Hin, elem_of_app, list_elem_of_singleton, elem_of_cons. tauto.
Qed.

Lemma bfs_extends fuel adj :
  ∀ visited queue res,
    bfs fuel adj visited queue = Returned res → ∃ more, res = visited ++ more.
Proof.
  induction fuel as [|fuel IH]; intros visited queue res.
  - destruct queue; simpl; [|done]. intros [= <-]. exists []. by rewrite app_nil_r.
  - destruct queue as [|current rest]; simpl.
    { intros [= <-]. exists []. by rewrite app_nil_r. }
    destruct (adj !! current) as [nbrs|]; [|done].
    destruct (foldl_visit nbrs visited rest) as (new & -> & _). simpl.
    intros Hres. apply IH in Hres as [more ->].
    exists (new ++ more). by rewrite app_assoc.
Qed.

Lemma seedStep_own fuel adj idx reach t s :
  idx !! t = Some s →
  seedStep fuel adj idx reach t =
    if bool_decide (s ∈ reach) then Returned reach
    else visited ← bfs fuel adj [s] [s]; Returned (foldl setAdd reach visited).
Proof. intros Hs. unfold seedStep, getProperty. by rewrite Hs. Qed.

Lemma seedStep_not_own fuel adj idx reach t :
  idx !! t = None → seedStep fuel adj idx reach t = TypeError.
Proof.
  intros Hs. unfold seedStep, getProperty. rewrite Hs. by case_bool_decide.
Qed.

Lemma seedStep_nonempty fuel adj idx reach t reach' :
  seedStep fuel adj idx reach t = Returned reach' → reach' ≠ [].
Proof.
  destruct (idx !! t) as [s|] eqn:Hidx;
    [rewrite (seedStep_own _ _ _ _ _ s Hidx)|by rewrite seedStep_not_own].
  case_bool_decide as Hs.
  - intros [= <-] ->. by apply elem_of_nil in Hs.
  - destruct (bfs fuel adj [s] [s]) as [res| |] eqn:Hres; simpl; [|done..].
    intros [= <-] Hnil. apply bfs_extends in Hres as [more ->].
    assert (Hin : s ∈ foldl setAdd reach ([s] ++ more)).
    { assert (∀ l r, s ∈ r → s ∈ foldl setAdd r l) as Hkeep.
      { induction l as [|y l IH]; intros r Hr; simpl; [done|].
        apply IH. unfold setAdd. case_bool_decide; [done|].
        apply elem_of_app. auto. }
      simpl. apply Hkeep. unfold setAdd. rewrite bool_decide_eq_false_2 by done.
      apply elem_of_app. right. left. }
    rewrite Hnil in Hin. by apply elem_of_nil in Hin.
Qed.

Lemma seeds_nonempty fuel adj idx valid reach :
  valid ≠ [] →
  foldM (seedStep fuel adj idx) [] valid = Returned reach → reach ≠ [].
Proof.
  destruct valid as [|t valid]; [done|]. intros _. simpl.
  destruct (seedStep fuel adj idx [] t) as [r1| |] eqn:Hstep; simpl; [|done..].
  apply seedStep_nonempty in Hstep.
  apply (foldM_returned _ (λ r, r ≠ [])); [done|].
  intros r x r' _ _ Hr. by eapply seedStep_nonempty.
Qed.

Section Seeds.
Context (n : nat) (adj : list (list nat)) (idx : gmap string nat).
Hypothesis adj_length : length adj = n.
Hypothesis adj_bound : ∀ a b, edge adj a b → a < n ∧ b < n.

(** The reachable set is the union of the classes of the seeds. *)
Lemma seeds_total (valid : list string) :
  (∀ t, t ∈ valid → ∃ s, idx !! t = Some s ∧ s < n) →
  ∃ reachable,
    foldM (seedStep (S n) adj idx) [] valid = Returned reachable ∧
    NoDup reachable ∧
    ∀ x, x ∈ reachable ↔
         ∃ t s, t ∈ valid ∧ idx !! t = Some s ∧ connected adj s x.
Proof.
  intros Hvalid.
  destruct (foldM_prefix (seedStep (S n) adj idx)
    (λ done reach, NoDup reach ∧
       ∀ x, x ∈ reach ↔ ∃ t s, t ∈ done ∧ idx !! t = Some s ∧ connected adj s x)
    valid [] []) as (reach & Hrun & Hnd & Hreach).
  - split; [apply NoDup_nil_2|]. intros x. split.
    + by intros ?%elem_of_nil.
    + by intros (t & s & ?%elem_of_nil & _).
  - intros done t reach Ht [Hnd Hreach].
    destruct (Hvalid t Ht) as (s & Hs & Hlt).
    rewrite (seedStep_own _ _ _ _ _ s Hs). case_bool_decide as Hin.
    + eexists. split; [done|]. split; [done|]. intros x. rewrite Hreach.
      split.
      * intros (t' & s' & Ht' & Hs' & Hc). exists t', s'.
        split_and!; [|done..]. apply elem_of_app. auto.
      * intros (t' & s' & Ht' & Hs' & Hc).
        apply elem_of_app in Ht' as [Ht'|Ht']; [by exists t', s'|].
        apply list_elem_of_singleton in Ht' as ->. simplify_eq.
        apply Hreach in Hin as (t0 & s0 & Ht0 & Hs0 & Hc0).
        exists t0, s0. split_and!; [done..|]. by etrans.
    + destruct (bfs_spec n adj adj_length adj_bound s (S n)) as (res & -> & Hnd' & Hres);
        [done|lia|]. simpl.
      destruct (foldl_setAdd res reach Hnd) as [Hnd2 Hin2].
      eexists. split; [done|]. split; [done|].
      intros x. rewrite Hin2, Hreach, Hres. split.
      * intros [(t' & s' & Ht' & Hs' & Hc)|Hc].
        -- exists t', s'. split_and!; [|done..]. apply elem_of_app. auto.
        -- exists t, s. split_and!; [|done..]. apply elem_of_app. right. left.
      * intros (t' & s' & Ht' & Hs' & Hc).
        apply elem_of_app in Ht' as [Ht'|Ht']; [left; by exists t', s'|].
        apply list_elem_of_singleton in Ht' as ->. simplify_eq. by right.
  - by exists reach.
Qed.

(** The loop throws at the first requested name that is not an own
    property of the index. *)
Lemma seeds_throw (valid : list string) (reach : list nat) :
  (∀ t s, t ∈ valid → idx !! t = Some s → s < n) →
  (∃ t, t ∈ valid ∧ idx !! t = None) →
  foldM (seedStep (S n) adj idx) reach valid = TypeError.
Proof.
  revert reach. induction valid as [|x valid IH]; intros reach Hlt (t & Ht & Hnone).
  { by apply elem_of_nil in Ht. }
  simpl. destruct (idx !! x) as [s|] eqn:Hx.
  - assert (∃ t, t ∈ valid ∧ idx !! t = None) as Hrest.
    { apply elem_of_cons in Ht as [->|Ht]; [congruence|eauto]. }
    assert (∀ t s, t ∈ valid → idx !! t = Some s → s < n) as Hlt'.
    { intros t' s' Ht'. apply Hlt. by right. }
    rewrite (seedStep_own _ _ _ _ _ s Hx). case_bool_decide.
    + simpl. by apply IH.
    + destruct (bfs_spec n adj adj_length adj_bound s (S n)) as (res & -> & _);
        [by eapply Hlt; [left|]|lia|].
      simpl. by apply IH.
  - by rewrite seedStep_not_own.
Qed.
End Seeds.

(** ** The whole call *)

Section Detect.

Lemma thresholdGraph_sym n matrix thr a b :
  thresholdGraph n matrix thr a b → thresholdGraph n matrix thr b a.
Proof. unfold thresholdGraph. tauto. Qed.

Lemma thresholdGraph_bound n matrix thr a b :
  thresholdGraph n matrix thr a b → a < n ∧ b < n.
Proof. unfold thresholdGraph. tauto. Qed.

Lemma thresholdGraph_irrefl n matrix thr a : ¬ thresholdGraph n matrix thr a a.
Proof. unfold thresholdGraph. lia. Qed.

Lemma getProperty_defined idx t :
  getProperty idx t ≠ Undefined ↔ is_Some (idx !! t) ∨ t ∈ prototypeNames.
Proof.
  unfold getProperty. destruct (idx !! t) as [i|].
  - split; [eauto|done].
  - case_bool_decide; split; try done; [auto|].
    intros [[? ?]|?]; done.
Qed.

(** When no requested name is inherited, the filter keeps the tickers of
    the data. *)
Lemma validSeeds_own c mh :
  ownSeeds c mh →
  validSeeds c mh = filter (λ t, is_Some (tickerIndex c !! t)) mh.
Proof.
  unfold validSeeds, ownSeeds. induction mh as [|t mh IH]; intros Hown; [done|].
  rewrite !filter_cons, IH.
  2: { intros t' Ht'. apply Hown. by right. }
  destruct (decide (getProperty _ t ≠ Undefined)) as [Hd|Hd],
    (decide (is_Some (tickerIndex c !! t))) as [Hs|Hs]; try done.
  - apply getProperty_defined in Hd as [?|Hp]; [done|].
    destruct Hs. apply Hown; [left|done].
  - destruct Hd. apply getProperty_defined. auto.
Qed.

(** Requests without names of [Object.prototype] read no inherited
    member. *)
Lemma ownSeeds_plain c mh :
  Forall (λ t, t ∉ prototypeNames) mh → ownSeeds c mh.
Proof.
  rewrite Forall_forall. intros Hall t Ht Hp. by destruct (Hall t Ht).
Qed.

Lemma validSeeds_index c mh t :
  loaded c → ownSeeds c mh → t ∈ validSeeds c mh →
  t ∈ mh ∧ ∃ s, tickerIndex c !! t = Some s ∧ tickers c !! s = Some t ∧
                s < length (tickers c).
Proof.
  intros [Hidx _] Hown Ht. rewrite validSeeds_own in Ht by done.
  apply list_elem_of_filter in Ht as [[s Hs] Hin]. split; [done|].
  exists s. split; [done|]. rewrite Hidx in Hs.
  apply buildTickerIndex_lookup in Hs. split; [done|].
  by eapply lookup_lt_Some.
Qed.

Lemma validSeeds_elem c mh t :
  loaded c → ownSeeds c mh → t ∈ validSeeds c mh ↔ t ∈ mh ∧ t ∈ tickers c.
Proof.
  intros [Hidx _] Hown. rewrite validSeeds_own by done.
  rewrite list_elem_of_filter, Hidx, buildTickerIndex_is_Some. tauto.
Qed.

(** A call on loaded data with a valid seed returns; the pieces of its
    result are the threshold graph, the union of the classes of the
    seeds, and the partition into components. *)
Lemma detectCluster_run c mh thr :
  loaded c → ownSeeds c mh → validSeeds c mh ≠ [] →
  ∃ adj reachable part,
    length adj = length (tickers c) ∧
    (∀ a b, edge adj a b ↔
            thresholdGraph (length (tickers c)) (matrix c) thr a b) ∧
    NoDup reachable ∧
    (∀ x, x ∈ reachable ↔
          ∃ t s, t ∈ validSeeds c mh ∧ tickerIndex c !! t = Some s ∧
                 connected adj s x) ∧
    partInv (length (tickers c)) adj (tickers c) (validSeeds c mh)
            (length (tickers c)) part ∧
    detectCluster c mh thr =
      Returned {| clusterTickers :=
                    jsSort String.leb (map (tickerAt (tickers c)) reachable);
                  components := jsSort componentLe (found part);
                  error := None;
                  validMustHave := Some (validSeeds c mh);
                  threshold := Some thr;
                  totalNodes := Some (length (tickers c));
                  nodesAboveThreshold := Some (length reachable) |}.
Proof.
  intros Hload Hown Hvalid. pose proof Hload as [Hidx Hrows].
  destruct (buildAdj_graph (length (tickers c)) (matrix c) thr)
    as (adj & Hadj & Hlen & Hgraph); [lia|].
  assert (Hbound : ∀ a b, edge adj a b → a < length (tickers c) ∧ b < length (tickers c)).
  { intros a b Hab. eapply thresholdGraph_bound. by apply Hgraph. }
  assert (Hsym : ∀ a b, edge adj a b → edge adj b a).
  { intros a b Hab. apply Hgraph, thresholdGraph_sym. by apply Hgraph. }
  destruct (seeds_total _ adj (tickerIndex c) Hlen Hbound (validSeeds c mh))
    as (reachable & Hseeds & Hnd & Hreach).
  { intros t Ht.
    destruct (validSeeds_index c mh t Hload Hown Ht) as (_ & s & ? & _ & ?).
    eauto. }
  destruct (components_total _ adj (tickers c) (validSeeds c mh) Hlen Hbound Hsym)
    as (part & Hpart & Hinv).
  exists adj, reachable, part. split_and!; try done.
  unfold detectCluster. fold (validSeeds c mh).
  rewrite bool_decide_eq_false_2.
  2: { destruct (validSeeds c mh); [done|]. simpl. lia. }
  rewrite Hadj. simpl. rewrite Hseeds. simpl. rewrite Hpart. done.
Qed.

Lemma detectCluster_no_seed c mh thr :
  validSeeds c mh = [] →
  detectCluster c mh thr =
    Returned {| clusterTickers := []; components := [];
                error := Some noSeedError; validMustHave := None;
                threshold := None; totalNodes := None;
                nodesAboveThreshold := None |}.
Proof.
  intros Hvalid. unfold detectCluster. fold (validSeeds c mh).
  by rewrite Hvalid.
Qed.

(** Without the error marker, the cluster list is never empty. *)
Lemma cluster_nonempty c mh thr r :
  detectCluster c mh thr = Returned r →
  validSeeds c mh ≠ [] → error r = None ∧ clusterTickers r ≠ [].
Proof.
  unfold detectCluster. fold (validSeeds c mh). intros Hrun Hvalid.
  rewrite bool_decide_eq_false_2 in Hrun.
  2: { destruct (validSeeds c mh); [done|]. simpl. lia. }
  destruct (buildAdj _ _ _) as [adj| |]; simpl in Hrun; [|done..].
  destruct (foldM (seedStep _ _ _) _ _) as [reach| |] eqn:Hseeds;
    simpl in Hrun; [|done..].
  destruct (foldM (componentStep _ _ _ _) _ _) as [part| |];
    simpl in Hrun; [|done..].
  injection Hrun as <-. simpl. split; [done|].
  apply seeds_nonempty in Hseeds; [|done].
  intros Hnil. apply (f_equal length) in Hnil.
  rewrite jsSort_length, length_map in Hnil.
  destruct reach; simpl in *; [done|lia].
Qed.

(** A requested name that [Object.prototype] has and the data lack passes
    the filter, and the seed loop throws on it. *)
Lemma inherited_seed_throws c mh thr :
  loaded c →
  (∃ t, t ∈ mh ∧ t ∈ prototypeNames ∧ t ∉ tickers c) →
  detectCluster c mh thr = TypeError.
Proof.
  intros Hload (t & Ht & Hproto & Hdata). pose proof Hload as [Hidx Hrows].
  assert (Hnone : tickerIndex c !! t = None).
  { apply eq_None_not_Some. rewrite Hidx, buildTickerIndex_is_Some. done. }
  assert (Hvalid : t ∈ validSeeds c mh).
  { apply list_elem_of_filter. split; [|done].
    apply getProperty_defined. auto. }
  destruct (buildAdj_graph (length (tickers c)) (matrix c) thr)
    as (adj & Hadj & Hlen & Hgraph); [lia|].
  assert (Hbound : ∀ a b, edge adj a b → a < length (tickers c) ∧ b < length (tickers c)).
  { intros a b Hab. eapply thresholdGraph_bound. by apply Hgraph. }
  unfold detectCluster. fold (validSeeds c mh).
  rewrite bool_decide_eq_false_2.
  2: { destruct (validSeeds c mh); [by apply elem_of_nil in Hvalid|]. simpl. lia. }
  rewrite Hadj. simpl.
  rewrite (seeds_throw _ adj (tickerIndex c) Hlen Hbound); [done| |eauto].
  intros t' s' _ Hs'. rewrite Hidx in Hs'.
  apply buildTickerIndex_lookup in Hs'. by eapply lookup_lt_Some.
Qed.

(** A call on loaded data either reads no inherited name or throws. *)
Lemma ownSeeds_or_throws c mh thr :
  loaded c → ownSeeds c mh ∨ detectCluster c mh thr = TypeError.
Proof.
  intros Hload.
  destruct (decide (Exists (λ t, t ∈ prototypeNames ∧ tickerIndex c !! t = None) mh))
    as [Hex|Hall].
  - right. apply Exists_exists in Hex as (t & Ht & Hp & Hnone).
    apply inherited_seed_throws; [done|]. exists t. split_and!; [done..|].
    destruct Hload as [Hidx _]. rewrite Hidx in Hnone.
    intros Hin%buildTickerIndex_is_Some. rewrite Hnone in Hin. by destruct Hin.
  - left. intros t Ht Hp. destruct (tickerIndex c !! t) eqn:E; [eauto|].
    destruct Hall. apply Exists_exists. eauto.
Qed.
End Detect.

(** ** The scenarios of the specification *)

(** Edges A-B and C-D only, must-have [A], threshold 0.5. *)
Example scenario_two_pairs :
  ∃ r, detectCluster demo ["A"] (1 # 2) = Returned r ∧
       clusterTickers r = ["A"; "B"] ∧
       map componentTickers (components r) = [["A"; "B"]; ["C"; "D"]] ∧
       map containsMustHave (components r) = [true; false].
Proof. eexists. split; [by vm_compute|]. by vm_compute. Qed.

(** The flagged component ranks first although it was discovered second. *)
Example scenario_flag_first :
  ∃ r, detectCluster demo ["D"] (1 # 2) = Returned r ∧
       map id (components r) = [1; 0]%Z ∧
       map containsMustHave (components r) = [true; false].
Proof. eexists. split; [by vm_compute|]. by vm_compute. Qed.

(** A threshold above every correlation leaves no edge and no component. *)
Example scenario_degenerate_threshold :
  buildAdj 4 (matrix demo) (11 # 10) = Returned [[]; []; []; []] ∧
  ∃ r, detectCluster demo ["A"] (11 # 10) = Returned r ∧ components r = [].
Proof. split; [by vm_compute|]. eexists. split; [by vm_compute|]. done. Qed.

(** The adjacency lists list neighbours in ascending order. *)
Example scenario_adjacency :
  buildAdj 4 (matrix demo) (1 # 20) = Returned [[1; 2]; [0; 3]; [0; 3]; [1; 2]].
Proof. by vm_compute. Qed.

(** ** Claims about the seeds and the adjacency lists *)

Lemma loaded_demo : loaded demo.
Proof. by split. Qed.

Lemma foldM_ext {A B : Type} (f g : B → A → outcome B) l :
  (∀ b x, x ∈ l → f b x = g b x) → ∀ b, foldM f b l = foldM g b l.
Proof.
  induction l as [|x l IH]; intros Hfg b; simpl; [done|].
  rewrite Hfg by left. destruct (g b x); simpl; [|done..].
  apply IH. intros ???. apply Hfg. by right.
Qed.

Lemma buildAdj_ext n m1 m2 thr1 thr2 :
  (∀ i j, i < j < n → qualifies m1 thr1 i j = qualifies m2 thr2 i j) →
  buildAdj n m1 thr1 = buildAdj n m2 thr2.
Proof.
  intros Hq. unfold buildAdj. apply foldM_ext.
  intros adj i Hi%elem_of_seq. apply foldM_ext.
  intros adj' j Hj%elem_of_seq. unfold linkPair. rewrite Hq by lia. done.
Qed.

(** C3: the filter meant to keep the tickers of the data also keeps every
    requested name that [Object.prototype] has.  When no such name is read,
    a request without a ticker of the data gets the error record with empty
    clusterTickers and components, and a request with one returns without
    the marker; a request with such a name throws a TypeError instead. *)
Theorem seed_filter_keeps_inherited_names
    (c : CorrData) (mh : list string) (thr : Q) :
  loaded c →
  (ownSeeds c mh →
   ((∀ t, t ∈ mh → t ∉ tickers c) →
    ∃ r, detectCluster c mh thr = Returned r ∧
         clusterTickers r = [] ∧ components r = [] ∧
         error r = Some noSeedError) ∧
   ((∃ t, t ∈ mh ∧ t ∈ tickers c) →
    ∃ r, detectCluster c mh thr = Returned r ∧ error r = None)) ∧
  ((∃ t, t ∈ mh ∧ t ∈ prototypeNames ∧ t ∉ tickers c) →
   detectCluster c mh thr = TypeError).
Proof.
  intros Hload. split; [|by apply inherited_seed_throws].
  intros Hown. split.
  - intros Hnone. eexists. split; [apply detectCluster_no_seed|done].
    destruct (validSeeds c mh) as [|t l] eqn:Hv; [done|]. exfalso.
    assert (Ht : t ∈ validSeeds c mh) by (rewrite Hv; left).
    apply (validSeeds_elem c mh t Hload Hown) in Ht as [Hin Htk].
    by apply (Hnone t).
  - intros (t & Hin & Htk).
    assert (Hvalid : validSeeds c mh ≠ []).
    { intros Hnil. assert (Ht : t ∈ validSeeds c mh) by (by apply validSeeds_elem).
      rewrite Hnil in Ht. by apply elem_of_nil in Ht. }
    destruct (detectCluster_run c mh thr Hload Hown Hvalid)
      as (adj & reachable & part & _ & _ & _ & _ & _ & ->).
    eexists. by split.
Qed.

Lemma seed_filter_keeps_inherited_names_witness :
  loaded demo ∧
  (ownSeeds demo ["Z"] ∧ (∀ t, t ∈ ["Z"] → t ∉ tickers demo) ∧
   ∃ r, detectCluster demo ["Z"] (1 # 2) = Returned r ∧
        clusterTickers r = [] ∧ components r = [] ∧
        error r = Some noSeedError) ∧
  (ownSeeds demo ["Z"; "C"] ∧ (∃ t, t ∈ ["Z"; "C"] ∧ t ∈ tickers demo) ∧
   ∃ r, detectCluster demo ["Z"; "C"] (1 # 2) = Returned r ∧ error r = None) ∧
  ((∃ t, t ∈ ["constructor"] ∧ t ∈ prototypeNames ∧ t ∉ tickers demo) ∧
   detectCluster demo ["constructor"] (1 # 2) = TypeError).
Proof.
  assert (Hown1 : ownSeeds demo ["Z"]).
  { apply ownSeeds_plain, (bool_decide_unpack _). by vm_compute. }
  assert (Hnone : ∀ t, t ∈ ["Z"] → t ∉ tickers demo).
  { intros t ->%list_elem_of_singleton. apply (bool_decide_unpack _). by vm_compute. }
  assert (Hown2 : ownSeeds demo ["Z"; "C"]).
  { apply ownSeeds_plain, (bool_decide_unpack _). by vm_compute. }
  assert (Hsome : ∃ t, t ∈ ["Z"; "C"] ∧ t ∈ tickers demo).
  { exists "C". split; apply (bool_decide_unpack _); by vm_compute. }
  assert (H : ∃ t, t ∈ ["constructor"] ∧ t ∈ prototypeNames ∧ t ∉ tickers demo).
  { exists "constructor". split_and!; apply (bool_decide_unpack _); by vm_compute. }
  split; [exact loaded_demo|]. split; [|split].
  - split; [exact Hown1|]. split; [exact Hnone|].
    exact (proj1 (proj1 (seed_filter_keeps_inherited_names demo ["Z"] (1 # 2)
                           loaded_demo) Hown1) Hnone).
  - split; [exact Hown2|]. split; [exact Hsome|].
    exact (proj2 (proj1 (seed_filter_keeps_inherited_names demo ["Z"; "C"] (1 # 2)
                           loaded_demo) Hown2) Hsome).
  - split; [exact H|].
    exact (proj2 (seed_filter_keeps_inherited_names demo ["constructor"] (1 # 2)
                    loaded_demo) H).
Defined.

(** C2 fails: no call with a valid must-have identifier returns an empty
    clusterTickers list. *)
Lemma empty_cluster_needs_error_marker :
  ¬ ∃ c mh thr r,
      validSeeds c mh ≠ [] ∧
      detectCluster c mh thr = Returned r ∧
      clusterTickers r = [].
Proof.
  intros (c & mh & thr & r & Hvalid & Hrun & Hnil).
  by destruct (cluster_nonempty c mh thr r Hrun Hvalid) as [_ Hne].
Qed.

(** C2 (amended): a call with at least one valid must-have identifier and
    no name read from [Object.prototype] returns, without the error marker,
    a non-empty clusterTickers list that contains every valid identifier,
    also one without qualifying edges; an empty cluster list comes only
    with the error marker. *)
Theorem valid_seed_is_listed (c : CorrData) (mh : list string) (thr : Q) :
  loaded c → ownSeeds c mh → validSeeds c mh ≠ [] →
  ∃ r, detectCluster c mh thr = Returned r ∧
       error r = None ∧ clusterTickers r ≠ [] ∧
       ∀ t, t ∈ validSeeds c mh → t ∈ clusterTickers r.
Proof.
  intros Hload Hown Hvalid.
  destruct (detectCluster_run c mh thr Hload Hown Hvalid)
    as (adj & reachable & part & _ & _ & _ & Hreach & _ & Hrun).
  eexists. split; [exact Hrun|].
  destruct (cluster_nonempty c mh thr _ Hrun Hvalid) as [He Hne].
  split_and!; [done..|]. simpl. intros t Ht.
  destruct (validSeeds_index c mh t Hload Hown Ht) as (_ & s & Hs & Hts & _).
  apply jsSort_elem, list_elem_of_fmap. exists s. split.
  - unfold tickerAt. by rewrite Hts.
  - apply Hreach. exists t, s. split_and!; [done..|]. apply rtc_refl.
Qed.

Lemma valid_seed_is_listed_witness :
  loaded demo ∧ ownSeeds demo ["A"] ∧
  validSeeds demo ["A"] ≠ [] ∧
  ∃ r, detectCluster demo ["A"] (11 # 10) = Returned r ∧
       error r = None ∧ clusterTickers r ≠ [] ∧
       ∀ t, t ∈ validSeeds demo ["A"] → t ∈ clusterTickers r.
Proof.
  assert (Hown : ownSeeds demo ["A"]).
  { apply ownSeeds_plain, (bool_decide_unpack _). by vm_compute. }
  split; [exact loaded_demo|]. split; [exact Hown|]. split; [by vm_compute|].
  apply (valid_seed_is_listed demo ["A"] (11 # 10) loaded_demo Hown). by vm_compute.
Defined.

(** C10: for every matrix, symmetric or not, the adjacency lists are
    symmetric and free of self-loops: for i < j, j is in adj[i] iff i is in
    adj[j] iff |matrix[i][j]| >= threshold; only entries above the diagonal
    are read. *)
Theorem adjacency_symmetric_without_loops
    (n : nat) (matrix : list (list Q)) (thr : Q) :
  n ≤ length matrix →
  ∃ adj, buildAdj n matrix thr = Returned adj ∧ length adj = n ∧
    (∀ i j, i < j < n →
       (edge adj i j ↔ aboveThreshold matrix thr i j = true) ∧
       (edge adj j i ↔ aboveThreshold matrix thr i j = true)) ∧
    (∀ i, ¬ edge adj i i) ∧
    (∀ matrix', length matrix' = length matrix →
       (∀ i j, i < j → entry matrix' i j = entry matrix i j) →
       buildAdj n matrix' thr = Returned adj).
Proof.
  intros Hm. destruct (buildAdj_graph n matrix thr Hm) as (adj & Hrun & Hlen & Hg).
  exists adj. split_and!; [done..| | |].
  - intros i j Hij. rewrite !Hg. unfold thresholdGraph.
    split; split; intros H; try (split_and!; [lia..|]); intuition lia.
  - intros i Hi. apply Hg in Hi. by apply thresholdGraph_irrefl in Hi.
  - intros matrix' Hlen' Hentry. rewrite <-Hrun. apply buildAdj_ext.
    intros i j Hij. rewrite !qualifies_returned by lia.
    unfold aboveThreshold. by rewrite Hentry by lia.
Qed.

Lemma adjacency_symmetric_without_loops_witness :
  4 ≤ length (matrix demo) ∧
  ∃ adj, buildAdj 4 (matrix demo) (1 # 2) = Returned adj ∧ length adj = 4 ∧
    (∀ i j, i < j < 4 →
       (edge adj i j ↔ aboveThreshold (matrix demo) (1 # 2) i j = true) ∧
       (edge adj j i ↔ aboveThreshold (matrix demo) (1 # 2) i j = true)) ∧
    (∀ i, ¬ edge adj i i) ∧
    (∀ matrix', length matrix' = length (matrix demo) →
       (∀ i j, i < j → entry matrix' i j = entry (matrix demo) i j) →
       buildAdj 4 matrix' (1 # 2) = Returned adj).
Proof.
  split; [simpl; lia|].
  apply (adjacency_symmetric_without_loops 4 (matrix demo) (1 # 2)).
  simpl. lia.
Defined.

Lemma qualifies_Qeq m1 m2 thr1 thr2 i j :
  Forall2 (Forall2 Qeq) m1 m2 → (thr1 == thr2)%Q →
  qualifies m1 thr1 i j = qualifies m2 thr2 i j.
Proof.
  intros Hm Hthr. unfold qualifies.
  rewrite Forall2_lookup in Hm. specialize (Hm i).
  destruct Hm as [row1 row2 Hrow|]; [|done]. f_equal.
  rewrite Forall2_lookup in Hrow. specialize (Hrow j).
  destruct Hrow as [x y Hxy|]; [|done].
  by rewrite Hxy, Hthr.
Qed.

(** Rationals enter a call through their values only: the same tickers,
    index and must-have sequence with numerically equal matrices and
    thresholds, whatever the fractions that stand for them, end the same
    way. *)
Lemma detectCluster_numerical
    (c1 c2 : CorrData) (mh1 mh2 : list string) (thr1 thr2 : Q) :
  tickers c1 = tickers c2 → tickerIndex c1 = tickerIndex c2 →
  Forall2 (Forall2 Qeq) (matrix c1) (matrix c2) →
  mh1 = mh2 → (thr1 == thr2)%Q →
  sameOutput (detectCluster c1 mh1 thr1) (detectCluster c2 mh2 thr2).
Proof.
  intros Htk Hidx Hm -> Hthr. unfold detectCluster.
  rewrite Htk, Hidx.
  rewrite (buildAdj_ext _ (matrix c1) (matrix c2) thr1 thr2)
    by (intros i j _; by apply qualifies_Qeq).
  case_bool_decide; [done|].
  destruct (buildAdj _ _ _) as [adj| |]; simpl; [|done..].
  destruct (foldM (seedStep _ _ _) _ _) as [reach| |]; simpl; [|done..].
  destruct (foldM (componentStep _ _ _ _) _ _) as [part| |]; simpl; done.
Qed.

(** ** Claims about the components *)

Section ComponentClaims.

Lemma componentLe_total a b : componentLe a b = true ∨ componentLe b a = true.
Proof.
  unfold componentLe, compareComponents.
  destruct (containsMustHave a), (containsMustHave b); simpl;
    repeat case_bool_decide; try done; try lia; auto.
Qed.

Lemma componentLe_trans a b c :
  componentLe a b = true → componentLe b c = true → componentLe a c = true.
Proof.
  unfold componentLe, compareComponents.
  destruct (containsMustHave a), (containsMustHave b), (containsMustHave c);
    simpl; repeat case_bool_decide; try done; try lia.
Qed.

Lemma components_sorted l :
  StronglySorted (λ a b, componentLe a b = true) (jsSort componentLe l).
Proof. apply jsSort_sorted; [apply componentLe_total|apply componentLe_trans]. Qed.

Lemma before_lookup_inv {A : Type} (l : list A) a b :
  before l a b → ∃ i j, i < j ∧ l !! i = Some a ∧ l !! j = Some b.
Proof.
  intros (l1 & l2 & l3 & ->).
  exists (length l1), (length l1 + S (length l2)). split_and!; [lia| |].
  - by rewrite lookup_app_r, Nat.sub_diag.
  - rewrite lookup_app_r by lia.
    replace (length l1 + S (length l2) - length l1) with (S (length l2)) by lia.
    simpl. by rewrite lookup_app_r, Nat.sub_diag.
Qed.

Lemma aboveThreshold_sym matrix thr i j :
  symmetricMatrix matrix →
  aboveThreshold matrix thr i j = aboveThreshold matrix thr j i.
Proof.
  intros Hsym. specialize (Hsym i j). unfold aboveThreshold.
  destruct (entry matrix i j) as [x|], (entry matrix j i) as [y|]; try done.
  by rewrite Hsym.
Qed.

Lemma thresholdGraph_qualifying n matrix thr a b :
  symmetricMatrix matrix →
  thresholdGraph n matrix thr a b ↔
  a < n ∧ b < n ∧ qualifyingEdge matrix thr a b.
Proof.
  intros Hsym. unfold thresholdGraph, qualifyingEdge.
  rewrite (aboveThreshold_sym matrix thr b a Hsym).
  split; [intros (? & ? & [[? ?]|[? ?]])|intros (? & ? & ? & ?)];
    split_and!; try done; try lia.
  destruct (decide (a < b)); [left|right]; split; [lia|done|lia|done].
Qed.

Lemma found_NoDup n adj tks valid i part :
  partInv n adj tks valid i part → NoDup (found part).
Proof.
  intros Hinv. apply NoDup_alt. intros k1 k2 c H1 H2.
  destruct (pi_found _ _ _ _ _ _ Hinv k1 c H1) as (E1 & _).
  destruct (pi_found _ _ _ _ _ _ Hinv k2 c H2) as (E2 & _).
  rewrite E2 in E1 at 1. apply (f_equal id) in E1. simpl in E1. lia.
Qed.
End ComponentClaims.

Lemma symmetric_demo : symmetricMatrix (matrix demo).
Proof.
  intros i j.
  destruct i as [|[|[|[|i]]]], j as [|[|[|[|j]]]];
    try exact I; vm_compute; try exact I; try reflexivity.
Qed.

(** C4 fails as stated: a call without a valid must-have identifier returns
    an empty components list although node 0 has a qualifying edge. *)
Lemma no_components_without_seed :
  symmetricMatrix (matrix demo) ∧
  hasDegree 4 (matrix demo) (1 # 2) 0 ∧
  ∃ r, detectCluster demo ["Z"] (1 # 2) = Returned r ∧
       ¬ ∃ comp, comp ∈ components r ∧ 0 ∈ indices comp.
Proof.
  split; [exact symmetric_demo|]. split.
  - exists 1. split; [lia|]. split; [done|]. by vm_compute.
  - eexists. split; [by vm_compute|]. simpl.
    intros (comp & Hin & _). by apply elem_of_nil in Hin.
Qed.

(** C4 (amended): for every call on a symmetric matrix with at least one
    valid must-have identifier and no name read from [Object.prototype],
    every node of a returned component has a qualifying edge to another
    node of the same component, and every node of degree >= 1 appears in
    exactly one component, once. *)
Theorem components_partition_linked_nodes
    (c : CorrData) (mh : list string) (thr : Q) :
  loaded c → symmetricMatrix (matrix c) → ownSeeds c mh →
  validSeeds c mh ≠ [] →
  ∃ r, detectCluster c mh thr = Returned r ∧
    (∀ comp x, comp ∈ components r → x ∈ indices comp →
       ∃ y, y ∈ indices comp ∧ qualifyingEdge (matrix c) thr x y) ∧
    (∀ x, x < length (tickers c) →
       hasDegree (length (tickers c)) (matrix c) thr x →
       ∃ k comp, components r !! k = Some comp ∧ x ∈ indices comp ∧
         NoDup (indices comp) ∧
         ∀ k' comp', components r !! k' = Some comp' → x ∈ indices comp' →
                     k' = k).
Proof.
  intros Hload Hsym Hown Hvalid.
  destruct (detectCluster_run c mh thr Hload Hown Hvalid)
    as (adj & reachable & part & Hlen & Hgraph & _ & _ & Hinv & Hrun).
  eexists. split; [exact Hrun|]. simpl.
  assert (Hedge : ∀ a b, edge adj a b → qualifyingEdge (matrix c) thr a b).
  { intros a b Hab. apply Hgraph, thresholdGraph_qualifying in Hab; [|done].
    tauto. }
  assert (Hadj_sym : ∀ a b, edge adj a b → edge adj b a).
  { intros a b Hab. apply Hgraph, thresholdGraph_sym. by apply Hgraph. }
  split.
  - intros comp x Hcomp Hx. apply jsSort_elem in Hcomp.
    apply list_elem_of_lookup in Hcomp as [k Hk].
    destruct (pi_found _ _ _ _ _ _ Hinv k comp Hk)
      as (_ & _ & root & rest & Hroot & _ & [y Hy] & Hcls & _).
    destruct (decide (x = root)) as [->|Hne].
    + exists y. split; [|by apply Hedge]. apply Hcls. by apply rtc_once.
    + destruct (connected_last adj Hadj_sym root x) as (z & Hz);
        [by apply Hcls|done|].
      exists z. split; [|by apply Hedge].
      apply Hcls. eapply rtc_r; [by apply Hcls|done].
  - intros x Hx (y & Hy & Hxy).
    assert (Hxy' : edge adj x y).
    { apply Hgraph, thresholdGraph_qualifying; [done|]. done. }
    assert (Hmark : componentOf part !! x ≠ Some (-1)%Z).
    { intros Hm. apply (pi_seen _ _ _ _ _ _ Hinv) in Hm; [|done].
      destruct Hxy' as (l & Hl & Hin). simplify_eq. by apply elem_of_nil in Hin. }
    assert (Hlt : x < length (componentOf part)).
    { by rewrite (pi_length _ _ _ _ _ _ Hinv). }
    destruct (lookup_lt_is_Some_2 _ _ Hlt) as [m Hm].
    destruct (pi_marks _ _ _ _ _ _ Hinv x m Hm) as [->|(k & comp & -> & Hk & Hin)];
      [done|].
    assert (Hcomp : comp ∈ jsSort componentLe (found part)).
    { apply jsSort_elem. by eapply list_elem_of_lookup_2. }
    apply list_elem_of_lookup in Hcomp as [p Hp].
    exists p, comp. split_and!; [done..| |].
    + by destruct (pi_found _ _ _ _ _ _ Hinv k comp Hk) as (_ & ? & _).
    + intros p' comp' Hp' Hin'.
      assert (Hcomp' : comp' ∈ found part).
      { apply (jsSort_elem componentLe). by eapply list_elem_of_lookup_2. }
      apply list_elem_of_lookup in Hcomp' as [k' Hk'].
      destruct (pi_found _ _ _ _ _ _ Hinv k comp Hk) as (_ & _ & r1 & rest1 & _ & _ & _ & _ & Hm1).
      destruct (pi_found _ _ _ _ _ _ Hinv k' comp' Hk') as (_ & _ & r2 & rest2 & _ & _ & _ & _ & Hm2).
      destruct (Hm1 x Hin) as [E1 _]. destruct (Hm2 x Hin') as [E2 _].
      assert (Hkk : k' = k) by (rewrite E1 in E2; injection E2; lia).
      subst k'.
      assert (Hcc : comp' = comp) by congruence.
      subst comp'.
      eapply NoDup_lookup; [|exact Hp'|exact Hp].
      rewrite jsSort_perm. by eapply found_NoDup.
Qed.

Lemma components_partition_linked_nodes_witness :
  loaded demo ∧ symmetricMatrix (matrix demo) ∧ ownSeeds demo ["A"] ∧
  validSeeds demo ["A"] ≠ [] ∧
  ∃ r, detectCluster demo ["A"] (1 # 2) = Returned r ∧
    (∀ comp x, comp ∈ components r → x ∈ indices comp →
       ∃ y, y ∈ indices comp ∧ qualifyingEdge (matrix demo) (1 # 2) x y) ∧
    (∀ x, x < length (tickers demo) →
       hasDegree (length (tickers demo)) (matrix demo) (1 # 2) x →
       ∃ k comp, components r !! k = Some comp ∧ x ∈ indices comp ∧
         NoDup (indices comp) ∧
         ∀ k' comp', components r !! k' = Some comp' → x ∈ indices comp' →
                     k' = k).
Proof.
  assert (Hown : ownSeeds demo ["A"]).
  { apply ownSeeds_plain, (bool_decide_unpack _). by vm_compute. }
  split; [exact loaded_demo|]. split; [exact symmetric_demo|].
  split; [exact Hown|]. split; [by vm_compute|].
  apply (components_partition_linked_nodes demo ["A"] (1 # 2)
           loaded_demo symmetric_demo Hown). by vm_compute.
Defined.

(** C5: in every components list that a call returns, a component that
    contains a must-have node precedes one that does not; among components
    that agree on that flag the larger precedes; components equal on flag
    and size keep their discovery order, which is the ascending order of
    their smallest members.  A call that reads no inherited name returns
    such a list. *)
Theorem components_order (c : CorrData) (mh : list string) (thr : Q) :
  loaded c →
  (ownSeeds c mh → ∃ r, detectCluster c mh thr = Returned r) ∧
  ∀ r, detectCluster c mh thr = Returned r →
    ∀ i j A B,
      components r !! i = Some A → components r !! j = Some B →
      (containsMustHave A = true → containsMustHave B = false → i < j) ∧
      (containsMustHave A = containsMustHave B → size B < size A → i < j) ∧
      (containsMustHave A = containsMustHave B → size A = size B → i < j →
       (id A < id B)%Z ∧
       ∃ a b restA restB,
         indices A = a :: restA ∧ indices B = b :: restB ∧
         (∀ x, x ∈ indices A → a ≤ x) ∧ (∀ x, x ∈ indices B → b ≤ x) ∧
         a < b).
Proof.
  intros Hload. split.
  { intros Hown. destruct (decide (validSeeds c mh = [])) as [Hnil|Hvalid].
    - eexists. by apply detectCluster_no_seed.
    - destruct (detectCluster_run c mh thr Hload Hown Hvalid)
        as (adj & reachable & part & _ & _ & _ & _ & _ & Hrun).
      eauto. }
  intros r Hret.
  destruct (decide (validSeeds c mh = [])) as [Hnil|Hvalid].
  { rewrite detectCluster_no_seed in Hret by done. injection Hret as <-.
    simpl. intros i j A B Hi. by rewrite lookup_nil in Hi. }
  destruct (ownSeeds_or_throws c mh thr Hload) as [Hown|Hthrow]; [|congruence].
  destruct (detectCluster_run c mh thr Hload Hown Hvalid)
    as (adj & reachable & part & _ & _ & _ & _ & Hinv & Hrun).
  rewrite Hrun in Hret. injection Hret as <-. simpl.
  pose proof (components_sorted (found part)) as Hsorted.
  assert (Hle : ∀ p q X Y, p < q →
            jsSort componentLe (found part) !! p = Some X →
            jsSort componentLe (found part) !! q = Some Y →
            componentLe X Y = true).
  { intros p q X Y Hpq HX HY.
    eapply (StronglySorted_before _ _ X Y Hsorted). by eapply before_lookup. }
  intros i j A B HA HB. split_and!.
  - intros HcA HcB. destruct (decide (i < j)) as [|Hge]; [done|]. exfalso.
    destruct (decide (i = j)) as [->|Hne]; [congruence|].
    assert (H : componentLe B A = true) by (eapply (Hle j i); [lia|done..]).
    unfold componentLe, compareComponents in H. rewrite HcA, HcB in H.
    vm_compute in H. done.
  - intros Hc Hsz. destruct (decide (i < j)) as [|Hge]; [done|]. exfalso.
    destruct (decide (i = j)) as [->|Hne].
    { assert (A = B) by congruence. subst. lia. }
    assert (H : componentLe B A = true) by (eapply (Hle j i); [lia|done..]).
    unfold componentLe, compareComponents in H. rewrite Hc in H.
    rewrite (bool_decide_eq_false_2 (containsMustHave B ≠ containsMustHave B)) in H
      by (intros E; by apply E).
    case_bool_decide; [lia|done].
  - intros Hc Hsz Hij.
    assert (Htie : componentLe B A = true).
    { unfold componentLe, compareComponents. rewrite Hc.
      rewrite (bool_decide_eq_false_2 (containsMustHave B ≠ containsMustHave B))
        by (intros E; by apply E).
      apply bool_decide_eq_true_2. lia. }
    assert (Hbefore : before (found part) A B).
    { eapply jsSort_stable; [|exact Htie]. by eapply before_lookup. }
    apply before_lookup_inv in Hbefore as (k1 & k2 & Hk & H1 & H2).
    destruct (pi_found _ _ _ _ _ _ Hinv k1 A H1)
      as (EA & _ & a & restA & HrA & _ & _ & _ & HminA).
    destruct (pi_found _ _ _ _ _ _ Hinv k2 B H2)
      as (EB & _ & b & restB & HrB & _ & _ & _ & HminB).
    split.
    + rewrite EA, EB. simpl. lia.
    + exists a, b, restA, restB. split_and!; [done..| | |].
      * intros x Hx. by destruct (HminA x Hx).
      * intros x Hx. by destruct (HminB x Hx).
      * eapply (pi_order _ _ _ _ _ _ Hinv k1 k2 A B); [done..| |].
        -- by rewrite HrA.
        -- by rewrite HrB.
Qed.

Lemma components_order_witness :
  loaded demo ∧ ownSeeds demo ["D"] ∧
  ∃ r, detectCluster demo ["D"] (1 # 2) = Returned r ∧
    ∀ i j A B,
      components r !! i = Some A → components r !! j = Some B →
      (containsMustHave A = true → containsMustHave B = false → i < j) ∧
      (containsMustHave A = containsMustHave B → size B < size A → i < j) ∧
      (containsMustHave A = containsMustHave B → size A = size B → i < j →
       (id A < id B)%Z ∧
       ∃ a b restA restB,
         indices A = a :: restA ∧ indices B = b :: restB ∧
         (∀ x, x ∈ indices A → a ≤ x) ∧ (∀ x, x ∈ indices B → b ≤ x) ∧
         a < b).
Proof.
  assert (Hown : ownSeeds demo ["D"]).
  { apply ownSeeds_plain, (bool_decide_unpack _). by vm_compute. }
  split; [exact loaded_demo|]. split; [exact Hown|].
  destruct (components_order demo ["D"] (1 # 2) loaded_demo) as [Htotal Hlaws].
  destruct (Htotal Hown) as [r Hr]. exists r. split; [exact Hr|].
  exact (Hlaws r Hr).
Defined.

(** ** The cluster as a union of components *)

Section ClusterClaims.

Lemma leb_sorted_unique (l1 l2 : list string) :
  StronglySorted (λ a b, String.leb a b = true) l1 →
  StronglySorted (λ a b, String.leb a b = true) l2 →
  l1 ≡ₚ l2 → l1 = l2.
Proof.
  intros H1 H2 Hp.
  apply (StronglySorted_unique String.le); [| |done].
  - eapply StronglySorted_mono; [|exact H1]. intros a b. apply Is_true_true.
  - eapply StronglySorted_mono; [|exact H2]. intros a b. apply Is_true_true.
Qed.

Lemma leb_trans a b c :
  String.leb a b = true → String.leb b c = true → String.leb a c = true.
Proof.
  rewrite <-!Is_true_true. intros Hab Hbc.
  change (String.le a c). by etrans; [exact Hab|exact Hbc].
Qed.

Lemma strings_sorted l :
  StronglySorted (λ a b, String.leb a b = true) (jsSort String.leb l).
Proof. apply jsSort_sorted; [apply String.leb_total|apply leb_trans]. Qed.

Lemma elem_of_concat {A : Type} (x : A) (ls : list (list A)) :
  x ∈ concat ls ↔ ∃ l, l ∈ ls ∧ x ∈ l.
Proof.
  induction ls as [|l ls IH]; simpl.
  - split; [by intros ?%elem_of_nil|by intros (l & ?%elem_of_nil & _)].
  - rewrite elem_of_app, IH. split.
    + intros [H|(l' & Hl' & Hx)]; [exists l; split; [left|done]|].
      exists l'. split; [by right|done].
    + intros (l' & [->|Hl']%elem_of_cons & Hx); [by left|].
      right. by exists l'.
Qed.

Lemma existsb_elem {A : Type} (f : A → bool) (l : list A) :
  existsb f l = true ↔ ∃ x, x ∈ l ∧ f x = true.
Proof.
  rewrite existsb_exists. split; intros (x & Hx & Hf); exists x;
    (split; [by apply list_elem_of_In|done]).
Qed.

Lemma connected_bound n adj s x :
  (∀ a b, edge adj a b → a < n ∧ b < n) →
  connected adj s x → s < n → x < n.
Proof.
  intros Hb Hc Hs. apply rtc_inv_r in Hc as [->|(z & _ & Hz)]; [done|].
  by destruct (Hb z x Hz).
Qed.

Lemma flaggedTickers_elem n adj c mh i part t r :
  partInv n adj (tickers c) (validSeeds c mh) i part →
  components r = jsSort componentLe (found part) →
  t ∈ flaggedTickers r ↔
  ∃ k comp x y t',
    found part !! k = Some comp ∧ x ∈ indices comp ∧ y ∈ indices comp ∧
    t = tickerAt (tickers c) x ∧
    tickers c !! y = Some t' ∧ t' ∈ validSeeds c mh.
Proof.
  intros Hinv Hcomps. unfold flaggedTickers. rewrite Hcomps, elem_of_concat.
  split.
  - intros (l & Hl & Ht). apply list_elem_of_fmap in Hl as (comp & -> & Hcomp).
    apply list_elem_of_filter in Hcomp as [Hflag Hcomp].
    apply jsSort_elem, list_elem_of_lookup in Hcomp as [k Hk].
    destruct (pi_found _ _ _ _ _ _ Hinv k comp Hk) as (E & _).
    rewrite E in Ht, Hflag. simpl in Ht, Hflag.
    apply list_elem_of_fmap in Ht as (x & -> & Hx).
    apply existsb_elem in Hflag as (y & Hy & Hmust).
    unfold isMustHave in Hmust.
    destruct (tickers c !! y) as [t'|] eqn:Hty; [|done].
    apply bool_decide_eq_true in Hmust.
    by exists k, comp, x, y, t'.
  - intros (k & comp & x & y & t' & Hk & Hx & Hy & -> & Hty & Ht').
    exists (componentTickers comp). split.
    + apply list_elem_of_fmap. exists comp. split; [done|].
      apply list_elem_of_filter. split.
      * destruct (pi_found _ _ _ _ _ _ Hinv k comp Hk) as (E & _).
        rewrite E. simpl. apply existsb_elem. exists y. split; [done|].
        unfold isMustHave. rewrite Hty. by apply bool_decide_eq_true.
      * apply jsSort_elem. by eapply list_elem_of_lookup_2.
    + destruct (pi_found _ _ _ _ _ _ Hinv k comp Hk) as (E & _).
      rewrite E. simpl. apply list_elem_of_fmap. by exists x.
Qed.
End ClusterClaims.

(** C1 fails as stated: a valid seed without qualifying edges is listed in
    clusterTickers although it belongs to no component. *)
Lemma isolated_seed_is_listed :
  "A" ∈ tickers demo ∧
  ∃ r, detectCluster demo ["A"] (11 # 10) = Returned r ∧
       clusterTickers r = ["A"] ∧ components r = [] ∧
       clusterTickers r ≠ sortedUnion (flaggedTickers r).
Proof.
  split; [left|]. eexists. split; [by vm_compute|]. by vm_compute.
Qed.

(** C1 (amended): for distinct tickers and a must-have set with at least
    one valid member and no name read from [Object.prototype],
    clusterTickers is exactly the deduplicated, ascending-sorted union of
    the valid must-have identifiers and the identifiers of the components
    whose containsMustHave flag is true. *)
Theorem cluster_is_union_of_seeds_and_flagged_components
    (c : CorrData) (mh : list string) (thr : Q) :
  loaded c → NoDup (tickers c) → ownSeeds c mh → validSeeds c mh ≠ [] →
  ∃ r, detectCluster c mh thr = Returned r ∧
       clusterTickers r = sortedUnion (validSeeds c mh ++ flaggedTickers r).
Proof.
  intros Hload Hnd Hown Hvalid. pose proof Hload as [Hidx _].
  destruct (detectCluster_run c mh thr Hload Hown Hvalid)
    as (adj & reachable & part & Hlen & Hgraph & Hndr & Hreach & Hinv & Hrun).
  eexists. split; [exact Hrun|].
  set (r := {| clusterTickers := _ |}).
  assert (Hcomps : components r = jsSort componentLe (found part)) by done.
  assert (Hbound : ∀ a b, edge adj a b →
            a < length (tickers c) ∧ b < length (tickers c)).
  { intros a b Hab. eapply thresholdGraph_bound. by apply Hgraph. }
  assert (Hsym : ∀ a b, edge adj a b → edge adj b a).
  { intros a b Hab. apply Hgraph, thresholdGraph_sym. by apply Hgraph. }
  assert (Hin_range : ∀ x, x ∈ reachable → x < length (tickers c)).
  { intros x (t & s & Ht & Hs & Hc)%Hreach.
    destruct (validSeeds_index c mh t Hload Hown Ht) as (_ & s' & Hs' & _ & Hlt).
    simplify_eq. by eapply connected_bound. }
  assert (Hat : ∀ x, x < length (tickers c) →
            tickers c !! x = Some (tickerAt (tickers c) x)).
  { intros x Hx. unfold tickerAt.
    by destruct (lookup_lt_is_Some_2 _ _ Hx) as [t ->]. }
  unfold sortedUnion. simpl.
  apply leb_sorted_unique; [apply strings_sorted..|].
  rewrite !jsSort_perm.
  apply NoDup_Permutation.
  - apply NoDup_fmap_2_strong; [|done].
    intros x y Hx Hy Hxy.
    eapply NoDup_lookup; [exact Hnd|by apply Hat, Hin_range|].
    rewrite Hxy. by apply Hat, Hin_range.
  - apply NoDup_remove_dups.
  - intros t. rewrite elem_of_remove_dups, elem_of_app.
    rewrite (flaggedTickers_elem _ _ _ _ _ _ t r Hinv Hcomps).
    rewrite list_elem_of_fmap. split.
    + intros (x & -> & Hx). pose proof Hx as Hx0.
      apply Hreach in Hx as (t0 & s & Ht0 & Hs & Hc).
      destruct (validSeeds_index c mh t0 Hload Hown Ht0) as (_ & s' & Hs' & Hts & Hlt).
      assert (s = s') by congruence. subst s. clear Hs.
      destruct (decide (x = s')) as [->|Hne].
      { left. unfold tickerAt. by rewrite Hts. }
      right.
      assert (Hdeg : ∃ z, edge adj s' z).
      { apply rtc_inv in Hc as [->|(z & Hz & _)]; [done|]. by exists z. }
      destruct Hdeg as [z Hz].
      assert (Hmark : componentOf part !! s' ≠ Some (-1)%Z).
      { intros Hm. apply (pi_seen _ _ _ _ _ _ Hinv) in Hm; [|done].
        destruct Hz as (l & Hl & Hin). simplify_eq. by apply elem_of_nil in Hin. }
      assert (Hlt' : s' < length (componentOf part)).
      { by rewrite (pi_length _ _ _ _ _ _ Hinv). }
      destruct (lookup_lt_is_Some_2 _ _ Hlt') as [m Hm].
      destruct (pi_marks _ _ _ _ _ _ Hinv s' m Hm)
        as [->|(k & comp & -> & Hk & Hin)]; [done|].
      destruct (pi_found _ _ _ _ _ _ Hinv k comp Hk)
        as (_ & _ & root & rest & _ & _ & _ & Hcls & _).
      exists k, comp, x, s', t0. split_and!; try done.
      apply Hcls. etrans; [by apply Hcls|done].
    + intros [Ht|(k & comp & x & y & t' & Hk & Hx & Hy & -> & Hty & Ht')].
      * destruct (validSeeds_index c mh t Hload Hown Ht) as (_ & s & Hs & Hts & Hlt).
        exists s. split; [unfold tickerAt; by rewrite Hts|].
        apply Hreach. exists t, s. split_and!; [done..|]. apply rtc_refl.
      * exists x. split; [done|]. apply Hreach. exists t', y.
        split_and!; [done| |].
        -- rewrite Hidx. by apply buildTickerIndex_NoDup.
        -- destruct (pi_found _ _ _ _ _ _ Hinv k comp Hk)
             as (_ & _ & root & rest & _ & _ & _ & Hcls & _).
           etrans; [|by apply Hcls].
           apply (connected_sym adj Hsym). by apply Hcls.
Qed.

Lemma cluster_is_union_of_seeds_and_flagged_components_witness :
  loaded demo ∧ NoDup (tickers demo) ∧ ownSeeds demo ["D"; "Z"] ∧
  validSeeds demo ["D"; "Z"] ≠ [] ∧
  ∃ r, detectCluster demo ["D"; "Z"] (1 # 2) = Returned r ∧
       clusterTickers r = sortedUnion (validSeeds demo ["D"; "Z"] ++ flaggedTickers r).
Proof.
  assert (Hown : ownSeeds demo ["D"; "Z"]).
  { apply ownSeeds_plain, (bool_decide_unpack _). by vm_compute. }
  assert (Hnd : NoDup (tickers demo)).
  { apply (bool_decide_unpack _). by vm_compute. }
  split; [exact loaded_demo|]. split; [exact Hnd|]. split; [exact Hown|]. split; [by vm_compute|].
  apply (cluster_is_union_of_seeds_and_flagged_components demo ["D"; "Z"] (1 # 2)
           loaded_demo Hnd Hown). by vm_compute.
Defined.

(** ** The fuel of the searches always suffices *)

Lemma foldM_fuel {A B : Type} (f : B → A → outcome B) l :
  (∀ b x, f b x ≠ OutOfFuel) → ∀ b, foldM f b l ≠ OutOfFuel.
Proof.
  intros Hf. induction l as [|x l IH]; intros b; simpl; [done|].
  destruct (f b x) as [b'| |] eqn:Hfx; simpl; [apply IH|done|].
  by destruct (Hf b x).
Qed.

Lemma linkPair_shape n matrix thr i j adj adj' :
  i < n → j < n →
  linkPair matrix thr i adj j = Returned adj' →
  (length adj = n ∧
   ∀ a b, edge adj a b → a < n ∧ b < n ∧ edge adj b a) →
  length adj' = n ∧
  ∀ a b, edge adj' a b → a < n ∧ b < n ∧ edge adj' b a.
Proof.
  intros Hi Hj Hrun [Hlen Hadj]. unfold linkPair in Hrun.
  destruct (qualifies matrix thr i j) as [q| |]; simpl in Hrun; [|done..].
  injection Hrun as <-. destruct q; [|done].
  split; [unfold push; by rewrite !length_alter|].
  intros a b. rewrite !edge_push by (unfold push; rewrite ?length_alter; lia).
  intros [[Hab|[-> ->]]|[-> ->]].
  - destruct (Hadj a b Hab) as (? & ? & ?). split_and!; [done..|]. by left; left.
  - split_and!; [done..|]. by right.
  - split_and!; [done..|]. by left; right.
Qed.

Lemma buildAdj_shape n matrix thr adj :
  buildAdj n matrix thr = Returned adj →
  length adj = n ∧ ∀ a b, edge adj a b → a < n ∧ b < n ∧ edge adj b a.
Proof.
  unfold buildAdj.
  apply (foldM_returned _ (λ adj, length adj = n ∧
           ∀ a b, edge adj a b → a < n ∧ b < n ∧ edge adj b a)).
  - split; [by rewrite length_replicate|].
    intros a b (l & Hl & Hb). apply lookup_replicate in Hl as [-> _].
    by apply elem_of_nil in Hb.
  - intros adj0 i adj1 Hi%elem_of_seq Hinv.
    apply (foldM_returned _ (λ adj, length adj = n ∧
             ∀ a b, edge adj a b → a < n ∧ b < n ∧ edge adj b a)); [done|].
    intros adj2 j adj3 Hj%elem_of_seq Hinv2 Hstep.
    eapply (linkPair_shape n matrix thr i j); [lia|lia|done..].
Qed.

Lemma buildAdj_fuel n matrix thr : buildAdj n matrix thr ≠ OutOfFuel.
Proof.
  unfold buildAdj. apply foldM_fuel. intros adj i. apply foldM_fuel.
  intros adj' j. unfold linkPair, qualifies.
  by destruct (matrix !! i).
Qed.

Lemma seedStep_fuel n adj idx reach t :
  length adj = n → (∀ a b, edge adj a b → a < n ∧ b < n) →
  seedStep (S n) adj idx reach t ≠ OutOfFuel.
Proof.
  intros Hlen Hbound.
  destruct (idx !! t) as [s|] eqn:Hidx;
    [rewrite (seedStep_own _ _ _ _ _ s Hidx)|by rewrite seedStep_not_own].
  case_bool_decide; [done|].
  destruct (decide (s < n)) as [Hs|Hs].
  - destruct (bfs_spec n adj Hlen Hbound s (S n) Hs) as (res & -> & _); [lia|done].
  - simpl. by rewrite (lookup_ge_None_2 adj s) by lia.
Qed.

(** No call runs out of fuel: the two searches dequeue every node at most
    once. *)
Lemma detectCluster_fuel c mh thr : detectCluster c mh thr ≠ OutOfFuel.
Proof.
  unfold detectCluster. case_bool_decide; [done|].
  destruct (buildAdj _ _ _) as [adj| |] eqn:Hadj; simpl; [|done|].
  2: { by apply buildAdj_fuel in Hadj. }
  apply buildAdj_shape in Hadj as [Hlen Hadj].
  assert (Hbound : ∀ a b, edge adj a b →
            a < length (tickers c) ∧ b < length (tickers c)).
  { intros a b Hab. destruct (Hadj a b Hab) as (? & ? & _). done. }
  assert (Hsym : ∀ a b, edge adj a b → edge adj b a).
  { intros a b Hab. by destruct (Hadj a b Hab) as (_ & _ & ?). }
  destruct (foldM (seedStep _ _ _) _ _) as [reach| |] eqn:Hseeds; simpl; [|done|].
  2: { apply foldM_fuel in Hseeds; [done|].
       intros r t. by apply seedStep_fuel. }
  destruct (components_total _ adj (tickers c)
              (filter (λ t, getProperty (tickerIndex c) t ≠ Undefined) mh)
              Hlen Hbound Hsym)
    as (part & -> & _).
  done.
Qed.

(** * Further properties of the code *)

(** ** The shape of a cluster result *)

Section ResultShape.

Lemma graph_bound adj n matrix thr :
  (∀ a b, edge adj a b ↔ thresholdGraph n matrix thr a b) →
  ∀ a b, edge adj a b → a < n ∧ b < n.
Proof. intros Hg a b Hab. eapply thresholdGraph_bound. by apply Hg. Qed.

Lemma graph_sym adj n matrix thr :
  (∀ a b, edge adj a b ↔ thresholdGraph n matrix thr a b) →
  ∀ a b, edge adj a b → edge adj b a.
Proof. intros Hg a b Hab. apply Hg, thresholdGraph_sym. by apply Hg. Qed.

Lemma tickerAt_lookup (tks : list string) x :
  x < length tks → tks !! x = Some (tickerAt tks x).
Proof.
  intros Hx. unfold tickerAt. by destruct (lookup_lt_is_Some_2 _ _ Hx) as [t ->].
Qed.

Lemma tickerAt_inj (tks : list string) x y :
  NoDup tks → x < length tks → y < length tks →
  tickerAt tks x = tickerAt tks y → x = y.
Proof.
  intros Hnd Hx Hy Hxy.
  eapply NoDup_lookup; [exact Hnd|by apply tickerAt_lookup|].
  rewrite Hxy. by apply tickerAt_lookup.
Qed.

Lemma reachable_in_range c mh adj (reachable : list nat) :
  loaded c →
  (∀ a b, edge adj a b → a < length (tickers c) ∧ b < length (tickers c)) →
  (∀ x, x ∈ reachable ↔
        ∃ t s, t ∈ validSeeds c mh ∧ tickerIndex c !! t = Some s ∧
               connected adj s x) →
  ∀ x, x ∈ reachable → x < length (tickers c).
Proof.
  intros [Hidx _] Hbound Hreach x (t & s & Ht & Hs & Hc)%Hreach.
  rewrite Hidx in Hs. apply buildTickerIndex_lookup, lookup_lt_Some in Hs.
  by eapply connected_bound.
Qed.

Lemma cluster_elem (tks : list string) (reachable : list nat) t :
  t ∈ jsSort String.leb (map (tickerAt tks) reachable) ↔
  ∃ x, x ∈ reachable ∧ t = tickerAt tks x.
Proof.
  rewrite jsSort_elem, list_elem_of_fmap. naive_solver.
Qed.

Lemma cluster_NoDup c mh adj (reachable : list nat) :
  loaded c → NoDup (tickers c) → NoDup reachable →
  (∀ a b, edge adj a b → a < length (tickers c) ∧ b < length (tickers c)) →
  (∀ x, x ∈ reachable ↔
        ∃ t s, t ∈ validSeeds c mh ∧ tickerIndex c !! t = Some s ∧
               connected adj s x) →
  NoDup (jsSort String.leb (map (tickerAt (tickers c)) reachable)).
Proof.
  intros Hload Hnd Hndr Hbound Hreach. rewrite jsSort_perm.
  apply NoDup_fmap_2_strong; [|done].
  intros x y Hx Hy. apply tickerAt_inj; [done|..];
    by eapply reachable_in_range.
Qed.
End ResultShape.

(** X1: for a request with a valid seed that reads no name from
    [Object.prototype], the cluster list is sorted ascending without
    duplicates, holds only identifiers of the matrix, and its length is the
    reported nodesAboveThreshold, which never exceeds totalNodes. *)
Theorem cluster_sorted_distinct_counted (c : CorrData) (mh : list string) (thr : Q) :
  loaded c → NoDup (tickers c) → ownSeeds c mh → validSeeds c mh ≠ [] →
  ∃ r, detectCluster c mh thr = Returned r ∧
    StronglySorted (λ a b, String.leb a b = true) (clusterTickers r) ∧
    NoDup (clusterTickers r) ∧
    (∀ t, t ∈ clusterTickers r → t ∈ tickers c) ∧
    nodesAboveThreshold r = Some (length (clusterTickers r)) ∧
    totalNodes r = Some (length (tickers c)) ∧
    length (clusterTickers r) ≤ length (tickers c).
Proof.
  intros Hload Hnd Hown Hvalid.
  destruct (detectCluster_run c mh thr Hload Hown Hvalid)
    as (adj & reachable & part & Hlen & Hgraph & Hndr & Hreach & Hinv & Hrun).
  pose proof (graph_bound _ _ _ _ Hgraph) as Hbound.
  pose proof (reachable_in_range c mh adj reachable Hload Hbound Hreach) as Hrange.
  eexists. split; [exact Hrun|]. simpl. split_and!.
  - apply strings_sorted.
  - by eapply cluster_NoDup.
  - intros t (x & Hx & ->)%cluster_elem.
    eapply list_elem_of_lookup_2. by apply tickerAt_lookup, Hrange.
  - by rewrite jsSort_length, length_map.
  - done.
  - rewrite jsSort_length, length_map. by apply bounded_length.
Qed.

Lemma cluster_sorted_distinct_counted_witness :
  loaded demo ∧ NoDup (tickers demo) ∧ ownSeeds demo ["C"; "A"; "C"] ∧
  validSeeds demo ["C"; "A"; "C"] ≠ [] ∧
  ∃ r, detectCluster demo ["C"; "A"; "C"] (1 # 2) = Returned r ∧
    StronglySorted (λ a b, String.leb a b = true) (clusterTickers r) ∧
    NoDup (clusterTickers r) ∧
    (∀ t, t ∈ clusterTickers r → t ∈ tickers demo) ∧
    nodesAboveThreshold r = Some (length (clusterTickers r)) ∧
    totalNodes r = Some (length (tickers demo)) ∧
    length (clusterTickers r) ≤ length (tickers demo).
Proof.
  assert (Hown : ownSeeds demo ["C"; "A"; "C"]).
  { apply ownSeeds_plain, (bool_decide_unpack _). by vm_compute. }
  assert (Hnd : NoDup (tickers demo)).
  { apply (bool_decide_unpack _). by vm_compute. }
  split; [exact loaded_demo|]. split; [exact Hnd|]. split; [exact Hown|]. split; [by vm_compute|].
  apply (cluster_sorted_distinct_counted demo ["C"; "A"; "C"] (1 # 2)
           loaded_demo Hnd Hown). by vm_compute.
Defined.

(** ** The cluster as a closure *)

(** X2: for a request with a valid seed that reads no name from
    [Object.prototype], the cluster holds the valid seeds, is closed under
    qualifying correlations of the threshold graph, and is the least such
    set of identifiers. *)
Theorem cluster_is_least_closed_set (c : CorrData) (mh : list string) (thr : Q) :
  loaded c → NoDup (tickers c) → ownSeeds c mh → validSeeds c mh ≠ [] →
  ∃ r, detectCluster c mh thr = Returned r ∧
    (∀ t, t ∈ validSeeds c mh → t ∈ clusterTickers r) ∧
    (∀ a b ta tb,
       tickers c !! a = Some ta → tickers c !! b = Some tb →
       ta ∈ clusterTickers r →
       thresholdGraph (length (tickers c)) (matrix c) thr a b →
       tb ∈ clusterTickers r) ∧
    (∀ P : string → Prop,
       (∀ t, t ∈ validSeeds c mh → P t) →
       (∀ a b ta tb,
          tickers c !! a = Some ta → tickers c !! b = Some tb → P ta →
          thresholdGraph (length (tickers c)) (matrix c) thr a b → P tb) →
       ∀ t, t ∈ clusterTickers r → P t).
Proof.
  intros Hload Hnd Hown Hvalid.
  destruct (detectCluster_run c mh thr Hload Hown Hvalid)
    as (adj & reachable & part & Hlen & Hgraph & Hndr & Hreach & Hinv & Hrun).
  pose proof (graph_bound _ _ _ _ Hgraph) as Hbound.
  pose proof (reachable_in_range c mh adj reachable Hload Hbound Hreach) as Hrange.
  eexists. split; [exact Hrun|]. simpl. split_and!.
  - intros t Ht.
    destruct (validSeeds_index c mh t Hload Hown Ht) as (_ & s & Hs & Hts & _).
    apply cluster_elem. exists s. split.
    + apply Hreach. exists t, s. split_and!; [done..|]. apply rtc_refl.
    + unfold tickerAt. by rewrite Hts.
  - intros a b ta tb Ha Hb (x & Hx & ->)%cluster_elem Hab.
    assert (a = x) as ->.
    { eapply NoDup_lookup; [exact Hnd|exact Ha|]. by apply tickerAt_lookup, Hrange. }
    apply cluster_elem. exists b. split.
    + apply Hreach in Hx as (t & s & Ht & Hs & Hc).
      apply Hreach. exists t, s. split_and!; [done..|].
      eapply rtc_r; [exact Hc|]. by apply Hgraph.
    + unfold tickerAt. by rewrite Hb.
  - intros P Hseed Hstep t (x & Hx & ->)%cluster_elem.
    apply Hreach in Hx as (t0 & s & Ht0 & Hs & Hc).
    destruct (validSeeds_index c mh t0 Hload Hown Ht0) as (_ & s' & Hs' & Hts & Hlt).
    assert (s = s') by congruence. subst s'. clear Hs'.
    revert x Hc. apply (rtc_ind_r (λ z, P (tickerAt (tickers c) z))).
    + unfold tickerAt. rewrite Hts. simpl. by apply Hseed.
    + intros y z _ Hyz Hy. destruct (Hbound y z Hyz) as [Hyn Hzn].
      eapply (Hstep y z); [by apply tickerAt_lookup..|exact Hy|by apply Hgraph].
Qed.

Lemma cluster_is_least_closed_set_witness :
  loaded demo ∧ NoDup (tickers demo) ∧ ownSeeds demo ["B"] ∧
  validSeeds demo ["B"] ≠ [] ∧
  ∃ r, detectCluster demo ["B"] (1 # 2) = Returned r ∧
    (∀ t, t ∈ validSeeds demo ["B"] → t ∈ clusterTickers r) ∧
    (∀ a b ta tb,
       tickers demo !! a = Some ta → tickers demo !! b = Some tb →
       ta ∈ clusterTickers r →
       thresholdGraph (length (tickers demo)) (matrix demo) (1 # 2) a b →
       tb ∈ clusterTickers r) ∧
    (∀ P : string → Prop,
       (∀ t, t ∈ validSeeds demo ["B"] → P t) →
       (∀ a b ta tb,
          tickers demo !! a = Some ta → tickers demo !! b = Some tb → P ta →
          thresholdGraph (length (tickers demo)) (matrix demo) (1 # 2) a b → P tb) →
       ∀ t, t ∈ clusterTickers r → P t).
Proof.
  assert (Hown : ownSeeds demo ["B"]).
  { apply ownSeeds_plain, (bool_decide_unpack _). by vm_compute. }
  assert (Hnd : NoDup (tickers demo)).
  { apply (bool_decide_unpack _). by vm_compute. }
  split; [exact loaded_demo|]. split; [exact Hnd|]. split; [exact Hown|]. split; [by vm_compute|].
  apply (cluster_is_least_closed_set demo ["B"] (1 # 2) loaded_demo Hnd Hown).
  by vm_compute.
Defined.

(** ** Monotonicity *)

Lemma aboveThreshold_antitone matrix thr1 thr2 a b :
  (thr1 <= thr2)%Q →
  aboveThreshold matrix thr2 a b = true → aboveThreshold matrix thr1 a b = true.
Proof.
  intros Hle. unfold aboveThreshold. destruct (entry matrix a b) as [x|]; [|done].
  rewrite !Qle_bool_iff. intros H. by eapply Qle_trans.
Qed.

Lemma thresholdGraph_antitone n matrix thr1 thr2 a b :
  (thr1 <= thr2)%Q →
  thresholdGraph n matrix thr2 a b → thresholdGraph n matrix thr1 a b.
Proof.
  intros Hle (Ha & Hb & [[? H]|[? H]]); split_and!; try done;
    [left|right]; (split; [done|by eapply aboveThreshold_antitone]).
Qed.

(** X3: for a request with a valid seed that reads no name from
    [Object.prototype], raising the threshold can only shrink the
    cluster. *)
Theorem cluster_shrinks_with_threshold
    (c : CorrData) (mh : list string) (thr1 thr2 : Q) :
  loaded c → ownSeeds c mh → validSeeds c mh ≠ [] → (thr1 <= thr2)%Q →
  ∃ r1 r2,
    detectCluster c mh thr1 = Returned r1 ∧
    detectCluster c mh thr2 = Returned r2 ∧
    ∀ t, t ∈ clusterTickers r2 → t ∈ clusterTickers r1.
Proof.
  intros Hload Hown Hvalid Hle.
  destruct (detectCluster_run c mh thr1 Hload Hown Hvalid)
    as (adj1 & reach1 & part1 & _ & Hg1 & _ & Hreach1 & _ & Hrun1).
  destruct (detectCluster_run c mh thr2 Hload Hown Hvalid)
    as (adj2 & reach2 & part2 & _ & Hg2 & _ & Hreach2 & _ & Hrun2).
  eexists _, _. split; [exact Hrun1|]. split; [exact Hrun2|]. simpl.
  intros t (x & Hx & ->)%cluster_elem. apply cluster_elem. exists x.
  split; [|done]. apply Hreach2 in Hx as (t0 & s & Ht0 & Hs & Hc).
  apply Hreach1. exists t0, s. split_and!; [done..|].
  eapply rtc_subrel; [|exact Hc]. intros a b Hab.
  apply Hg1. eapply thresholdGraph_antitone; [exact Hle|]. by apply Hg2.
Qed.

Lemma cluster_shrinks_with_threshold_witness :
  loaded demo ∧ ownSeeds demo ["A"] ∧
  validSeeds demo ["A"] ≠ [] ∧ (1 # 20 <= 1 # 2)%Q ∧
  ∃ r1 r2,
    detectCluster demo ["A"] (1 # 20) = Returned r1 ∧
    detectCluster demo ["A"] (1 # 2) = Returned r2 ∧
    ∀ t, t ∈ clusterTickers r2 → t ∈ clusterTickers r1.
Proof.
  assert (Hown : ownSeeds demo ["A"]).
  { apply ownSeeds_plain, (bool_decide_unpack _). by vm_compute. }
  split; [exact loaded_demo|]. split; [exact Hown|]. split; [by vm_compute|]. split; [by vm_compute|].
  apply (cluster_shrinks_with_threshold demo ["A"] (1 # 20) (1 # 2) loaded_demo Hown);
    by vm_compute.
Defined.

(** X4: between two requests that read no name from [Object.prototype],
    the smaller one with a valid seed, requesting more must-have tickers
    can only grow the cluster. *)
Theorem cluster_grows_with_seeds
    (c : CorrData) (mh mh' : list string) (thr : Q) :
  loaded c → ownSeeds c mh → ownSeeds c mh' → validSeeds c mh ≠ [] →
  (∀ t, t ∈ mh → t ∈ mh') →
  ∃ r r',
    detectCluster c mh thr = Returned r ∧
    detectCluster c mh' thr = Returned r' ∧
    ∀ t, t ∈ clusterTickers r → t ∈ clusterTickers r'.
Proof.
  intros Hload Hown Hown' Hvalid Hsub.
  assert (Hvsub : ∀ t, t ∈ validSeeds c mh → t ∈ validSeeds c mh').
  { intros t. rewrite !validSeeds_elem by done. naive_solver. }
  assert (Hvalid' : validSeeds c mh' ≠ []).
  { destruct (validSeeds c mh) as [|t l] eqn:Hv; [done|].
    intros Hnil. specialize (Hvsub t ltac:(left)).
    rewrite Hnil in Hvsub. by apply elem_of_nil in Hvsub. }
  destruct (detectCluster_run c mh thr Hload Hown Hvalid)
    as (adj1 & reach1 & part1 & _ & Hg1 & _ & Hreach1 & _ & Hrun1).
  destruct (detectCluster_run c mh' thr Hload Hown' Hvalid')
    as (adj2 & reach2 & part2 & _ & Hg2 & _ & Hreach2 & _ & Hrun2).
  eexists _, _. split; [exact Hrun1|]. split; [exact Hrun2|]. simpl.
  intros t (x & Hx & ->)%cluster_elem. apply cluster_elem. exists x.
  split; [|done]. apply Hreach1 in Hx as (t0 & s & Ht0 & Hs & Hc).
  apply Hreach2. exists t0, s. split_and!; [by apply Hvsub|done|].
  eapply rtc_subrel; [|exact Hc]. intros a b Hab. apply Hg2. by apply Hg1.
Qed.

Lemma cluster_grows_with_seeds_witness :
  loaded demo ∧ ownSeeds demo ["A"] ∧ ownSeeds demo ["D"; "A"] ∧
  validSeeds demo ["A"] ≠ [] ∧
  (∀ t, t ∈ ["A"] → t ∈ ["D"; "A"]) ∧
  ∃ r r',
    detectCluster demo ["A"] (1 # 2) = Returned r ∧
    detectCluster demo ["D"; "A"] (1 # 2) = Returned r' ∧
    ∀ t, t ∈ clusterTickers r → t ∈ clusterTickers r'.
Proof.
  assert (Hown : ownSeeds demo ["A"]).
  { apply ownSeeds_plain, (bool_decide_unpack _). by vm_compute. }
  assert (Hown' : ownSeeds demo ["D"; "A"]).
  { apply ownSeeds_plain, (bool_decide_unpack _). by vm_compute. }
  assert (Hsub : ∀ t : string, t ∈ ["A"] → t ∈ ["D"; "A"]).
  { intros t ->%list_elem_of_singleton. right. left. }
  split; [exact loaded_demo|]. split; [exact Hown|]. split; [exact Hown'|]. split; [by vm_compute|]. split; [exact Hsub|].
  apply (cluster_grows_with_seeds demo ["A"] ["D"; "A"] (1 # 2) loaded_demo Hown Hown');
    [by vm_compute|exact Hsub].
Defined.

(** ** Order and repetition of the must-have tickers *)

Lemma detectCluster_pieces c mh thr r :
  detectCluster c mh thr = Returned r → validSeeds c mh ≠ [] →
  ∃ adj reach part,
    buildAdj (length (tickers c)) (matrix c) thr = Returned adj ∧
    foldM (seedStep (S (length (tickers c))) adj (tickerIndex c)) []
          (validSeeds c mh) = Returned reach ∧
    foldM (componentStep (S (length (tickers c))) adj (tickers c) (validSeeds c mh))
          {| componentOf := replicate (length (tickers c)) (-1)%Z;
             componentId := 0%Z; found := [] |}
          (seq 0 (length (tickers c))) = Returned part ∧
    clusterTickers r = jsSort String.leb (map (tickerAt (tickers c)) reach) ∧
    components r = jsSort componentLe (found part).
Proof.
  unfold detectCluster. fold (validSeeds c mh). intros Hrun Hvalid.
  rewrite bool_decide_eq_false_2 in Hrun.
  2: { destruct (validSeeds c mh); [done|]. simpl. lia. }
  destruct (buildAdj _ _ _) as [adj| |]; simpl in Hrun; [|done..].
  destruct (foldM (seedStep _ _ _) _ _) as [reach| |] eqn:Hseeds;
    simpl in Hrun; [|done..].
  destruct (foldM (componentStep _ _ _ _) _ _) as [part| |] eqn:Hpart;
    simpl in Hrun; [|done..].
  injection Hrun as <-. by exists adj, reach, part.
Qed.

Lemma existsb_pointwise {A : Type} (f g : A → bool) (l : list A) :
  (∀ x, f x = g x) → existsb f l = existsb g l.
Proof. intros Hfg. induction l as [|x l IH]; simpl; [done|]. by rewrite Hfg, IH. Qed.

Lemma componentStep_seeds fuel adj tks (v1 v2 : list string) st i :
  (∀ t, t ∈ v1 ↔ t ∈ v2) →
  componentStep fuel adj tks v1 st i = componentStep fuel adj tks v2 st i.
Proof.
  intros Hv. unfold componentStep. case_bool_decide; [|done].
  destruct (adj !! i) as [[|w l]|]; [done| |done].
  destruct (bfsComponent _ _ _ _ _ _) as [res| |]; simpl; [|done..].
  unfold mkComponent. do 5 f_equal.
  apply existsb_pointwise. intros x. unfold isMustHave.
  destruct (tks !! x) as [t|]; [|done]. apply bool_decide_ext, Hv.
Qed.

(** X5: the order of the must-have tickers and their repetition do not
    matter: two requests with the same set of tickers, one of them valid
    and none read from [Object.prototype], give the same cluster list and
    the same components. *)
Theorem seed_order_and_repetition_irrelevant
    (c : CorrData) (mh mh' : list string) (thr : Q) :
  loaded c → NoDup (tickers c) → ownSeeds c mh → validSeeds c mh ≠ [] →
  (∀ t, t ∈ mh ↔ t ∈ mh') →
  ∃ r r',
    detectCluster c mh thr = Returned r ∧
    detectCluster c mh' thr = Returned r' ∧
    clusterTickers r = clusterTickers r' ∧
    components r = components r'.
Proof.
  intros Hload Hnd Hown Hvalid Hsame.
  assert (Hown' : ownSeeds c mh').
  { intros t Ht. apply Hown. by apply Hsame. }
  assert (Hv : ∀ t, t ∈ validSeeds c mh ↔ t ∈ validSeeds c mh').
  { intros t. rewrite !validSeeds_elem by done. by rewrite Hsame. }
  assert (Hvalid' : validSeeds c mh' ≠ []).
  { destruct (validSeeds c mh) as [|t l] eqn:E; [done|].
    intros Hnil. assert (Ht : t ∈ validSeeds c mh') by (apply Hv; left).
    rewrite Hnil in Ht. by apply elem_of_nil in Ht. }
  destruct (detectCluster_run c mh thr Hload Hown Hvalid)
    as (adj1 & reach1 & part1 & _ & Hg1 & Hnd1 & Hreach1 & _ & Hrun1).
  destruct (detectCluster_run c mh' thr Hload Hown' Hvalid')
    as (adj2 & reach2 & part2 & _ & Hg2 & Hnd2 & Hreach2 & _ & Hrun2).
  eexists _, _. split; [exact Hrun1|]. split; [exact Hrun2|].
  destruct (detectCluster_pieces c mh thr _ Hrun1 Hvalid)
    as (a1 & _ & p1 & Ha1 & _ & Hp1 & _ & Hc1).
  destruct (detectCluster_pieces c mh' thr _ Hrun2 Hvalid')
    as (a2 & _ & p2 & Ha2 & _ & Hp2 & _ & Hc2).
  split.
  - simpl. apply leb_sorted_unique; [apply strings_sorted..|].
    apply NoDup_Permutation.
    + exact (cluster_NoDup c mh adj1 reach1 Hload Hnd Hnd1
               (graph_bound _ _ _ _ Hg1) Hreach1).
    + exact (cluster_NoDup c mh' adj2 reach2 Hload Hnd Hnd2
               (graph_bound _ _ _ _ Hg2) Hreach2).
    + intros t. rewrite !cluster_elem.
      assert (Hr : ∀ x, x ∈ reach1 ↔ x ∈ reach2).
      { intros x. rewrite Hreach1, Hreach2. split.
        - intros (t0 & s & Ht0 & Hs & Hc). exists t0, s.
          split_and!; [by apply Hv|done|].
          eapply rtc_subrel; [|exact Hc]. intros ???. apply Hg2. by apply Hg1.
        - intros (t0 & s & Ht0 & Hs & Hc). exists t0, s.
          split_and!; [by apply Hv|done|].
          eapply rtc_subrel; [|exact Hc]. intros ???. apply Hg1. by apply Hg2. }
      split; intros (x & Hx & ->); exists x; (split; [by apply Hr|done]).
  - rewrite Hc1, Hc2. do 2 f_equal.
    assert (a1 = a2) by congruence. subst a2.
    rewrite (foldM_ext _ (componentStep (S (length (tickers c))) a1 (tickers c)
                            (validSeeds c mh'))) in Hp1.
    + congruence.
    + intros st i _. by apply componentStep_seeds.
Qed.

Lemma seed_order_and_repetition_irrelevant_witness :
  loaded demo ∧ NoDup (tickers demo) ∧ ownSeeds demo ["D"; "A"; "Z"] ∧
  validSeeds demo ["D"; "A"; "Z"] ≠ [] ∧
  (∀ t, t ∈ ["D"; "A"; "Z"] ↔ t ∈ ["A"; "Z"; "D"; "A"]) ∧
  ∃ r r',
    detectCluster demo ["D"; "A"; "Z"] (1 # 2) = Returned r ∧
    detectCluster demo ["A"; "Z"; "D"; "A"] (1 # 2) = Returned r' ∧
    clusterTickers r = clusterTickers r' ∧
    components r = components r'.
Proof.
  assert (Hown : ownSeeds demo ["D"; "A"; "Z"]).
  { apply ownSeeds_plain, (bool_decide_unpack _). by vm_compute. }

  assert (Hnd : NoDup (tickers demo)).
  { apply (bool_decide_unpack _). by vm_compute. }
  assert (Hsame : ∀ t : string, t ∈ ["D"; "A"; "Z"] ↔ t ∈ ["A"; "Z"; "D"; "A"]).
  { intros t. rewrite !elem_of_cons, !elem_of_nil. tauto. }
  split; [exact loaded_demo|]. split; [exact Hnd|]. split; [exact Hown|]. split; [by vm_compute|].
  split; [exact Hsame|].
  apply (seed_order_and_repetition_irrelevant demo ["D"; "A"; "Z"]
           ["A"; "Z"; "D"; "A"] (1 # 2) loaded_demo Hnd Hown); [by vm_compute|exact Hsame].
Defined.

(** ** Components as drawn *)

Lemma filter_all {A : Type} (P : A → Prop) `{!∀ x, Decision (P x)} (l : list A) :
  (∀ x, x ∈ l → P x) → filter P l = l.
Proof.
  induction l as [|x l IH]; intros Hall; [done|].
  rewrite filter_cons_True by (apply Hall; left).
  f_equal. apply IH. intros y Hy. apply Hall. by right.
Qed.

(** X6: for a request with a valid seed that reads no name from
    [Object.prototype], every returned component has at least two members;
    its size is the number of its indices and of its tickers; its indices
    are distinct node numbers; two components share no node.  Hence the
    size filter of [render] removes nothing: [displayComps], the components
    that [render] goes through and draws where the row has room, are the
    first five of the list. *)
Theorem components_are_disjoint_groups (c : CorrData) (mh : list string) (thr : Q) :
  loaded c → ownSeeds c mh → validSeeds c mh ≠ [] →
  ∃ r, detectCluster c mh thr = Returned r ∧
    (∀ comp, comp ∈ components r →
       2 ≤ size comp ∧ size comp = length (indices comp) ∧
       componentTickers comp = map (tickerAt (tickers c)) (indices comp) ∧
       NoDup (indices comp) ∧
       ∀ x, x ∈ indices comp → x < length (tickers c)) ∧
    (∀ i j A B x,
       components r !! i = Some A → components r !! j = Some B → i ≠ j →
       x ∈ indices A → x ∉ indices B) ∧
    NetworkViewRender.displayComps r = take 5 (components r).
Proof.
  intros Hload Hown Hvalid.
  destruct (detectCluster_run c mh thr Hload Hown Hvalid)
    as (adj & reachable & part & Hlen & Hgraph & _ & _ & Hinv & Hrun).
  pose proof (graph_bound _ _ _ _ Hgraph) as Hbound.
  eexists. split; [exact Hrun|]. simpl.
  assert (Hshape : ∀ comp, comp ∈ jsSort componentLe (found part) →
    2 ≤ size comp ∧ size comp = length (indices comp) ∧
    componentTickers comp = map (tickerAt (tickers c)) (indices comp) ∧
    NoDup (indices comp) ∧
    ∀ x, x ∈ indices comp → x < length (tickers c)).
  { intros comp Hcomp. apply jsSort_elem, list_elem_of_lookup in Hcomp as [k Hk].
    destruct (pi_found _ _ _ _ _ _ Hinv k comp Hk)
      as (E & Hnd & root & rest & Hroot & Hlt & [y Hy] & Hcls & _).
    assert (Hsize : size comp = length (indices comp)) by (by rewrite E).
    split_and!; [|done|by rewrite E|done|].
    - rewrite Hsize. assert (Hyin : y ∈ indices comp).
      { apply Hcls. by apply rtc_once. }
      rewrite Hroot in Hyin |- *. apply elem_of_cons in Hyin as [->|Hyin].
      + apply Hgraph in Hy. by apply thresholdGraph_irrefl in Hy.
      + destruct rest; [by apply elem_of_nil in Hyin|]. simpl. lia.
    - intros x Hx. apply Hcls in Hx. eapply connected_bound; [done..|lia]. }
  split_and!; [done| |].
  - intros i j A B x HA HB Hij HxA HxB.
    assert (HinA : A ∈ found part).
    { apply (jsSort_elem componentLe). by eapply list_elem_of_lookup_2. }
    assert (HinB : B ∈ found part).
    { apply (jsSort_elem componentLe). by eapply list_elem_of_lookup_2. }
    apply list_elem_of_lookup in HinA as [k1 Hk1].
    apply list_elem_of_lookup in HinB as [k2 Hk2].
    destruct (pi_found _ _ _ _ _ _ Hinv k1 A Hk1)
      as (_ & _ & r1 & rest1 & _ & _ & _ & _ & Hm1).
    destruct (pi_found _ _ _ _ _ _ Hinv k2 B Hk2)
      as (_ & _ & r2 & rest2 & _ & _ & _ & _ & Hm2).
    destruct (Hm1 x HxA) as [E1 _]. destruct (Hm2 x HxB) as [E2 _].
    assert (Hkk : k1 = k2) by (rewrite E1 in E2; injection E2; lia).
    subst k2. assert (HAB : A = B) by congruence. subst B.
    apply Hij. eapply NoDup_lookup; [|exact HA|exact HB].
    rewrite jsSort_perm. by eapply found_NoDup.
  - unfold NetworkViewRender.displayComps. simpl. f_equal.
    apply filter_all. intros comp Hcomp. by destruct (Hshape comp Hcomp).
Qed.

Lemma components_are_disjoint_groups_witness :
  loaded demo ∧ ownSeeds demo ["A"] ∧
  validSeeds demo ["A"] ≠ [] ∧
  ∃ r, detectCluster demo ["A"] (1 # 2) = Returned r ∧
    (∀ comp, comp ∈ components r →
       2 ≤ size comp ∧ size comp = length (indices comp) ∧
       componentTickers comp = map (tickerAt (tickers demo)) (indices comp) ∧
       NoDup (indices comp) ∧
       ∀ x, x ∈ indices comp → x < length (tickers demo)) ∧
    (∀ i j A B x,
       components r !! i = Some A → components r !! j = Some B → i ≠ j →
       x ∈ indices A → x ∉ indices B) ∧
    NetworkViewRender.displayComps r = take 5 (components r).
Proof.
  assert (Hown : ownSeeds demo ["A"]).
  { apply ownSeeds_plain, (bool_decide_unpack _). by vm_compute. }
  split; [exact loaded_demo|]. split; [exact Hown|]. split; [by vm_compute|].
  apply (components_are_disjoint_groups demo ["A"] (1 # 2) loaded_demo Hown).
  by vm_compute.
Defined.

(** ** Malformed matrices *)

Lemma buildAdj_missing_row n matrix thr :
  S (length matrix) < n → buildAdj n matrix thr = TypeError.
Proof.
  intros Hshort. unfold buildAdj.
  assert (Hseq : seq 0 n = seq 0 (length matrix)
                         ++ seq (length matrix) (n - length matrix)).
  { change (seq (length matrix) (n - length matrix))
      with (seq (0 + length matrix) (n - length matrix)).
    rewrite <-(seq_app (length matrix) (n - length matrix) 0). f_equal. lia. }
  rewrite Hseq, foldM_app.
  destruct (foldM_seq
    (λ adj i, foldM (linkPair matrix thr i) adj (seq (S i) (n - S i)))
    (λ _ _, True) (length matrix) 0 (replicate n [])) as (adj & -> & _); [done| |].
  { intros i adj0 Hi _.
    destruct (foldM_seq (linkPair matrix thr i) (λ _ _, True) (n - S i) (S i) adj0)
      as (adj1 & -> & _); [done| |by eexists].
    intros j adj2 _ _. unfold linkPair.
    rewrite qualifies_returned by lia. by eexists. }
  simpl.
  destruct (n - length matrix) as [|m] eqn:Hm; [lia|]. simpl.
  destruct (n - S (length matrix)) as [|m'] eqn:Hm'; [lia|]. simpl.
  assert (Hthrow : linkPair matrix thr (length matrix) adj (S (length matrix))
                   = TypeError).
  { unfold linkPair, qualifies.
    by rewrite (lookup_ge_None_2 matrix (length matrix)) by lia. }
  by rewrite Hthrow.
Qed.

(** X7: when the matrix lacks rows for two or more of the tickers, a call
    whose filter keeps a must-have ticker, be it a ticker of the data or a
    name read from [Object.prototype], throws while building the adjacency
    lists; a call whose filter keeps none never reads the matrix and
    returns the error result. *)
Theorem missing_rows_throw (c : CorrData) (mh : list string) (thr : Q) :
  S (length (matrix c)) < length (tickers c) →
  (validSeeds c mh ≠ [] → detectCluster c mh thr = TypeError) ∧
  (validSeeds c mh = [] →
   ∃ r, detectCluster c mh thr = Returned r ∧ error r = Some noSeedError).
Proof.
  intros Hshort. split.
  - intros Hvalid. unfold detectCluster. fold (validSeeds c mh).
    rewrite bool_decide_eq_false_2.
    2: { destruct (validSeeds c mh); [done|]. simpl. lia. }
    by rewrite buildAdj_missing_row.
  - intros Hnil. eexists. split; [by apply detectCluster_no_seed|done].
Qed.

Lemma missing_rows_throw_witness :
  S (length (matrix (loadCorrelation ["A"; "B"; "C"] [[1; 1 # 2; 0]%Q])))
    < length (tickers (loadCorrelation ["A"; "B"; "C"] [[1; 1 # 2; 0]%Q])) ∧
  detectCluster (loadCorrelation ["A"; "B"; "C"] [[1; 1 # 2; 0]%Q]) ["A"] (1 # 2)
    = TypeError.
Proof.
  split; [simpl; lia|].
  apply (missing_rows_throw (loadCorrelation ["A"; "B"; "C"] [[1; 1 # 2; 0]%Q])
           ["A"] (1 # 2)); [simpl; lia|by vm_compute].
Defined.

(** ** Degenerate thresholds *)

(** X8: for a request with a valid seed that reads no name from
    [Object.prototype], with a threshold above every absolute correlation
    no component is returned, and the cluster is the list of the valid
    seeds, deduplicated and sorted. *)
Theorem threshold_above_all_correlations
    (c : CorrData) (mh : list string) (thr : Q) :
  loaded c → NoDup (tickers c) → ownSeeds c mh → validSeeds c mh ≠ [] →
  (∀ i j x, entry (matrix c) i j = Some x → (Qabs x < thr)%Q) →
  ∃ r, detectCluster c mh thr = Returned r ∧
       components r = [] ∧
       clusterTickers r = sortedUnion (validSeeds c mh).
Proof.
  intros Hload Hnd Hown Hvalid Hhigh.
  destruct (detectCluster_run c mh thr Hload Hown Hvalid)
    as (adj & reachable & part & Hlen & Hgraph & Hndr & Hreach & Hinv & Hrun).
  pose proof (graph_bound _ _ _ _ Hgraph) as Hbound.
  assert (Hno : ∀ a b, ¬ edge adj a b).
  { intros a b Hab. apply Hgraph in Hab as (_ & _ & Hq).
    assert (Hf : ∀ i j, aboveThreshold (matrix c) thr i j = false).
    { intros i j. unfold aboveThreshold.
      destruct (entry (matrix c) i j) as [x|] eqn:Hx; [|done].
      apply not_true_is_false. rewrite Qle_bool_iff. intros Hle.
      eapply Qlt_irrefl, Qle_lt_trans; [exact Hle|]. by eapply Hhigh. }
    destruct Hq as [[_ Hq]|[_ Hq]]; by rewrite Hf in Hq. }
  eexists. split; [exact Hrun|]. simpl. split.
  - destruct (found part) as [|comp l] eqn:Hf; [done|]. exfalso.
    destruct (pi_found _ _ _ _ _ _ Hinv 0 comp) as (_ & _ & root & _ & _ & _ & [y Hy] & _).
    { by rewrite Hf. }
    by apply (Hno root y).
  - unfold sortedUnion. apply leb_sorted_unique; [apply strings_sorted..|].
    rewrite (jsSort_perm String.leb (remove_dups _)).
    apply NoDup_Permutation.
    + by eapply cluster_NoDup.
    + apply NoDup_remove_dups.
    + intros t. rewrite cluster_elem, elem_of_remove_dups. split.
      * intros (x & (t0 & s & Ht0 & Hs & Hc)%Hreach & ->).
        apply rtc_inv in Hc as [<-|(z & Hz & _)]; [|by apply Hno in Hz].
        destruct (validSeeds_index c mh t0 Hload Hown Ht0) as (_ & s' & Hs' & Hts & _).
        assert (s = s') by congruence. subst s'.
        unfold tickerAt. by rewrite Hts.
      * intros Ht.
        destruct (validSeeds_index c mh t Hload Hown Ht) as (_ & s & Hs & Hts & _).
        exists s. split; [|unfold tickerAt; by rewrite Hts].
        apply Hreach. exists t, s. split_and!; [done..|]. apply rtc_refl.
Qed.

Lemma demo_correlations_bounded :
  ∀ i j x, entry (matrix demo) i j = Some x → (Qabs x < 11 # 10)%Q.
Proof.
  intros i j x.
  destruct i as [|[|[|[|i]]]], j as [|[|[|[|j]]]]; vm_compute; try done;
    intros [= <-]; done.
Qed.

Lemma threshold_above_all_correlations_witness :
  loaded demo ∧ NoDup (tickers demo) ∧ ownSeeds demo ["C"; "A"; "C"] ∧
  validSeeds demo ["C"; "A"; "C"] ≠ [] ∧
  (∀ i j x, entry (matrix demo) i j = Some x → (Qabs x < 11 # 10)%Q) ∧
  ∃ r, detectCluster demo ["C"; "A"; "C"] (11 # 10) = Returned r ∧
       components r = [] ∧
       clusterTickers r = sortedUnion (validSeeds demo ["C"; "A"; "C"]).
Proof.
  assert (Hown : ownSeeds demo ["C"; "A"; "C"]).
  { apply ownSeeds_plain, (bool_decide_unpack _). by vm_compute. }
  assert (Hnd : NoDup (tickers demo)).
  { apply (bool_decide_unpack _). by vm_compute. }
  split; [exact loaded_demo|]. split; [exact Hnd|]. split; [exact Hown|]. split; [by vm_compute|].
  split; [exact demo_correlations_bounded|].
  apply (threshold_above_all_correlations demo ["C"; "A"; "C"] (11 # 10)
           loaded_demo Hnd Hown); [by vm_compute|exact demo_correlations_bounded].
Defined.

(** X9: for a request with a valid seed that reads no name from
    [Object.prototype], with a threshold of zero or less and every entry
    above the diagonal present, all tickers are linked: the cluster is the
    whole ticker list, sorted, and there is exactly one component, which
    holds every node and is flagged. *)
Theorem nonpositive_threshold_links_everything
    (c : CorrData) (mh : list string) (thr : Q) :
  loaded c → NoDup (tickers c) → ownSeeds c mh → validSeeds c mh ≠ [] →
  2 ≤ length (tickers c) → (thr <= 0)%Q →
  (∀ i j, i < j < length (tickers c) → is_Some (entry (matrix c) i j)) →
  ∃ r comp, detectCluster c mh thr = Returned r ∧
    clusterTickers r = jsSort String.leb (tickers c) ∧
    components r = [comp] ∧
    indices comp ≡ₚ seq 0 (length (tickers c)) ∧
    size comp = length (tickers c) ∧
    containsMustHave comp = true.
Proof.
  intros Hload Hnd Hown Hvalid Hn Hthr Hfull.
  destruct (detectCluster_run c mh thr Hload Hown Hvalid)
    as (adj & reachable & part & Hlen & Hgraph & Hndr & Hreach & Hinv & Hrun).
  pose proof (graph_bound _ _ _ _ Hgraph) as Hbound.
  pose proof (reachable_in_range c mh adj reachable Hload Hbound Hreach) as Hrange.
  set (n := length (tickers c)) in *.
  assert (Habove : ∀ i j, i < j < n → aboveThreshold (matrix c) thr i j = true).
  { intros i j Hij. unfold aboveThreshold.
    destruct (Hfull i j Hij) as [x ->]. apply Qle_bool_iff.
    eapply Qle_trans; [exact Hthr|apply Qabs_nonneg]. }
  assert (Hedge : ∀ a b, a < n → b < n → a ≠ b → edge adj a b).
  { intros a b Ha Hb Hab. apply Hgraph. split_and!; [done..|].
    destruct (decide (a < b)); [left|right]; (split; [lia|apply Habove; lia]). }
  assert (Hconn : ∀ a b, a < n → b < n → connected adj a b).
  { intros a b Ha Hb. destruct (decide (a = b)) as [->|Hab]; [apply rtc_refl|].
    apply rtc_once. by apply Hedge. }
  assert (Hseed : ∃ t s, t ∈ validSeeds c mh ∧ tickerIndex c !! t = Some s ∧
                         tickers c !! s = Some t ∧ s < n).
  { destruct (validSeeds c mh) as [|t l] eqn:E; [done|].
    assert (Ht : t ∈ validSeeds c mh) by (rewrite E; left).
    destruct (validSeeds_index c mh t Hload Hown Ht) as (_ & s & ? & ? & ?).
    exists t, s. by rewrite <-E. }
  destruct Hseed as (t0 & s0 & Ht0 & Hs0 & Hts0 & Hs0n).
  assert (Hall : ∀ x, x ∈ reachable ↔ x < n).
  { intros x. split; [apply Hrange|]. intros Hx. apply Hreach.
    exists t0, s0. split_and!; [done..|]. by apply Hconn. }
  (* the single component *)
  assert (H0 : ∃ k comp, found part !! k = Some comp ∧ 0 ∈ indices comp).
  { assert (Hmark : componentOf part !! 0 ≠ Some (-1)%Z).
    { intros Hm. apply (pi_seen _ _ _ _ _ _ Hinv) in Hm; [|lia].
      destruct (Hedge 0 1) as (l & Hl & Hin); [lia..|].
      simplify_eq. by apply elem_of_nil in Hin. }
    assert (Hlt : 0 < length (componentOf part)).
    { rewrite (pi_length _ _ _ _ _ _ Hinv). lia. }
    destruct (lookup_lt_is_Some_2 _ _ Hlt) as [m Hm].
    destruct (pi_marks _ _ _ _ _ _ Hinv 0 m Hm) as [->|(k & comp & -> & Hk & Hin)];
      [done|]. by exists k, comp. }
  destruct H0 as (k & comp & Hk & H0in).
  assert (Hfull_comp : ∀ k' comp', found part !! k' = Some comp' →
            (∀ x, x ∈ indices comp' ↔ x < n) ∧
            componentOf part !! 0 = Some (Z.of_nat k')).
  { intros k' comp' Hk'.
    destruct (pi_found _ _ _ _ _ _ Hinv k' comp' Hk')
      as (_ & _ & root & rest & Hroot & Hri & _ & Hcls & Hm).
    assert (Hin : ∀ x, x ∈ indices comp' ↔ x < n).
    { intros x. rewrite Hcls. split.
      - intros Hc. eapply connected_bound; [done..|lia].
      - intros Hx. apply Hconn; [lia|done]. }
    split; [done|]. apply Hm, Hin. lia. }
  assert (Hone : found part = [comp]).
  { destruct (Hfull_comp k comp Hk) as [_ Hmk].
    destruct (found part) as [|c0 [|c1 l]] eqn:Hf.
    - by rewrite lookup_nil in Hk.
    - destruct k; simpl in Hk; [congruence|by rewrite lookup_nil in Hk].
    - exfalso.
      destruct (Hfull_comp 0 c0) as [_ Hm0]; [done|].
      destruct (Hfull_comp 1 c1) as [_ Hm1]; [done|].
      rewrite Hm0 in Hm1. injection Hm1. lia. }
  assert (Hk0 : found part !! 0 = Some comp) by (by rewrite Hone).
  destruct (Hfull_comp 0 comp Hk0) as [Hin _].
  destruct (pi_found _ _ _ _ _ _ Hinv 0 comp Hk0) as (E & Hndc & _).
  assert (Hperm : indices comp ≡ₚ seq 0 n).
  { apply NoDup_Permutation; [done|apply NoDup_seq|].
    intros x. rewrite Hin, elem_of_seq. lia. }
  eexists _, comp. split; [exact Hrun|]. simpl. split_and!.
  - apply leb_sorted_unique; [apply strings_sorted..|].
    rewrite !jsSort_perm. apply NoDup_Permutation.
    + apply NoDup_fmap_2_strong; [|done].
      intros x y Hx Hy. apply tickerAt_inj; [done|by apply Hall..].
    + done.
    + intros t. rewrite list_elem_of_fmap. split.
      * intros (x & -> & Hx). eapply list_elem_of_lookup_2.
        by apply tickerAt_lookup, Hall.
      * intros (x & Hx)%list_elem_of_lookup. exists x. split.
        -- unfold tickerAt. by rewrite Hx.
        -- apply Hall. by eapply lookup_lt_Some.
  - by rewrite Hone.
  - done.
  - rewrite E. simpl. by rewrite Hperm, length_seq.
  - rewrite E. simpl. apply existsb_elem. exists s0. split; [by apply Hin|].
    unfold isMustHave. rewrite Hts0. by apply bool_decide_eq_true.
Qed.

Lemma demo_entries_present :
  ∀ i j, i < j < length (tickers demo) → is_Some (entry (matrix demo) i j).
Proof.
  intros i j Hij. simpl in Hij.
  destruct i as [|[|[|[|i]]]], j as [|[|[|[|j]]]]; try lia; vm_compute; eauto.
Qed.

Lemma nonpositive_threshold_links_everything_witness :
  loaded demo ∧ NoDup (tickers demo) ∧ ownSeeds demo ["C"] ∧
  validSeeds demo ["C"] ≠ [] ∧
  2 ≤ length (tickers demo) ∧ (0 <= 0)%Q ∧
  (∀ i j, i < j < length (tickers demo) → is_Some (entry (matrix demo) i j)) ∧
  ∃ r comp, detectCluster demo ["C"] 0 = Returned r ∧
    clusterTickers r = jsSort String.leb (tickers demo) ∧
    components r = [comp] ∧
    indices comp ≡ₚ seq 0 (length (tickers demo)) ∧
    size comp = length (tickers demo) ∧
    containsMustHave comp = true.
Proof.
  assert (Hown : ownSeeds demo ["C"]).
  { apply ownSeeds_plain, (bool_decide_unpack _). by vm_compute. }
  assert (Hnd : NoDup (tickers demo)).
  { apply (bool_decide_unpack _). by vm_compute. }
  split; [exact loaded_demo|]. split; [exact Hnd|]. split; [exact Hown|]. split; [by vm_compute|].
  split; [simpl; lia|]. split; [by vm_compute|].
  split; [exact demo_entries_present|].
  apply (nonpositive_threshold_links_everything demo ["C"] 0 loaded_demo Hnd Hown);
    [by vm_compute|simpl; lia|by vm_compute|exact demo_entries_present].
Defined.

(** ** More on the samplers *)

Section SamplerMore.
Import Sampler.

Lemma sorted_lookup_le (l : list Q) i j a b :
  StronglySorted Qle l → i ≤ j → l !! i = Some a → l !! j = Some b → (a <= b)%Q.
Proof.
  intros Hs Hij Ha Hb. destruct (decide (i = j)) as [->|Hne].
  - assert (a = b) by congruence. subst. apply Qle_refl.
  - eapply (StronglySorted_before Qle l a b Hs).
    eapply before_lookup; [done..|lia].
Qed.

Lemma percentiles_ordered latencies f :
  latencies ≠ [] →
  let sorted := jsSort numAscending latencies in
  orderedPercentiles latencies
    {| p50 := sorted !! floorIndex (length sorted) (1 # 2)%Q;
       p95 := sorted !! floorIndex (length sorted) (95 # 100)%Q;
       fps := f |}.
Proof.
  intros Hne sorted.
  assert (Hlen : length sorted = length latencies) by apply jsSort_length.
  assert (0 < length latencies) by (destruct latencies; simpl; [done|lia]).
  rewrite floorIndex_half, floorIndex_95, Hlen.
  destruct (lookup_lt_is_Some_2 sorted (length latencies / 2)) as [x Hx].
  { rewrite Hlen. apply Nat.div_lt; lia. }
  destruct (lookup_lt_is_Some_2 sorted (length latencies * 95 / 100)) as [y Hy].
  { rewrite Hlen. apply Nat.Div0.div_lt_upper_bound. lia. }
  exists x, y. simpl. split_and!; [done..| | |].
  - eapply (sorted_lookup_le sorted); [apply sorted_ascending| |done..].
    assert (length latencies / 2 = length latencies * 50 / (2 * 50)) as ->.
    { by rewrite Nat.Div0.div_mul_cancel_r. }
    apply Nat.Div0.div_le_mono. lia.
  - apply (jsSort_elem numAscending). by eapply list_elem_of_lookup_2.
  - apply (jsSort_elem numAscending). by eapply list_elem_of_lookup_2.
Qed.

Ltac ordered_run :=
  apply percentiles_ordered, latenciesOf_nonempty; unfold samplesOf; lia.

(** X10: whenever a sampler collects at least one latency, its p50 and p95
    are defined, both are latencies measured in the run, and p50 <= p95. *)
Theorem percentiles_are_ordered_samples (total : nat) (n m : Z) (clk : clock) :
  0 < total → (0 < n)%Z →
  (∃ s, Matrix.measureHoverLatency total m clk = ResStats s ∧
        orderedPercentiles (latenciesOf clk (samplesOf 200 (Z.of_nat total))) s) ∧
  (∃ s, Matrix.measureBrushLatency total n clk = ResStats s ∧
        orderedPercentiles (latenciesOf clk (samplesOf 100 n)) s) ∧
  (∃ s, MatrixEnriched.measureBrush total n clk = ResStats s ∧
        orderedPercentiles (latenciesOf clk (samplesOf 60 n)) s) ∧
  (∃ s, PrismDynamic.measureBrush total n clk = ResStats s ∧
        orderedPercentiles (latenciesOf clk (samplesOf 50 n)) s) ∧
  (∃ s, PrismMulti.measureBrush total n clk = ResStats s ∧
        orderedPercentiles (latenciesOf clk (samplesOf 50 n)) s) ∧
  (∃ s, Prism.measurePrismHoverLatency total clk = ResStats s ∧
        orderedPercentiles (latenciesOf clk (samplesOf 300 (Z.of_nat total))) s) ∧
  (∃ s, Prism.measurePrismBrushLatency total n clk = ResStats s ∧
        orderedPercentiles (latenciesOf clk (samplesOf 100 n)) s).
Proof.
  intros Ht Hn. split_and!.
  - unfold Matrix.measureHoverLatency.
    rewrite bool_decide_eq_false_2 by lia. rewrite next_run.
    eexists. split; [done|]. ordered_run.
  - unfold Matrix.measureBrushLatency.
    rewrite bool_decide_eq_false_2 by lia. rewrite next_run.
    eexists. split; [done|]. ordered_run.
  - unfold MatrixEnriched.measureBrush. rewrite brush_run by done.
    eexists. split; [done|]. ordered_run.
  - unfold PrismDynamic.measureBrush. rewrite brush_run by done.
    eexists. split; [done|]. ordered_run.
  - unfold PrismMulti.measureBrush. rewrite brush_run by done.
    eexists. split; [done|]. ordered_run.
  - unfold Prism.measurePrismHoverLatency.
    rewrite bool_decide_eq_false_2 by lia. rewrite next_run.
    eexists. split; [done|]. ordered_run.
  - unfold Prism.measurePrismBrushLatency. rewrite brush_run by done.
    eexists. split; [done|]. ordered_run.
Qed.

Lemma percentiles_are_ordered_samples_witness :
  0 < 9 ∧ (0 < 4)%Z ∧
  ∃ s, MatrixEnriched.measureBrush 9 4 steadyClock = ResStats s ∧
       orderedPercentiles (latenciesOf steadyClock (samplesOf 60 4)) s.
Proof.
  split; [lia|]. split; [lia|].
  apply (percentiles_are_ordered_samples 9 4 0 steadyClock); lia.
Defined.

Lemma stampsOf_lookup clk k i :
  i < k → stampsOf clk k !! i = Some (clk i).2.
Proof.
  intros Hi. unfold stampsOf.
  change (((λ i, (clk i).2) <$> seq 0 k) !! i = Some (clk i).2).
  rewrite list_lookup_fmap. by rewrite lookup_seq_lt.
Qed.

Lemma latenciesOf_elem clk k x :
  x ∈ latenciesOf clk k → ∃ i, x = ((clk i).2 - (clk i).1)%Q.
Proof. unfold latenciesOf. intros (i & -> & _)%list_elem_of_fmap. by exists i. Qed.

Lemma monotone_stamps clk i j :
  monotoneClock clk → i ≤ j → ((clk i).2 <= (clk j).2)%Q.
Proof.
  intros [_ Hm] Hij. induction Hij as [|j Hij IH]; [apply Qle_refl|].
  eapply Qle_trans; [exact IH|apply Hm].
Qed.

Lemma difference_nonneg (a b : Q) : (a <= b)%Q → (0 <= b - a)%Q.
Proof.
  intros Hab. apply (Qplus_le_l _ _ a).
  assert (E : (b - a + a == b)%Q) by ring.
  by rewrite E, Qplus_0_l.
Qed.

Lemma round_notNegative q : (0 < q)%Q → notNegative (Double.round q).
Proof.
  intros Hq. pose proof (round_positive q Hq) as H.
  destruct (Double.round q); simpl; [done|apply H..].
Qed.

Lemma sub_notNegative (first last : Q) :
  (first <= last)%Q →
  notNegative (Double.sub (Double.exact last) (Double.exact first)).
Proof.
  intros Hle. destruct (Qeq_dec (last - first) 0) as [Hz|Hnz].
  - assert (Heq : (first == last)%Q) by lra.
    unfold Double.sub, Double.exact.
    destruct (Qeq_bool last 0) eqn:Hl.
    + apply Qeq_bool_iff in Hl.
      rewrite (proj2 (Qeq_bool_iff first 0)) by (by rewrite Heq). done.
    + destruct (Qeq_bool first 0) eqn:Hf.
      * apply Qeq_bool_iff in Hf. apply Qeq_bool_neq in Hl.
        exfalso. apply Hl. by rewrite <-Heq.
      * simpl. rewrite (proj2 (Qeq_bool_iff _ 0)); [done|]. rewrite Heq. ring.
  - destruct (sub_exact last first Hnz) as (d & -> & [->| (q & -> & Hq)]).
    + apply round_notNegative. lra.
    + simpl. lra.
Qed.

Lemma div_notNegative x b :
  notNegative x → (0 < b)%Q → notNegative (Double.div x (Double.Finite b)).
Proof.
  intros Hx Hb. assert (Hs : Double.Qltb b 0 = false) by (apply Qltb_ge; lra).
  destruct x as [|s|s|a]; simpl in *; [done|by rewrite Hx, Hs..|].
  apply round_notNegative. apply Qlt_shift_div_l; lra.
Qed.

Lemma div_finite_notNegative a y :
  (0 < a)%Q → notNegative y → notNegative (Double.div (Double.Finite a) y).
Proof.
  intros Ha Hy. assert (Hs : Double.Qltb a 0 = false) by (apply Qltb_ge; lra).
  destruct y as [|s|s|b]; simpl in *; [done|by rewrite Hy, Hs..|].
  apply round_notNegative. apply Qlt_shift_div_l; lra.
Qed.

Lemma roundHalfUp_notNegative x :
  notNegative x →
  (∀ f, ofDouble (Double.roundHalfUp x) = Num f → (0 <= f)%Q) ∧
  ofDouble (Double.roundHalfUp x) ≠ NegInfinity.
Proof.
  intros Hx. destruct x as [|s|s|q]; simpl in Hx; [done|subst s..|].
  - done.
  - split; [|done]. intros f [= <-]. lra.
  - rewrite roundHalfUp_finite. split; [|done]. intros f Hf.
    assert (f = inject_Z (Qfloor (q + (1 # 2)))) as -> by congruence.
    rewrite <-(Zle_Qle 0). apply (Z.le_trans _ (Qfloor 0)); [done|].
    apply (Qfloor_resp_le 0 (q + (1 # 2))). lra.
Qed.

Lemma fpsOf_notNegative clk k :
  monotoneClock clk → notNegative (fpsOf (stampsOf clk k)).
Proof.
  intros Hmono. unfold fpsOf. rewrite stampsOf_length.
  case_bool_decide as Hk; [|done].
  rewrite (nth_lookup_Some _ _ _ _ (stampsOf_lookup clk k (k - 1) ltac:(lia))).
  rewrite (nth_lookup_Some _ _ _ _ (stampsOf_lookup clk k 0 ltac:(lia))).
  destruct (count_positive k Hk) as [-> Hn].
  apply (div_finite_notNegative (inject_Z 1000)); [done|].
  apply div_notNegative; [|lra].
  apply sub_notNegative, monotone_stamps; [done|lia].
Qed.

Lemma fpsOf_nonneg clk k :
  monotoneClock clk →
  let f := Some (ofDouble (Double.roundHalfUp (fpsOf (stampsOf clk k)))) in
  (∀ q, f = Some (Num q) → (0 <= q)%Q) ∧ f ≠ Some NegInfinity.
Proof.
  intros Hmono f.
  destruct (roundHalfUp_notNegative _ (fpsOf_notNegative clk k Hmono)) as [H1 H2].
  split; [intros q [= Hq]; by apply H1|intros [= Hq]; by apply H2].
Qed.

Lemma finish_nonneg clk k f :
  monotoneClock clk →
  (∀ q, f = Some (Num q) → (0 <= q)%Q) ∧ f ≠ Some NegInfinity →
  let sorted := jsSort numAscending (latenciesOf clk k) in
  nonnegativeStats
    {| p50 := sorted !! floorIndex (length sorted) (1 # 2)%Q;
       p95 := sorted !! floorIndex (length sorted) (95 # 100)%Q;
       fps := f |}.
Proof.
  intros Hmono [Hf Hf'] sorted.
  assert (Hlat : ∀ i x, sorted !! i = Some x → (0 <= x)%Q).
  { intros i x Hx. apply list_elem_of_lookup_2 in Hx.
    apply (jsSort_elem numAscending), latenciesOf_elem in Hx as [j ->].
    apply difference_nonneg, Hmono. }
  split_and!; simpl; [by eapply Hlat..|done|done].
Qed.

(** X11: on a clock that never runs backwards no sampler reports a
    negative percentile or a negative frame rate. *)
Theorem statistics_are_nonnegative (total : nat) (n : Z) (clk : clock) :
  0 < total → monotoneClock clk →
  (∃ s, Matrix.measureHoverLatency total n clk = ResStats s ∧ nonnegativeStats s) ∧
  (∃ s, Matrix.measureBrushLatency total n clk = ResStats s ∧ nonnegativeStats s) ∧
  (∃ s, MatrixEnriched.measureBrush total n clk = ResStats s ∧ nonnegativeStats s) ∧
  (∃ s, PrismDynamic.measureBrush total n clk = ResStats s ∧ nonnegativeStats s) ∧
  (∃ s, PrismMulti.measureBrush total n clk = ResStats s ∧ nonnegativeStats s) ∧
  (∃ s, Prism.measurePrismHoverLatency total clk = ResStats s ∧ nonnegativeStats s) ∧
  (∃ s, Prism.measurePrismBrushLatency total n clk = ResStats s ∧ nonnegativeStats s).
Proof.
  intros Ht Hmono. split_and!.
  - unfold Matrix.measureHoverLatency.
    rewrite bool_decide_eq_false_2 by lia. rewrite next_run.
    eexists. split; [done|]. by apply finish_nonneg.
  - unfold Matrix.measureBrushLatency.
    rewrite bool_decide_eq_false_2 by lia. rewrite next_run.
    eexists. split; [done|]. apply finish_nonneg; [done|].
    by apply fpsOf_nonneg.
  - unfold MatrixEnriched.measureBrush. rewrite brush_run by done.
    eexists. split; [done|]. apply finish_nonneg; [done|].
    by apply fpsOf_nonneg.
  - unfold PrismDynamic.measureBrush. rewrite brush_run by done.
    eexists. split; [done|]. apply finish_nonneg; [done|].
    by apply fpsOf_nonneg.
  - unfold PrismMulti.measureBrush. rewrite brush_run by done.
    eexists. split; [done|]. apply finish_nonneg; [done|].
    by apply fpsOf_nonneg.
  - unfold Prism.measurePrismHoverLatency.
    rewrite bool_decide_eq_false_2 by lia. rewrite next_run.
    eexists. split; [done|]. by apply finish_nonneg.
  - unfold Prism.measurePrismBrushLatency. rewrite brush_run by done.
    eexists. split; [done|]. apply finish_nonneg; [done|].
    by apply fpsOf_nonneg.
Qed.

Lemma steadyClock_monotone : monotoneClock steadyClock.
Proof.
  split; intros i; unfold steadyClock; simpl; rewrite <-Zle_Qle; lia.
Qed.

Lemma statistics_are_nonnegative_witness :
  0 < 3 ∧ monotoneClock steadyClock ∧
  ∃ s, PrismDynamic.measureBrush 3 7 steadyClock = ResStats s ∧ nonnegativeStats s.
Proof.
  split; [lia|]. split; [exact steadyClock_monotone|].
  apply (statistics_are_nonnegative 3 7 steadyClock); [lia|exact steadyClock_monotone].
Defined.

(** X12: a brush sampler asked for no trial on a non-empty target resolves
    with both percentiles undefined and a frame rate of 0. *)
Theorem no_trial_leaves_percentiles_undefined (total : nat) (n : Z) (clk : clock) :
  0 < total → (n <= 0)%Z →
  Matrix.measureBrushLatency total n clk = ResStats undefinedStats ∧
  MatrixEnriched.measureBrush total n clk = ResStats undefinedStats ∧
  PrismDynamic.measureBrush total n clk = ResStats undefinedStats ∧
  PrismMulti.measureBrush total n clk = ResStats undefinedStats ∧
  Prism.measurePrismBrushLatency total n clk = ResStats undefinedStats.
Proof.
  intros Ht Hn.
  assert (Hs : ∀ cap, (0 < cap)%Z → samplesOf cap n = 0).
  { intros cap Hcap. unfold samplesOf. lia. }
  unfold Matrix.measureBrushLatency, MatrixEnriched.measureBrush,
    PrismDynamic.measureBrush, PrismMulti.measureBrush,
    Prism.measurePrismBrushLatency.
  rewrite !bool_decide_eq_false_2 by lia.
  rewrite !Hs by lia. done.
Qed.

Lemma no_trial_leaves_percentiles_undefined_witness :
  0 < 4 ∧ (0 <= 0)%Z ∧
  MatrixEnriched.measureBrush 4 0 steadyClock = ResStats undefinedStats.
Proof.
  split; [lia|]. split; [lia|].
  apply (no_trial_leaves_percentiles_undefined 4 0 steadyClock); lia.
Defined.
End SamplerMore.

(** ** The ticker field, the market proxy and the sector peer *)

Section CombinedFacts.
Import Combined KnowledgeView.

Lemma upperChar_clean a :
  isSeparator a = false →
  isSeparator (upperChar a) = false ∧ ¬ lowerCase (upperChar a).
Proof.
  destruct a as [[] [] [] [] [] [] [] []]; vm_compute; intros; (split; [done|lia]).
Qed.

Lemma upperChar_id a : ¬ lowerCase a → upperChar a = a.
Proof.
  unfold lowerCase, upperChar. intros H.
  destruct (97 <=? _) eqn:E1; [|done].
  destruct (_ <=? 122) eqn:E2; [|done].
  apply Nat.leb_le in E1, E2. lia.
Qed.

Lemma separator_of_space a : Ascii.is_space a = true → isSeparator a = true.
Proof. unfold isSeparator. by intros ->. Qed.

Lemma chars_cons a s : chars (String a s) = a :: chars s.
Proof. done. Qed.

Lemma split_nonempty s : split s ≠ [].
Proof.
  induction s as [|a s IH]; simpl; [done|].
  destruct (isSeparator a).
  - by destruct (startsWithSeparator s).
  - by destruct (split s).
Qed.

Lemma split_tokens s :
  Forall (λ t, Forall (λ a, isSeparator a = false) (chars t)) (split s).
Proof.
  induction s as [|a s IH]; simpl.
  - repeat constructor.
  - destruct (isSeparator a) eqn:Ha.
    + destruct (startsWithSeparator s); [done|]. constructor; [constructor|done].
    + destruct (split s) as [|h r]; [repeat constructor; done|].
      inversion IH; subst. constructor; [|done]. by constructor.
Qed.

Lemma trimStart_id t :
  Forall (λ a, isSeparator a = false) (chars t) → trimStart t = t.
Proof.
  destruct t as [|a t]; [done|]. rewrite chars_cons. intros H.
  inversion H as [|?? Ha _]; subst. simpl.
  destruct (Ascii.is_space a) eqn:E; [|done].
  apply separator_of_space in E. congruence.
Qed.

Lemma trimEnd_id t :
  Forall (λ a, isSeparator a = false) (chars t) → trimEnd t = t.
Proof.
  induction t as [|a t IH]; [done|]. rewrite chars_cons. intros H.
  inversion H as [|?? Ha Ht]; subst. simpl. rewrite IH by done.
  destruct (Ascii.is_space a) eqn:E; [|done].
  apply separator_of_space in E. congruence.
Qed.

Lemma trim_id t :
  Forall (λ a, isSeparator a = false) (chars t) → trim t = t.
Proof. intros H. unfold trim. by rewrite trimStart_id, trimEnd_id. Qed.

Lemma toUpperCase_clean t :
  Forall (λ a, isSeparator a = false) (chars t) →
  Forall (λ a, isSeparator a = false ∧ ¬ lowerCase a) (chars (toUpperCase t)).
Proof.
  induction t as [|a t IH]; cbn [toUpperCase]; [constructor|].
  rewrite !chars_cons. intros H. inversion H; subst.
  constructor; [by apply upperChar_clean|by apply IH].
Qed.

Lemma toUpperCase_id t :
  Forall (λ a, isSeparator a = false ∧ ¬ lowerCase a) (chars t) →
  toUpperCase t = t.
Proof.
  induction t as [|a t IH]; cbn [toUpperCase]; [done|].
  rewrite chars_cons. intros H. inversion H as [|?? [_ Ha] Ht]; subst.
  by rewrite upperChar_id, IH.
Qed.

Lemma toUpperCase_empty t : toUpperCase t = EmptyString ↔ t = EmptyString.
Proof. by destruct t. Qed.

Lemma length_pos t : 0 < String.length t ↔ t ≠ EmptyString.
Proof. destruct t; simpl; split; (done || lia). Qed.

(** The parsed list, token by token. *)
Lemma parse_tokens raw :
  parseMustHaveTickers raw =
  filter (λ t, t ≠ EmptyString) (map toUpperCase (split raw)).
Proof.
  unfold parseMustHaveTickers.
  pose proof (split_tokens raw) as H.
  induction H as [|t l Ht _ IH]; [done|].
  rewrite !map_cons, !filter_cons, IH, (trim_id t) by done.
  destruct (decide (0 < _)) as [Hl|Hl], (decide (toUpperCase t ≠ _)) as [Hn|Hn];
    try done; apply length_pos in Hl || (exfalso; apply Hl, length_pos); done.
Qed.

(** X13: every ticker that [parseMustHaveTickers] returns is non-empty
    and contains no comma, semicolon, white space or lower-case letter,
    whatever the text of the field. *)
Theorem parsed_tickers_are_clean (raw : string) :
  Forall cleanTicker (parseMustHaveTickers raw).
Proof.
  rewrite parse_tokens. pose proof (split_tokens raw) as H.
  induction H as [|t l Ht _ IH]; [constructor|].
  rewrite map_cons, filter_cons. destruct (decide _) as [Hn|]; [|done].
  constructor; [|done]. split; [done|]. by apply toUpperCase_clean.
Qed.

Lemma split_blank raw : Forall (λ t, t = EmptyString) (split raw) ↔ blank raw.
Proof.
  unfold blank. induction raw as [|a s IH]; cbn [split].
  - split; intros _; repeat constructor.
  - rewrite chars_cons, Forall_cons. destruct (isSeparator a) eqn:Ha.
    + destruct (startsWithSeparator s).
      * rewrite IH. naive_solver.
      * rewrite Forall_cons, IH. naive_solver.
    + split; [|by intros [? _]].
      destruct (split s); intros H; by inversion H.
Qed.

Lemma filter_nil_iff {A} (P : A → Prop) `{∀ x, Decision (P x)} (l : list A) :
  filter P l = [] ↔ Forall (λ x, ¬ P x) l.
Proof.
  induction l as [|x l IH]; [by split; [constructor|]|].
  rewrite filter_cons, Forall_cons. destruct (decide (P x)); naive_solver.
Qed.

(** X14: [parseMustHaveTickers] returns no ticker, the case in which
    [onGenerateClusters] asks for one, exactly when the field holds nothing
    but commas, semicolons and white space. *)
Theorem no_ticker_iff_blank_field (raw : string) :
  asciiText raw →
  parseMustHaveTickers raw = [] ↔ blank raw.
Proof.
  intros _. rewrite parse_tokens, <-split_blank.
  induction (split raw) as [|t l IH]; [by split; [constructor|]|].
  rewrite map_cons, filter_cons, Forall_cons, <-IH, <-(toUpperCase_empty t).
  destruct (decide (toUpperCase t ≠ EmptyString)) as [Hn|Hn]; [naive_solver|].
  apply dec_stable in Hn. naive_solver.
Qed.

Lemma no_ticker_iff_blank_field_witness :
  asciiText " ,; " ∧ (parseMustHaveTickers " ,; " = [] ↔ blank " ,; ").
Proof.
  split; [repeat constructor; vm_compute; lia|].
  apply (no_ticker_iff_blank_field " ,; "). repeat constructor; vm_compute; lia.
Defined.

Lemma split_token t :
  Forall (λ a, isSeparator a = false) (chars t) → split t = [t].
Proof.
  induction t as [|a t IH]; [done|]. rewrite chars_cons. intros H.
  inversion H as [|?? Ha Ht]; subst. cbn [split].
  destruct (isSeparator a); [done|]. by rewrite IH.
Qed.

Lemma append_cons a t s :
  String.append (String a t) s = String a (String.append t s).
Proof. done. Qed.

Lemma split_app_token t s h r :
  Forall (λ a, isSeparator a = false) (chars t) →
  split s = h :: r →
  split (String.append t s) = String.append t h :: r.
Proof.
  intros Ht Hs. induction t as [|a t IH]; [done|].
  rewrite chars_cons in Ht. inversion Ht as [|?? Ha Ht']; subst.
  rewrite !append_cons. cbn [split].
  destruct (isSeparator a); [done|]. by rewrite IH.
Qed.

Lemma append_empty t : String.append t EmptyString = t.
Proof. induction t as [|a t IH]; [done|]. by rewrite append_cons, IH. Qed.

Lemma join_cons t t' ts :
  joinTickers (t :: t' :: ts) =
  String.append t (String.append ", " (joinTickers (t' :: ts))).
Proof. done. Qed.

Lemma join_starts t ts :
  cleanTicker t → startsWithSeparator (joinTickers (t :: ts)) = false.
Proof.
  intros [Hne Ht]. destruct t as [|a t]; [done|].
  rewrite chars_cons in Ht. inversion Ht as [|?? [Ha _] _]; subst.
  destruct ts; done.
Qed.

Lemma cleanTicker_tokens t :
  cleanTicker t → Forall (λ a, isSeparator a = false) (chars t).
Proof. intros [_ H]. eapply Forall_impl; [done|]. by intros ? [? _]. Qed.

Lemma split_separator s :
  startsWithSeparator s = false →
  split (String.append ", " s) = EmptyString :: split s.
Proof.
  intros Hs. rewrite !append_cons. cbn [split startsWithSeparator].
  change (String.append EmptyString s) with s.
  repeat match goal with
  | |- context [isSeparator ?a] =>
      let v := eval vm_compute in (isSeparator a) in
      change (isSeparator a) with v
  end.
  cbn match. by rewrite Hs.
Qed.

Lemma split_join ts :
  Forall cleanTicker ts → ts ≠ [] → split (joinTickers ts) = ts.
Proof.
  induction ts as [|t ts IH]; [done|]. intros H _.
  inversion H as [|?? Ht Hts]; subst.
  destruct ts as [|t' ts].
  - by apply split_token, cleanTicker_tokens.
  - rewrite join_cons.
    rewrite (split_app_token t _ EmptyString (t' :: ts)).
    + by rewrite append_empty.
    + by apply cleanTicker_tokens.
    + inversion Hts; subst.
      rewrite split_separator by (by apply join_starts). by rewrite IH.
Qed.

(** X15: a list of clean tickers joined with [', '], as the status line
    and the report show it, is parsed back to the same list, in the same
    order and with its repetitions. *)
Theorem ticker_list_round_trip (tickers : list string) :
  Forall cleanTicker tickers → Forall asciiText tickers →
  parseMustHaveTickers (joinTickers tickers) = tickers.
Proof.
  intros H _. destruct (decide (tickers = [])) as [->|Hne]; [done|].
  rewrite parse_tokens, split_join by done.
  induction H as [|t l [Hne' Ht] _ IH]; [done|].
  rewrite map_cons, filter_cons, toUpperCase_id by done.
  rewrite decide_True by done. f_equal.
  destruct l; [done|]. by apply IH.
Qed.

Lemma ticker_list_round_trip_witness :
  Forall cleanTicker ["AAPL"; "BRK.B"] ∧ Forall asciiText ["AAPL"; "BRK.B"] ∧
  parseMustHaveTickers (joinTickers ["AAPL"; "BRK.B"]) = ["AAPL"; "BRK.B"].
Proof.
  assert (Hc : Forall cleanTicker ["AAPL"; "BRK.B"]).
  { repeat constructor; try done; vm_compute; lia. }
  assert (Ha : Forall asciiText ["AAPL"; "BRK.B"]).
  { repeat constructor; vm_compute; lia. }
  split; [exact Hc|]. split; [exact Ha|].
  exact (ticker_list_round_trip ["AAPL"; "BRK.B"] Hc Ha).
Defined.

(** X16: when some available ticker lies outside the cluster,
    [findMarketProxy] returns an available ticker outside the cluster, and
    one of the five index funds whenever one of them qualifies. *)
Theorem market_proxy_outside_cluster (clusterTickers allTickers : list string) :
  (∃ t, t ∈ allTickers ∧ t ∉ clusterTickers) →
  ∃ p, findMarketProxy clusterTickers allTickers = Some p ∧
       p ∈ allTickers ∧ (p ∉ clusterTickers) ∧
       ((∃ c, c ∈ candidates ∧ c ∈ allTickers ∧ c ∉ clusterTickers) →
        p ∈ candidates).
Proof.
  intros (t & Ht & Hnt). unfold findMarketProxy.
  destruct (list_find _ candidates) as [[i c]|] eqn:Hc.
  - apply list_find_Some in Hc as (Hi & [Hin Hout] & _).
    exists c. repeat split; try done. intros _. by eapply list_elem_of_lookup_2.
  - apply list_find_None in Hc.
    destruct (list_find _ allTickers) as [[i p]|] eqn:Hp.
    + apply list_find_Some in Hp as (Hi & Hout & _).
      exists p. repeat split; try done; [by eapply list_elem_of_lookup_2|].
      intros (c & Hcand & Hin & Hcout).
      rewrite Forall_forall in Hc. by destruct (Hc c Hcand).
    + apply list_find_None in Hp. rewrite Forall_forall in Hp.
      by destruct (Hp t Ht).
Qed.

Lemma market_proxy_outside_cluster_witness :
  (∃ t, t ∈ ["AAPL"; "QQQ"; "SPY"] ∧ t ∉ ["AAPL"; "SPY"]) ∧
  ∃ p, findMarketProxy ["AAPL"; "SPY"] ["AAPL"; "QQQ"; "SPY"] = Some p ∧
       p ∈ ["AAPL"; "QQQ"; "SPY"] ∧ (p ∉ ["AAPL"; "SPY"]) ∧
       ((∃ c, c ∈ candidates ∧ c ∈ ["AAPL"; "QQQ"; "SPY"] ∧ c ∉ ["AAPL"; "SPY"]) →
        p ∈ candidates).
Proof.
  assert (H : ∃ t, t ∈ ["AAPL"; "QQQ"; "SPY"] ∧ t ∉ ["AAPL"; "SPY"]).
  { exists "QQQ". split; apply (bool_decide_unpack _); by vm_compute. }
  split; [exact H|].
  exact (market_proxy_outside_cluster ["AAPL"; "SPY"] ["AAPL"; "QQQ"; "SPY"] H).
Defined.

(** X17: when the cluster contains every available ticker,
    [findMarketProxy] falls back to the first available ticker, a member
    of the cluster ([undefined] when there is none). *)
Theorem market_proxy_inside_cluster (clusterTickers allTickers : list string) :
  (∀ t, t ∈ allTickers → t ∈ clusterTickers) →
  findMarketProxy clusterTickers allTickers = head allTickers.
Proof.
  intros Hall. unfold findMarketProxy.
  destruct (list_find _ candidates) as [[i c]|] eqn:Hc.
  - apply list_find_Some in Hc as (_ & [Hin Hout] & _). by destruct Hout; apply Hall.
  - destruct (list_find _ allTickers) as [[i p]|] eqn:Hp; [|done].
    apply list_find_Some in Hp as (Hi & Hout & _).
    destruct Hout. by eapply Hall, list_elem_of_lookup_2.
Qed.

Lemma market_proxy_inside_cluster_witness :
  (∀ t, t ∈ ["AAPL"; "SPY"] → t ∈ ["SPY"; "AAPL"]) ∧
  findMarketProxy ["SPY"; "AAPL"] ["AAPL"; "SPY"] = Some "AAPL".
Proof.
  assert (H : ∀ t, t ∈ ["AAPL"; "SPY"] → t ∈ ["SPY"; "AAPL"]).
  { intros t. rewrite !elem_of_cons. naive_solver. }
  split; [exact H|].
  exact (market_proxy_inside_cluster ["SPY"; "AAPL"] ["AAPL"; "SPY"] H).
Defined.



End CombinedFacts.

(** ** The matrix of a cluster *)

Section MatrixFacts.
Import MatrixView Combined.

(** X19: every adaptive cell size (matrix, enriched matrix, prisms) lies
    between 1 and its cap; the plot of [n] cells fits the available width
    whenever [n] does not exceed it, the size is 1 beyond that, and the
    cap is used when it fits. *)
Theorem cell_size_fits (cap width n : nat) :
  1 ≤ cap → 1 ≤ width →
  1 ≤ cellSizeFor cap width n ≤ cap ∧
  (1 ≤ n ≤ width → n * cellSizeFor cap width n ≤ width) ∧
  (width < n → cellSizeFor cap width n = 1) ∧
  (1 ≤ n → cap * n ≤ width → cellSizeFor cap width n = cap).
Proof.
  intros Hcap Hwidth. unfold cellSizeFor. case_bool_decide as Hn; [lia|].
  pose proof (Nat.div_mod_eq width n) as Hdiv.
  pose proof (Nat.mod_upper_bound width n Hn) as Hmod.
  split_and!; [lia|lia|nia| |].
  - intros Hlt. rewrite Nat.div_small by done. lia.
  - intros _ Hfit. assert (cap ≤ width / n) by (apply Nat.div_le_lower_bound; lia).
    lia.
Qed.

Lemma cell_size_fits_witness :
  1 ≤ 6 ∧ 1 ≤ 500 ∧
  120 * cellSize (Some 500) 120 ≤ 500 ∧ cellSize (Some 500) 120 = 4.
Proof.
  split; [lia|]. split; [lia|].
  destruct (cell_size_fits 6 500 120 ltac:(lia) ltac:(lia)) as (_ & Hfit & _).
  split; [apply Hfit; lia|by vm_compute].
Defined.

Lemma mapM_returned {A B : Type} (f : A → outcome B) (g : A → B) (l : list A) :
  (∀ x, x ∈ l → f x = Returned (g x)) → mapM f l = Returned (map g l).
Proof.
  induction l as [|x l IH]; [done|]. intros H. simpl.
  rewrite (H x) by left. simpl. rewrite IH; [done|].
  intros y Hy. apply H. by right.
Qed.

(** The call returns when every index it reads has a row. *)
Lemma subsetMatrix_returns (c : CorrData) (subset : list string) :
  ownSeeds c subset →
  (∀ t, t ∈ subset → default 0 (tickerIndex c !! t) < length (matrix c)) →
  subsetMatrix c subset =
    Returned (subset,
              let indices := map (λ t, default 0 (tickerIndex c !! t)) subset in
              map (λ r, map (λ col, entry (matrix c) r col) indices) indices).
Proof.
  intros Hown Hrows. unfold subsetMatrix.
  assert (Hidx : map (indexOf (tickerIndex c)) subset =
                 map Some (map (λ t, default 0 (tickerIndex c !! t)) subset)).
  { rewrite map_map.
    change (indexOf (tickerIndex c) <$> subset =
            (λ t, Some (default 0 (tickerIndex c !! t))) <$> subset).
    apply list_fmap_ext. intros i t Hit. unfold indexOf, getProperty.
    destruct (tickerIndex c !! t) eqn:E; [done|]. case_bool_decide as Hp; [|done].
    destruct (Hown t) as [? ?]; [by eapply list_elem_of_lookup_2|done|congruence]. }
  rewrite Hidx.
  rewrite (mapM_returned _
    (λ r, map (λ col, entry (matrix c) (default 0 r) col)
              (map (λ t, default 0 (tickerIndex c !! t)) subset))).
  - by rewrite map_map.
  - intros r (r' & -> & (t & -> & Ht)%list_elem_of_fmap)%list_elem_of_fmap.
    simpl. destruct (lookup_lt_is_Some_2 _ _ (Hrows t Ht)) as [row Hrow].
    rewrite Hrow. f_equal. rewrite map_map. apply map_ext. intros col.
    unfold entry. by rewrite Hrow.
Qed.

Lemma cell_map {A : Type} (f : A → A → option Q) (l : list A) a b x y :
  l !! a = Some x → l !! b = Some y →
  cell (map (λ r, map (f r) l) l) a b = Some (f x y).
Proof.
  intros Ha Hb. unfold cell.
  change (map (λ r, map (f r) l) l) with ((λ r, f r <$> l) <$> l).
  rewrite list_lookup_fmap, Ha. simpl. by rewrite list_lookup_fmap, Hb.
Qed.

(** X20: for tickers of the data, [subsetMatrix] returns the list it was
    given and a matrix with one row per ticker whose entry [a][b] is the
    full matrix's correlation of the [a]-th and [b]-th ticker; a symmetric
    full matrix gives a symmetric sub-matrix. *)
Theorem subset_matrix_entries (c : CorrData) (subset : list string) :
  loaded c → (∀ t, t ∈ subset → t ∈ tickers c) →
  ∃ m, subsetMatrix c subset = Returned (subset, m) ∧
       length m = length subset ∧
       (∀ a b ta tb, subset !! a = Some ta → subset !! b = Some tb →
          ∃ i j, tickers c !! i = Some ta ∧ tickers c !! j = Some tb ∧
                 cell m a b = Some (entry (matrix c) i j)) ∧
       (symmetricMatrix (matrix c) →
        ∀ a b x, cell m a b = Some (Some x) →
                 ∃ y, cell m b a = Some (Some y) ∧ (x == y)%Q).
Proof.
  intros [Hidx Hrows] Hsub.
  assert (Hknown : ∀ t, t ∈ subset →
            ∃ i, tickerIndex c !! t = Some i ∧ tickers c !! i = Some t).
  { intros t Ht. destruct (proj2 (buildTickerIndex_is_Some (tickers c) t)) as [i Hi];
      [by apply Hsub|].
    exists i. rewrite Hidx. split; [done|]. by apply buildTickerIndex_lookup. }
  rewrite subsetMatrix_returns.
  2: { intros t Ht _. destruct (Hknown t Ht) as (i & Hi & _). eauto. }
  2: { intros t (i & -> & Hi)%Hknown. simpl. rewrite Hrows.
       by eapply lookup_lt_Some. }
  eexists. split; [done|]. simpl.
  assert (Hcell : ∀ a b ta tb, subset !! a = Some ta → subset !! b = Some tb →
            cell (map (λ r, map (λ col, entry (matrix c) r col)
                                (map (λ t, default 0 (tickerIndex c !! t)) subset))
                      (map (λ t, default 0 (tickerIndex c !! t)) subset)) a b =
            Some (entry (matrix c) (default 0 (tickerIndex c !! ta))
                        (default 0 (tickerIndex c !! tb)))).
  { intros a b ta tb Ha Hb.
    apply (cell_map (entry (matrix c)));
      change (map ?f subset) with (f <$> subset);
      rewrite list_lookup_fmap; [by rewrite Ha|by rewrite Hb]. }
  split_and!.
  - by rewrite !length_map.
  - intros a b ta tb Ha Hb.
    destruct (Hknown ta) as (i & Hi & Hti); [by eapply list_elem_of_lookup_2|].
    destruct (Hknown tb) as (j & Hj & Htj); [by eapply list_elem_of_lookup_2|].
    exists i, j. split_and!; [done..|].
    by rewrite (Hcell a b ta tb Ha Hb), Hi, Hj.
  - intros Hsym a b x Hab.
    assert (Hlt : ∀ k (r : list (option Q)),
              map (λ r, map (λ col, entry (matrix c) r col)
                                (map (λ t, default 0 (tickerIndex c !! t)) subset))
                      (map (λ t, default 0 (tickerIndex c !! t)) subset) !! k = Some r →
              is_Some (subset !! k)).
    { intros k r Hk. apply lookup_lt_is_Some. apply lookup_lt_Some in Hk.
      by rewrite !length_map in Hk. }
    unfold cell in Hab.
    destruct (_ !! a) as [row|] eqn:Hrow; [|done]. simpl in Hab.
    destruct (Hlt a row Hrow) as [ta Ha].
    assert (is_Some (subset !! b)) as [tb Hb].
    { apply lookup_lt_is_Some. apply lookup_lt_Some in Hab.
      change (map ?f ?l) with (f <$> l) in Hrow.
      rewrite list_lookup_fmap in Hrow.
      destruct (_ !! a) as [r|] eqn:Hr; [|done]. injection Hrow as <-.
      by rewrite !length_map in Hab. }
    pose proof (Hcell a b ta tb Ha Hb) as H1.
    pose proof (Hcell b a tb ta Hb Ha) as H2.
    unfold cell in H1. rewrite Hrow in H1. simpl in H1.
    rewrite Hab in H1. injection H1 as H1.
    rewrite H2.
    specialize (Hsym (default 0 (tickerIndex c !! ta)) (default 0 (tickerIndex c !! tb))).
    rewrite <-H1 in Hsym.
    destruct (entry (matrix c) (default 0 (tickerIndex c !! tb)) _) as [y|]; [|done].
    by exists y.
Qed.

Lemma subset_matrix_entries_witness :
  loaded demo ∧ (∀ t, t ∈ ["C"; "D"] → t ∈ tickers demo) ∧
  ∃ m, subsetMatrix demo ["C"; "D"] = Returned (["C"; "D"], m) ∧
       cell m 0 1 = Some (Some (-(7 # 10))%Q).
Proof.
  assert (Hsub : ∀ t, t ∈ ["C"; "D"] → t ∈ tickers demo).
  { intros t. simpl. rewrite !elem_of_cons. naive_solver. }
  split; [exact loaded_demo|]. split; [exact Hsub|].
  destruct (subset_matrix_entries demo ["C"; "D"] loaded_demo Hsub)
    as (m & Hrun & _).
  exists m. split; [exact Hrun|].
  vm_compute in Hrun. injection Hrun as <-. reflexivity.
Defined.

(** X21: a ticker unknown to the data, and not the name of a member of
    [Object.prototype], is drawn with the correlations of the first ticker
    of the data: replacing each unknown ticker by that first ticker leaves
    the sub-matrix unchanged. *)
Theorem unknown_ticker_is_drawn_as_first
    (c : CorrData) (first : string) (subset : list string) :
  loaded c → NoDup (tickers c) → tickers c !! 0 = Some first →
  ownSeeds c subset →
  ∃ m, subsetMatrix c subset = Returned (subset, m) ∧
       subsetMatrix c (knownOr c first subset) =
         Returned (knownOr c first subset, m).
Proof.
  intros [Hidx Hrows] Hnd Hfirst Hown.
  assert (Hown' : ownSeeds c (knownOr c first subset)).
  { intros t (t' & -> & Ht')%list_elem_of_fmap _. rewrite Hidx.
    apply buildTickerIndex_is_Some. case_bool_decide; [done|].
    by eapply list_elem_of_lookup_2. }
  assert (Hlt : ∀ t, default 0 (tickerIndex c !! t) < length (matrix c)).
  { intros t. rewrite Hrows, Hidx.
    destruct (buildTickerIndex (tickers c) !! t) as [i|] eqn:Hi; simpl.
    - apply buildTickerIndex_lookup in Hi. by eapply lookup_lt_Some.
    - by eapply lookup_lt_Some. }
  assert (Hsame : map (λ t, default 0 (tickerIndex c !! t)) (knownOr c first subset) =
                  map (λ t, default 0 (tickerIndex c !! t)) subset).
  { unfold knownOr. rewrite map_map. apply map_ext. intros t.
    case_bool_decide as Ht; [done|].
    rewrite Hidx, (buildTickerIndex_NoDup _ first 0) by done.
    destruct (buildTickerIndex (tickers c) !! t) as [i|] eqn:Hi; [|done].
    destruct Ht. apply buildTickerIndex_is_Some. eauto. }
  rewrite !subsetMatrix_returns by (done || intros; apply Hlt).
  eexists. split; [done|]. simpl. by rewrite Hsame.
Qed.

Lemma unknown_ticker_is_drawn_as_first_witness :
  loaded demo ∧ NoDup (tickers demo) ∧ tickers demo !! 0 = Some "A" ∧
  ownSeeds demo ["ZZZ"; "B"] ∧
  ∃ m, subsetMatrix demo ["ZZZ"; "B"] = Returned (["ZZZ"; "B"], m) ∧
       subsetMatrix demo ["A"; "B"] = Returned (["A"; "B"], m).
Proof.
  assert (Hnd : NoDup (tickers demo)).
  { apply (bool_decide_unpack _). by vm_compute. }
  assert (Hown : ownSeeds demo ["ZZZ"; "B"]).
  { apply ownSeeds_plain, (bool_decide_unpack _). by vm_compute. }
  split; [exact loaded_demo|]. split; [exact Hnd|]. split; [done|].
  split; [exact Hown|].
  exact (unknown_ticker_is_drawn_as_first demo "A" ["ZZZ"; "B"]
           loaded_demo Hnd eq_refl Hown).
Defined.

(** X22: the cluster that [detectCluster] returns for data of at most 500
    tickers, on a request that reads no inherited name, is never refused
    by [onYearSelected] as too large: the handler renders it, with the
    plot width 500, in a matrix that fits that width, and without a valid
    seed the handler reports that no cluster was found. *)
Theorem detected_cluster_is_drawn_within_width
    (c : CorrData) (mh : list string) (thr : Q) :
  loaded c → NoDup (tickers c) → ownSeeds c mh → length (tickers c) ≤ 500 →
  ∃ r, detectCluster c mh thr = Returned r ∧
    (validSeeds c mh = [] →
     onYearSelected (clusterTickers r) = NoClusterFound) ∧
    (validSeeds c mh ≠ [] →
     let n := length (clusterTickers r) in
     onYearSelected (clusterTickers r) = RenderMatrix n 500 ∧
     1 ≤ n ∧ n * cellSize (Some 500) n ≤ 500).
Proof.
  intros Hload Hnd Hown Hsmall.
  destruct (decide (validSeeds c mh = [])) as [Hvalid|Hvalid].
  { rewrite detectCluster_no_seed by done. eexists. by split. }
  destruct (detectCluster_run c mh thr Hload Hown Hvalid)
    as (adj & reachable & part & Hlen & Hgraph & Hndr & Hreach & Hinv & Hrun).
  pose proof (graph_bound _ _ _ _ Hgraph) as Hbound.
  pose proof (reachable_in_range c mh adj reachable Hload Hbound Hreach) as Hrange.
  pose proof (cluster_nonempty c mh thr _ Hrun Hvalid) as [_ Hne].
  eexists. split; [exact Hrun|]. split; [done|]. intros _. simpl in *.
  set (cl := jsSort String.leb (map (tickerAt (tickers c)) reachable)) in *.
  assert (Hn : length cl ≤ length (tickers c)).
  { unfold cl. rewrite jsSort_length, length_map. by apply bounded_length. }
  assert (Hpos : 1 ≤ length cl) by (destruct cl; [done|simpl; lia]).
  unfold onYearSelected.
  rewrite bool_decide_eq_false_2, bool_decide_eq_false_2 by lia.
  split; [done|]. split; [done|].
  unfold cellSize, maxPlotWidth, cellSizeFor.
  rewrite bool_decide_eq_false_2 by lia.
  pose proof (Nat.div_mod_eq 500 (length cl)). nia.
Qed.

Lemma detected_cluster_is_drawn_within_width_witness :
  loaded demo ∧ NoDup (tickers demo) ∧ ownSeeds demo ["A"] ∧
  length (tickers demo) ≤ 500 ∧
  ∃ r, detectCluster demo ["A"] (1 # 2) = Returned r ∧
       onYearSelected (clusterTickers r) =
         RenderMatrix (length (clusterTickers r)) 500.
Proof.
  assert (Hnd : NoDup (tickers demo)).
  { apply (bool_decide_unpack _). by vm_compute. }
  assert (Hown : ownSeeds demo ["A"]).
  { apply ownSeeds_plain, (bool_decide_unpack _). by vm_compute. }
  assert (Hsmall : length (tickers demo) ≤ 500) by (vm_compute; lia).
  split; [exact loaded_demo|]. split; [exact Hnd|]. split; [exact Hown|].
  split; [exact Hsmall|].
  destruct (detected_cluster_is_drawn_within_width demo ["A"] (1 # 2)
              loaded_demo Hnd Hown Hsmall) as (r & Hrun & _ & Hdraw).
  exists r. split; [exact Hrun|]. apply Hdraw. by vm_compute.
Defined.
End MatrixFacts.

(** ** The prism grids *)

Section PrismFacts.
Import PrismGrid.

Lemma gridCells_positions pearsonCorr rA rB T :
  map position (gridCells pearsonCorr rA rB T) =
  e ← seq MIN_WINDOW (T - MIN_WINDOW);
  (λ w, (e, w)) <$> seq MIN_WINDOW (S e - MIN_WINDOW).
Proof.
  unfold gridCells. induction (seq MIN_WINDOW (T - MIN_WINDOW)) as [|e l IH];
    [done|].
  rewrite !bind_cons, map_app, IH. f_equal.
  change (map position ?l) with (position <$> l).
  by rewrite <-list_fmap_compose.
Qed.

Lemma triangle_count n :
  2 * length (e ← seq MIN_WINDOW n;
              (λ w, (e, w)) <$> seq MIN_WINDOW (S e - MIN_WINDOW)) =
  n * (n + 1).
Proof.
  induction n as [|n IH]; [done|].
  rewrite seq_S, bind_app, length_app, bind_singleton, length_fmap, length_seq.
  unfold MIN_WINDOW in *. lia.
Qed.

Lemma gridCells_elem pearsonCorr rA rB T e w :
  (e, w) ∈ map position (gridCells pearsonCorr rA rB T) ↔
  5 ≤ w ∧ w ≤ e ∧ e < T.
Proof.
  rewrite gridCells_positions, list_elem_of_bind.
  unfold MIN_WINDOW. split.
  - intros (e' & (w' & [= -> ->] & Hw)%list_elem_of_fmap & He).
    apply elem_of_seq in Hw, He. lia.
  - intros (Hw & Hwe & He). exists e. split.
    + apply list_elem_of_fmap. exists w. split; [done|]. apply elem_of_seq. lia.
    + apply elem_of_seq. lia.
Qed.

Lemma gridCells_NoDup pearsonCorr rA rB T :
  NoDup (map position (gridCells pearsonCorr rA rB T)).
Proof.
  rewrite gridCells_positions. apply NoDup_bind.
  - intros e1 e2 p _ _ (w1 & -> & _)%list_elem_of_fmap
      (w2 & [= -> _] & _)%list_elem_of_fmap. done.
  - intros e _. apply NoDup_fmap_2; [|apply NoDup_seq]. by intros ?? [= ->].
  - apply NoDup_seq.
Qed.

(** The clamp [Math.max(-1, Math.min(1, r))]. *)
Lemma clamp_unit (r : Double.double) :
  Double.isNaN r = false →
  ∃ x, Double.toQ (Double.max (Double.ofZ (-1)) (Double.min (Double.ofZ 1) r))
       = Some x ∧ (-1 <= x)%Q ∧ (x <= 1)%Q.
Proof.
  intros Hr.
  change (Double.ofZ (-1)) with (Double.Finite (-1)).
  change (Double.ofZ 1) with (Double.Finite 1).
  destruct r as [|[]|[]|q]; [done|by eexists..|].
  unfold Double.min, Double.lt.
  destruct (Double.Qltb q 1) eqn:H1.
  - apply Qltb_lt in H1. unfold Double.max, Double.lt.
    destruct (Double.Qltb (-1) q) eqn:H2.
    + apply Qltb_lt in H2. exists q. split; [done|]. split; lra.
    + by eexists.
  - by eexists.
Qed.

Lemma valueOf_toQ x q : Double.toQ x = Some q → (valueOf x == q)%Q.
Proof. destruct x; simpl; intros [= <-]; reflexivity. Qed.

(** [pearsonCorr] returns a finite number between -1 and 1. *)
Lemma correlation_finite arrA arrB start end_ :
  ∃ x, Double.toQ (correlation arrA arrB start end_) = Some x ∧
       (-1 <= x)%Q ∧ (x <= 1)%Q.
Proof.
  unfold correlation.
  destruct (_ <? _)%Z; [by exists 0%Q|].
  destruct (_ || _); [by exists 0%Q|].
  destruct (Double.isNaN _) eqn:Hnan; [by exists 0%Q|].
  by apply clamp_unit.
Qed.

Lemma pearsonCorr_bounds arrA arrB start end_ :
  (-1 <= pearsonCorr arrA arrB start end_)%Q ∧
  (pearsonCorr arrA arrB start end_ <= 1)%Q.
Proof.
  destruct (correlation_finite arrA arrB start end_) as (x & Hx & Hlo & Hhi).
  unfold pearsonCorr. rewrite (valueOf_toQ _ _ Hx). done.
Qed.

(** Rounding to four decimals stays between -1 and 1. *)
Lemma round4_bounds corr :
  (-1 <= corr)%Q → (corr <= 1)%Q →
  (-1 <= round4 corr)%Q ∧ (round4 corr <= 1)%Q.
Proof.
  intros Hlo Hhi. unfold round4.
  change (Double.ofZ 10000) with (Double.Finite 10000).
  unfold Double.exact. destruct (Qeq_bool corr 0) eqn:Hz; [done|].
  apply Qeq_bool_neq in Hz.
  change (Double.mul (Double.Finite corr) (Double.Finite 10000))
    with (Double.round (corr * 10000)).
  destruct (round_bounded (corr * 10000) 10000) as (x & Hx & Hxlo & Hxhi);
    [intros E; apply Hz; lra| | |lia|].
  { change (inject_Z 10000) with 10000%Q. lra. }
  { change (inject_Z 10000) with 10000%Q. lra. }
  change (inject_Z 10000) with 10000%Q in *.
  destruct (Double.round (corr * 10000)) as [| |s|q]; simpl in Hx; [done..| |].
  { by destruct s. }
  injection Hx as ->.
  unfold Double.roundHalfUp, Double.integer.
  set (z := Qfloor (x + (1 # 2))).
  assert (Hz' : (-10000 ≤ z ≤ 10000)%Z).
  { unfold z. split.
    - change (-10000)%Z with (Qfloor (-10000)). apply Qfloor_resp_le. lra.
    - assert (Qfloor (x + (1 # 2)) < 10001)%Z; [|lia].
      pose proof (Qfloor_le (x + (1 # 2))) as Hf.
      rewrite Zlt_Qlt. change (inject_Z 10001) with 10001%Q. lra. }
  destruct (Z.eqb_spec z 0) as [->|Hnz].
  { by destruct (Double.Qltb x 0). }
  change (Double.div (Double.Finite (inject_Z z)) (Double.Finite 10000))
    with (Double.round (inject_Z z / 10000)).
  assert (Hzq : (-10000 <= inject_Z z)%Q ∧ (inject_Z z <= 10000)%Q).
  { change (-10000)%Q with (inject_Z (-10000)).
    change 10000%Q with (inject_Z 10000). rewrite <-!Zle_Qle. lia. }
  assert (Hzn : ¬ (inject_Z z == 0)%Q).
  { intros E. apply Hnz. unfold Qeq in E. simpl in E. lia. }
  destruct (round_bounded (inject_Z z / 10000) 1) as (y & Hy & Hylo & Hyhi).
  - intros E. apply Hzn.
    assert (E' : (inject_Z z == inject_Z z / 10000 * 10000)%Q) by (field; done).
    rewrite E', E. ring.
  - change (inject_Z 1) with 1%Q. apply Qle_shift_div_l; lra.
  - change (inject_Z 1) with 1%Q. apply Qle_shift_div_r; lra.
  - lia.
  - rewrite (valueOf_toQ _ _ Hy). change (inject_Z 1) with 1%Q in *. split; lra.
Qed.

(** What a successful call returns. *)
Lemma computePrismGrid_cells pearsonCorr returnsData tickerIndex
    tickerA tickerB yearStr res :
  computePrismGrid pearsonCorr returnsData tickerIndex tickerA tickerB yearStr
    = Some res →
  ∃ rA rB, cells res = gridCells pearsonCorr rA rB (resultT res) ∧
           validCells res = length (cells res).
Proof.
  unfold computePrismGrid. intros Hrun.
  destruct returnsData as [years|]; [|done]. simpl in Hrun.
  destruct (years !! yearStr) as [yearData|]; [|done]. simpl in Hrun.
  destruct (tickerIndex !! tickerA) as [idxA|]; [|done]. simpl in Hrun.
  destruct (tickerIndex !! tickerB) as [idxB|]; [|done]. simpl in Hrun.
  destruct (mjoin (returns yearData !! idxA)) as [rA|]; [|done]. simpl in Hrun.
  destruct (mjoin (returns yearData !! idxB)) as [rB|]; [|done]. simpl in Hrun.
  injection Hrun as <-. by exists rA, rB.
Qed.

(** Where a successful call reads its two series. *)
Lemma computePrismGrid_series corr returnsData tickerIndex
    tickerA tickerB yearStr res :
  computePrismGrid corr returnsData tickerIndex tickerA tickerB yearStr
    = Some res →
  ∃ years yearData idxA idxB rA rB,
    returnsData = Some years ∧ years !! yearStr = Some yearData ∧
    tickerIndex !! tickerA = Some idxA ∧ tickerIndex !! tickerB = Some idxB ∧
    returns yearData !! idxA = Some (Some rA) ∧
    returns yearData !! idxB = Some (Some rB) ∧
    resultT res = T yearData ∧
    cells res = gridCells corr rA rB (resultT res).
Proof.
  unfold computePrismGrid. intros Hrun.
  destruct returnsData as [years|]; [|done]. simpl in Hrun.
  destruct (years !! yearStr) as [yearData|] eqn:Hy; [|done]. simpl in Hrun.
  destruct (tickerIndex !! tickerA) as [idxA|] eqn:HA; [|done]. simpl in Hrun.
  destruct (tickerIndex !! tickerB) as [idxB|] eqn:HB; [|done]. simpl in Hrun.
  destruct (returns yearData !! idxA) as [[rA|]|] eqn:HrA; [|done..]. simpl in Hrun.
  destruct (returns yearData !! idxB) as [[rB|]|] eqn:HrB; [|done..]. simpl in Hrun.
  injection Hrun as <-. by exists years, yearData, idxA, idxB, rA, rB.
Qed.

(** X23: whenever [computePrismGrid] returns a grid, the two tickers are in
    the index and the year's data holds a return series for each; the grid
    has exactly one cell for every window [w] and end day [e] with
    [5 <= w <= e < T], and no other: [(T - 5)(T - 4) / 2] cells, reported
    as [validCells]; each cell holds [pearsonCorr] of the two series over
    the [w] days that end before day [e], computed in doubles and rounded
    to four decimals, a number between -1 and 1. *)
Theorem prism_grid_is_the_full_triangle
    (returnsData : option (gmap string YearData)) (tickerIndex : gmap string nat)
    (tickerA tickerB yearStr : string) (res : PrismResult) :
  computePrismGrid pearsonCorr returnsData tickerIndex tickerA tickerB yearStr
    = Some res →
  ∃ years yearData idxA idxB rA rB,
    returnsData = Some years ∧ years !! yearStr = Some yearData ∧
    tickerIndex !! tickerA = Some idxA ∧ tickerIndex !! tickerB = Some idxB ∧
    returns yearData !! idxA = Some (Some rA) ∧
    returns yearData !! idxB = Some (Some rB) ∧
    resultT res = T yearData ∧
    2 * validCells res = (resultT res - 5) * (resultT res - 4) ∧
    validCells res = length (cells res) ∧
    NoDup (map position (cells res)) ∧
    (∀ e w, (e, w) ∈ map position (cells res) ↔
            5 ≤ w ∧ w ≤ e ∧ e < resultT res) ∧
    (∀ c, c ∈ cells res →
          value c = round4 (pearsonCorr rA rB (e c - w c) (e c)) ∧
          e c - (e c - w c) = w c ∧
          (-1 <= value c)%Q ∧ (value c <= 1)%Q).
Proof.
  intros Hrun.
  destruct (computePrismGrid_cells _ _ _ _ _ _ _ Hrun) as (_ & _ & _ & Hvalid).
  destruct (computePrismGrid_series _ _ _ _ _ _ _ Hrun)
    as (years & yearData & idxA & idxB & rA & rB & H1 & H2 & H3 & H4 & H5 & H6
        & HT & Hcells).
  exists years, yearData, idxA, idxB, rA, rB.
  split_and!; [done..| | | | |].
  - rewrite Hvalid, Hcells.
    rewrite <-(length_map position), gridCells_positions, triangle_count.
    unfold MIN_WINDOW. lia.
  - done.
  - rewrite Hcells. apply gridCells_NoDup.
  - rewrite Hcells. apply gridCells_elem.
  - intros c Hc. rewrite Hcells in Hc.
    assert (Hcw : 5 ≤ w c ∧ w c ≤ e c ∧ e c < resultT res).
    { apply (gridCells_elem pearsonCorr rA rB).
      change (position c ∈ map position (gridCells pearsonCorr rA rB (resultT res))).
      apply list_elem_of_fmap. eauto. }
    assert (Hv : value c = round4 (pearsonCorr rA rB (e c - w c) (e c))).
    { unfold gridCells in Hc. apply list_elem_of_bind in Hc as (e' & Hc & _).
      by apply list_elem_of_fmap in Hc as (w' & -> & _). }
    split; [done|]. split; [lia|]. rewrite Hv.
    apply round4_bounds; apply pearsonCorr_bounds.
Qed.

Lemma prism_grid_is_the_full_triangle_witness :
  let years : gmap string YearData :=
    <["2020" := {| T := 8;
                   returns := [ Some [1 # 100; -2 # 100; 3 # 100; 1 # 200;
                                      -1 # 100; 2 # 100; 0; 1 # 50];
                                None;
                                Some [2 # 100; -1 # 100; 1 # 100; 1 # 100;
                                      -3 # 100; 1 # 100; 1 # 200; 1 # 100] ]%Q |}]> ∅ in
  let index : gmap string nat := <["A" := 0]> (<["B" := 2]> ∅) in
  ∃ res, computePrismGrid pearsonCorr (Some years) index "A" "B" "2020" = Some res ∧
         2 * validCells res = (resultT res - 5) * (resultT res - 4) ∧
         ∀ c, c ∈ cells res → (-1 <= value c)%Q ∧ (value c <= 1)%Q.
Proof.
  intros years index.
  assert (Hrun : ∃ res, computePrismGrid pearsonCorr (Some years) index "A" "B" "2020"
                        = Some res).
  { eexists. by vm_compute. }
  destruct Hrun as [res Hrun]. exists res. split; [exact Hrun|].
  destruct (prism_grid_is_the_full_triangle (Some years) index
              "A" "B" "2020" res Hrun)
    as (_ & _ & _ & _ & rA & rB & _ & _ & _ & _ & _ & _ & _ & Hn & _ & _ & _ & Hc).
  split; [exact Hn|]. intros c Hin. exact (proj2 (proj2 (Hc c Hin))).
Defined.

Lemma length_omap_le {A B : Type} (f : A → option B) (l : list A) :
  length (omap f l) ≤ length l.
Proof.
  induction l as [|x l IH]; [done|]. csimpl. destruct (f x); simpl; lia.
Qed.

Lemma dense_count {B : Type} (g : nat → nat → option B) n minW :
  2 * length (w ← seq minW n; omap (g w) (seq w (minW + n - w))) ≤ n * (n + 1).
Proof.
  revert minW. induction n as [|n IH]; intros minW; [done|].
  rewrite <-cons_seq, bind_cons, length_app.
  pose proof (length_omap_le (g minW) (seq minW (minW + S n - minW))) as H1.
  rewrite length_seq in H1.
  specialize (IH (S minW)).
  rewrite (list_bind_ext _ (λ w, omap (g w) (seq w (S minW + n - w)))
             (seq (S minW) n) (seq (S minW) n)); [lia| |done].
  intros w. do 2 f_equal. lia.
Qed.

Lemma omap_positions (d : nat → option Q) (w : nat) (l : list nat) :
  position <$> omap (λ e, (λ v, {| e := e; w := w; value := v |}) <$> d e) l =
  omap (λ e, (λ _, (e, w)) <$> d e) l.
Proof.
  induction l as [|e l IH]; [done|]. csimpl.
  destruct (d e); csimpl; by rewrite IH.
Qed.

Lemma denseCells_positions T minW dense :
  map position (denseCells T minW dense) =
  w ← seq minW (T - minW);
  omap (λ e, (λ _, (e, w)) <$> denseValue dense w e) (seq w (T - w)).
Proof.
  unfold denseCells. induction (seq minW (T - minW)) as [|w l IH]; [done|].
  rewrite !bind_cons, map_app, IH. f_equal. apply omap_positions.
Qed.

Lemma omap_positions_elem (d : nat → option Q) (w : nat) (l : list nat) p :
  p ∈ omap (λ e, (λ _, (e, w)) <$> d e) l ↔
  ∃ e, p = (e, w) ∧ e ∈ l ∧ is_Some (d e).
Proof.
  rewrite list_elem_of_omap. split.
  - intros (e & He & Hp). destruct (d e) as [v|] eqn:Hd; [|done].
    injection Hp as <-. exists e. by rewrite Hd.
  - intros (e & -> & He & [v Hv]). exists e. by rewrite Hv.
Qed.

Lemma omap_positions_NoDup (d : nat → option Q) (w : nat) (l : list nat) :
  NoDup l → NoDup (omap (λ e, (λ _, (e, w)) <$> d e) l).
Proof.
  induction 1 as [|e l Hin Hnd IH]; csimpl; [constructor|].
  destruct (d e); csimpl; [|done]. constructor; [|done].
  intros (e' & [= <-] & He & _)%omap_positions_elem. done.
Qed.

Lemma denseCells_NoDup T minW dense :
  NoDup (map position (denseCells T minW dense)).
Proof.
  rewrite denseCells_positions. apply NoDup_bind.
  - intros w1 w2 p _ _ (e1 & -> & _)%omap_positions_elem
      (e2 & [= _ ->] & _)%omap_positions_elem. done.
  - intros w _. apply omap_positions_NoDup, NoDup_seq.
  - apply NoDup_seq.
Qed.

Lemma denseCells_elem T minW dense e w :
  (e, w) ∈ map position (denseCells T minW dense) ↔
  minW ≤ w ∧ w ≤ e ∧ e < T ∧ is_Some (denseValue dense w e).
Proof.
  rewrite denseCells_positions, list_elem_of_bind. split.
  - intros (w' & (e' & [= -> ->] & He & Hv)%omap_positions_elem & Hw).
    apply elem_of_seq in He, Hw. split_and!; [lia..|done].
  - intros (Hw & Hwe & He & Hv). exists w. split.
    + apply omap_positions_elem. exists e. split_and!; [done| |done].
      apply elem_of_seq. lia.
    + apply elem_of_seq. lia.
Qed.

(** X24: the cells that [prism.js] and [PrismMulti] draw from a
    precomputed grid are the positions [minW <= w <= e < T] that hold a
    value, each once and with that value; there are at most
    [(T - minW)(T - minW + 1) / 2] of them. *)
Theorem precomputed_grid_cells
    (T minW : nat) (dense : list (option (list (option Q)))) :
  let cells := denseCells T minW dense in
  NoDup (map position cells) ∧
  (∀ e w, (e, w) ∈ map position cells ↔
          minW ≤ w ∧ w ≤ e ∧ e < T ∧ is_Some (denseValue dense w e)) ∧
  (∀ c, c ∈ cells → denseValue dense (w c) (e c) = Some (value c)) ∧
  2 * length cells ≤ (T - minW) * (T - minW + 1).
Proof.
  intros cells. subst cells. split_and!.
  - apply denseCells_NoDup.
  - apply denseCells_elem.
  - intros c. unfold denseCells.
    intros (w' & (e' & _ & Hc)%list_elem_of_omap & _)%list_elem_of_bind.
    destruct (denseValue dense w' e') as [v|] eqn:Hv; [|done].
    by injection Hc as <-.
  - rewrite <-(length_map position), denseCells_positions.
    destruct (decide (minW ≤ T)) as [Hle|Hgt].
    + rewrite (list_bind_ext _
        (λ w, omap (λ e, (λ _, (e, w)) <$> denseValue dense w e)
                   (seq w (minW + (T - minW) - w)))
        (seq minW (T - minW)) (seq minW (T - minW))); [|..|done].
      * apply (dense_count (λ w e, (λ _, (e, w)) <$> denseValue dense w e)).
      * intros w. do 2 f_equal. lia.
    + replace (T - minW) with 0 by lia. simpl. lia.
Qed.

Lemma fullGrid_demo : fullGrid 7 5 demoGrid.
Proof.
  intros w e Hw Hwe He.
  assert (w = 5 ∧ (e = 5 ∨ e = 6) ∨ w = 6 ∧ e = 6) as [[-> [-> | ->]]|[-> ->]]
    by lia; by eexists.
Qed.

(** X25: on a precomputed grid that holds a value for every window from 5
    days, the cells computed on the fly by [computePrismGrid] occupy the
    same positions as the cells drawn from the file, and [validCells] is
    their number. *)
Theorem dynamic_grid_matches_precomputed_grid
    (pearsonCorr : list Q → list Q → nat → nat → Q)
    (returnsData : option (gmap string YearData)) (tickerIndex : gmap string nat)
    (tickerA tickerB yearStr : string) (res : PrismResult)
    (dense : list (option (list (option Q)))) :
  computePrismGrid pearsonCorr returnsData tickerIndex tickerA tickerB yearStr
    = Some res →
  fullGrid (resultT res) 5 dense →
  map position (cells res) ≡ₚ map position (denseCells (resultT res) 5 dense) ∧
  validCells res = length (denseCells (resultT res) 5 dense).
Proof.
  intros (rA & rB & Hcells & Hvalid)%computePrismGrid_cells Hfull.
  assert (Hperm : map position (cells res) ≡ₚ
                  map position (denseCells (resultT res) 5 dense)).
  { rewrite Hcells.
    apply NoDup_Permutation; [apply gridCells_NoDup|apply denseCells_NoDup|].
    intros [e w]. rewrite gridCells_elem, denseCells_elem.
    split; [|naive_solver]. intros (Hw & Hwe & He). split_and!; [done..|].
    by apply Hfull. }
  split; [done|].
  apply Permutation_length in Hperm. rewrite !length_map in Hperm.
  by rewrite Hvalid.
Qed.

Lemma dynamic_grid_matches_precomputed_grid_witness :
  let corr : list Q → list Q → nat → nat → Q := λ _ _ _ _, (1 # 3)%Q in
  let years : gmap string YearData :=
    <["2020" := {| T := 7; returns := [Some []; Some []] |}]> ∅ in
  let index : gmap string nat := <["A" := 0]> (<["B" := 1]> ∅) in
  ∃ res, computePrismGrid corr (Some years) index "A" "B" "2020" = Some res ∧
         fullGrid (resultT res) 5 demoGrid ∧
         validCells res = length (denseCells (resultT res) 5 demoGrid).
Proof.
  intros corr years index.
  assert (Hrun : ∃ res, computePrismGrid corr (Some years) index "A" "B" "2020"
                        = Some res ∧ resultT res = 7).
  { eexists. by vm_compute. }
  destruct Hrun as (res & Hrun & HT). exists res.
  assert (Hfull : fullGrid (resultT res) 5 demoGrid).
  { rewrite HT. exact fullGrid_demo. }
  split; [exact Hrun|]. split; [exact Hfull|].
  exact (proj2 (dynamic_grid_matches_precomputed_grid corr (Some years) index
                  "A" "B" "2020" res demoGrid Hrun Hfull)).
Defined.
End PrismFacts.

(** ** The distribution plot *)

Section HistogramFacts.
Import NetworkViewRender.

(** What the clamp of [binIndex] makes of a number. *)
Lemma clamp_spec (x : Double.double) :
  match Double.min (Double.ofZ (Z.of_nat nBins - 1))
                   (Double.max (Double.ofZ 0) (Double.floor x)) with
  | Double.Finite idx => Qfloor idx
  | _ => 0%Z
  end =
  match x with
  | Double.NaN | Double.Zero _ => 0%Z
  | Double.Infinity negative => if negative then 0%Z else 39%Z
  | Double.Finite q => Z.min 39 (Z.max 0 (Qfloor q))
  end.
Proof.
  change (Double.ofZ (Z.of_nat nBins - 1)) with (Double.Finite (inject_Z 39)).
  change (Double.ofZ 0) with (Double.Zero false).
  destruct x as [|[]|[]|q]; try reflexivity.
  unfold Double.floor, Double.integer.
  destruct (Z.eqb_spec (Qfloor q) 0) as [->|Hz].
  { by destruct (Double.Qltb q 0). }
  set (z := Qfloor q) in *.
  unfold Double.max, Double.lt.
  destruct (Double.Qltb 0 (inject_Z z)) eqn:Hpos.
  - apply Qltb_lt in Hpos. rewrite <-(Zlt_Qlt 0) in Hpos.
    unfold Double.min, Double.lt.
    destruct (Double.Qltb (inject_Z z) (inject_Z 39)) eqn:Hlt.
    + apply Qltb_lt in Hlt. rewrite <-Zlt_Qlt in Hlt. rewrite Qfloor_Z. lia.
    + apply Qltb_ge in Hlt. rewrite <-Zle_Qle in Hlt. rewrite Qfloor_Z. lia.
  - apply Qltb_ge in Hpos. rewrite <-(Zle_Qle _ 0) in Hpos.
    change (match Double.min (Double.Finite (inject_Z 39)) (Double.Zero false) with
            | Double.Finite idx => Qfloor idx
            | _ => 0%Z
            end) with 0%Z.
    lia.
Qed.

Lemma binIndex_clamp v :
  binIndex v =
  match scaled v with
  | Double.NaN | Double.Zero _ => 0%Z
  | Double.Infinity negative => if negative then 0%Z else 39%Z
  | Double.Finite q => Z.min 39 (Z.max 0 (Qfloor q))
  end.
Proof. unfold binIndex. apply clamp_spec. Qed.

Lemma binIndex_range v : (0 <= binIndex v <= 39)%Z.
Proof.
  rewrite binIndex_clamp. destruct (scaled v) as [|[]|[]|q]; lia.
Qed.









(** Rounding moves a value across a boundary between two bins: the double
    nearest to 0.3 lies below 0.3, in the twentieth of bin 25, and goes to
    bin 26; -2^-60 lies below 0, in the twentieth of bin 19, and goes to
    bin 20. *)
Lemma binIndex_near_boundary :
  let v := (5404319552844595 # 18014398509481984)%Q in
  let v' := (-1 # 1152921504606846976)%Q in
  Qfloor (20 * (v + 1)) = 25%Z ∧ binIndex v = 26%Z ∧
  Qfloor (20 * (v' + 1)) = 19%Z ∧ binIndex v' = 20%Z.
Proof. by vm_compute. Qed.


(** One step of the binning loop. *)
Lemma histogram_step (bins : list nat) (values : list (option Q)) :
  length bins = nBins →
  let r := foldl (λ bins v, match v with
                            | Some x => alter S (Z.to_nat (binIndex x)) bins
                            | None => bins
                            end) bins values in
  length r = nBins ∧
  (∀ b, r !! b =
        (λ k, k + length (filter (λ v, inBin b v = true) values)) <$> bins !! b) ∧
  sum_list r = sum_list bins + length (filter is_Some values).
Proof.
  revert bins. induction values as [|v values IH]; intros bins Hlen; simpl.
  - split; [done|]. split; [|lia]. intros b.
    destruct (bins !! b); simpl; [f_equal; lia|done].
  - destruct v as [x|].
    + destruct (IH (alter S (Z.to_nat (binIndex x)) bins)) as (Hl & Hb & Hs).
      { by rewrite length_alter. }
      split; [done|]. split.
      * intros b. rewrite Hb, filter_cons. simpl.
        destruct (decide (Z.to_nat (binIndex x) = b)) as [<-|Hne].
        -- rewrite list_lookup_alter_eq, bool_decide_eq_true_2 by done.
           rewrite decide_True by done.
           destruct (bins !! _); simpl; [f_equal; lia|done].
        -- rewrite list_lookup_alter_ne, bool_decide_eq_false_2 by done.
           by rewrite decide_False by done.
      * rewrite Hs, filter_cons, decide_True by done. simpl.
        assert (Hi : Z.to_nat (binIndex x) < length bins).
        { pose proof (binIndex_range x). rewrite Hlen. unfold nBins. lia. }
        clear -Hi. revert Hi. generalize (Z.to_nat (binIndex x)) as i.
        induction bins as [|k bins IHb]; intros i Hi; simpl in *; [lia|].
        destruct i as [|i]; simpl; [lia|]. specialize (IHb i).
        change (list_alter S i bins) with (alter S i bins). lia.
    + destruct (IH bins Hlen) as (Hl & Hb & Hs).
      split; [done|]. split.
      * intros b. by rewrite Hb, filter_cons_False by done.
      * rewrite Hs, filter_cons_False; [done|]. by intros [? ?].
Qed.

(** X27: the histogram has 40 bins; bin [b] counts the defined values
    that [binIndex] sends to [b], so every defined value is counted once
    and an undefined one never; the histogram of a stock leaves out its
    correlation with itself. *)
Theorem histogram_counts_every_value_once (values : list (option Q)) :
  length (histogram values) = 40 ∧
  (∀ b, b < 40 →
        histogram values !! b =
          Some (length (filter (λ v, inBin b v = true) values))) ∧
  sum_list (histogram values) = length (filter is_Some values) ∧
  (∀ row tidx, tidx < length row →
     sum_list (histogram (Some <$> stockCorrs row tidx)) = length row - 1).
Proof.
  assert (Hgen : ∀ values,
    length (histogram values) = 40 ∧
    (∀ b, b < 40 →
          histogram values !! b =
            Some (length (filter (λ v, inBin b v = true) values))) ∧
    sum_list (histogram values) = length (filter is_Some values)).
  { clear values. intros values.
    destruct (histogram_step (replicate nBins 0) values) as (Hl & Hb & Hs).
    { by rewrite length_replicate. }
    split; [done|]. split.
    - intros b Hlt. unfold histogram. rewrite Hb.
      by rewrite lookup_replicate_2 by done.
    - unfold histogram. rewrite Hs, sum_list_replicate. lia. }
  destruct (Hgen values) as (Hl & Hb & Hs). repeat apply conj; try done.
  intros row tidx Hlt. destruct (Hgen (Some <$> stockCorrs row tidx)) as (_ & _ & ->).
  assert (Hall : ∀ l : list Q, filter is_Some (Some <$> l) = Some <$> l).
  { intros l. induction l as [|x l IHl]; [done|].
    rewrite fmap_cons, filter_cons, decide_True by done. by rewrite IHl. }
  rewrite Hall, length_fmap. unfold stockCorrs. rewrite length_delete; [done|].
  by apply lookup_lt_is_Some.
Qed.

Lemma maxOf_bounds (bins : list nat) b :
  1 ≤ maxOf bins ∧ bins !!! b ≤ maxOf bins.
Proof.
  unfold maxOf. revert b. induction bins as [|k bins IH]; intros b; simpl.
  - split; [lia|]. rewrite lookup_total_nil. simpl. lia. 
  - destruct (IH 0) as [H1 _]. split; [lia|].
    destruct b as [|b]; simpl; [lia|]. destruct (IH b) as [_ H2].
    change ((k :: bins) !!! S b) with (bins !!! b). lia.
Qed.

(** X28: with a scale between 0 and 1, every point of a distribution path
    lies within the row, between height [rowH (1 - scale)] and the base
    line [rowH]; an empty bin lies on the base line. *)
Theorem distribution_path_stays_in_row (scale : Q) (bins : list nat) (b : nat) :
  (0 <= scale)%Q → (scale <= 1)%Q →
  (rowH * (1 - scale) <= plotY scale bins b)%Q ∧
  (plotY scale bins b <= rowH)%Q ∧
  (bins !!! b = 0 → (plotY scale bins b == rowH)%Q).
Proof.
  intros Hs0 Hs1. destruct (maxOf_bounds bins b) as [Hm Hb].
  unfold plotY, rowH.
  set (r := (inject_Z (Z.of_nat (bins !!! b)) / inject_Z (Z.of_nat (maxOf bins)))%Q).
  assert (Hm' : (0 < inject_Z (Z.of_nat (maxOf bins)))%Q).
  { change 0%Q with (inject_Z 0). rewrite <-Zlt_Qlt. lia. }
  assert (Hr0 : (0 <= r)%Q).
  { apply Qle_shift_div_l; [done|]. rewrite Qmult_0_l.
    change 0%Q with (inject_Z 0). rewrite <-Zle_Qle. lia. }
  assert (Hr1 : (r <= 1)%Q).
  { apply Qle_shift_div_r; [done|]. rewrite Qmult_1_l. rewrite <-Zle_Qle. lia. }
  assert (Hrs0 : (0 <= r * scale)%Q) by (by apply Qmult_le_0_compat).
  assert (Hrs1 : (r * scale <= 1)%Q).
  { apply (Qle_trans _ (1 * scale)); [|lra].
    by apply Qmult_le_compat_r. }
  repeat apply conj; [nra|nra|].
  intros Hz. subst r. rewrite Hz. simpl. unfold Qdiv. ring.
Qed.

Lemma distribution_path_stays_in_row_witness :
  (0 <= 85 # 100)%Q ∧ (85 # 100 <= 1)%Q ∧
  (plotY (85 # 100) (histogram [Some (1 # 2)%Q; Some 0%Q; Some (1 # 2)%Q]) 30 <= rowH)%Q.
Proof.
  assert (H0 : (0 <= 85 # 100)%Q) by done.
  assert (H1 : (85 # 100 <= 1)%Q) by done.
  split; [exact H0|]. split; [exact H1|].
  exact (proj1 (proj2 (distribution_path_stays_in_row (85 # 100)
           (histogram [Some (1 # 2)%Q; Some 0%Q; Some (1 # 2)%Q]) 30 H0 H1))).
Defined.
End HistogramFacts.

(** ** The knowledge view *)

Section KnowledgeFacts.
Import KnowledgeView.

Lemma nodeElements_bounds (clusterTickers nodeTickers : list string) t :
  2 ≤ nodeElements clusterTickers nodeTickers t ∧
  nodeElements clusterTickers nodeTickers t ≤
    (if bool_decide (length nodeTickers ≤ 15) then 3 else 2) ∧
  (clusterTickers = [] → nodeElements clusterTickers nodeTickers t = 2).
Proof.
  unfold nodeElements. repeat apply conj.
  - lia.
  - repeat case_bool_decide; try lia; naive_solver.
  - intros ->. rewrite bool_decide_eq_false_2; [done|].
    by intros [?%elem_of_nil _].
Qed.

Lemma nodeElements_sum (clusterTickers nodeTickers l : list string) :
  2 * length l ≤ sum_list (map (nodeElements clusterTickers nodeTickers) l) ∧
  sum_list (map (nodeElements clusterTickers nodeTickers) l) ≤
    (if bool_decide (length nodeTickers ≤ 15) then 3 else 2) * length l ∧
  (clusterTickers = [] →
   sum_list (map (nodeElements clusterTickers nodeTickers) l) = 2 * length l).
Proof.
  induction l as [|t l (IH1 & IH2 & IH3)].
  { simpl. by repeat case_bool_decide. }
  destruct (nodeElements_bounds clusterTickers nodeTickers t) as (B1 & B2 & B3).
  rewrite map_cons.
  change (sum_list (?x :: ?k)) with (x + sum_list k).
  cbn [length]. repeat apply conj.
  - lia.
  - destruct (bool_decide _); lia.
  - intros Hc. rewrite B3, IH3 by done. lia.
Qed.

Lemma itemElements_bounds (clusterTickers : list string) (item : Item) (cap : nat) :
  length (itemTickers item) ≤ cap →
  2 ≤ itemElements clusterTickers item ≤ 2 + Nat.max (2 * cap) 45 ∧
  (clusterTickers = [] →
   itemElements clusterTickers item = 2 + 2 * length (itemTickers item)).
Proof.
  intros Hcap. unfold itemElements.
  destruct (nodeElements_sum clusterTickers (itemTickers item) (itemTickers item))
    as (H1 & H2 & H3).
  split; [|by intros ->%H3].
  case_bool_decide; lia.
Qed.

Lemma collect_elem meta selectedTicker test t :
  t ∈ collect meta selectedTicker test →
  t ≠ selectedTicker ∧ ∃ m, (t, m) ∈ meta ∧ test m = true.
Proof.
  unfold collect. intros ([t' m] & -> & [Hne Ht]%list_elem_of_filter)%list_elem_of_fmap.
  simpl in *. naive_solver.
Qed.

(** X29: for a ticker with metadata the knowledge view appends between 23
    and 268 elements, exactly 23 plus two per node when no cluster is
    given; the selected ticker is never one of the nodes, and every node
    of the last layer shares both sector and state with it. *)
Theorem knowledge_view_element_count
    (meta : list (string * Meta)) (selectedTicker : string)
    (clusterTickers : option (list string)) (sel : Meta) :
  metaOf meta selectedTicker = Some sel →
  let n := render true (Some meta) selectedTicker clusterTickers in
  let layers := layersOf meta selectedTicker sel in
  23 ≤ n ≤ 268 ∧
  (clusterTickers = None → n = 23 + 2 * length (nodesOf layers)) ∧
  (selectedTicker ∉ nodesOf layers) ∧
  (∀ layer item t,
     layers !! 2 = Some layer → item ∈ items layer → t ∈ itemTickers item →
     ∃ m, (t, m) ∈ meta ∧ sector m = sector sel ∧ hqState m = hqState sel).
Proof.
  intros Hsel n layers. subst n layers. unfold render. rewrite Hsel.
  unfold layersOf, nodesOf, layerElements. cbn [map items itemTickers sum_list_with sum_list length].
  set (cl := default [] clusterTickers).
  set (i1 := {| label := sector sel; itemTickers := _ |}).
  set (i2 := {| label := String.substring 0 22 (subIndustry sel); itemTickers := _ |}).
  set (i3 := {| label := hqState sel; itemTickers := _ |}).
  set (i4 := {| label := "Shared Relations"; itemTickers := _ |}).
  destruct (itemElements_bounds cl i1 40) as [B1 E1]; [simpl; rewrite length_take; lia|].
  destruct (itemElements_bounds cl i2 25) as [B2 E2]; [simpl; rewrite length_take; lia|].
  destruct (itemElements_bounds cl i3 35) as [B3 E3]; [simpl; rewrite length_take; lia|].
  destruct (itemElements_bounds cl i4 20) as [B4 E4]; [simpl; rewrite length_take; lia|].
  repeat apply conj.
  - cbn -[itemElements]. lia.
  - cbn -[itemElements]. lia.
  - intros ->. subst cl. cbn -[itemElements] in *.
    rewrite E1, E2, E3, E4 by done. subst i1 i2 i3 i4. cbn [itemTickers].
    rewrite !length_app. simpl. lia.
  - simpl. rewrite !elem_of_app, elem_of_nil.
    intros [[H|[H|[]]]|[[H|[]]|[[H|[]]|[]]]];
      apply elem_of_take in H as (? & H%list_elem_of_lookup_2 & _);
      by apply collect_elem in H as [? _].
  - intros layer item t [= <-]. simpl.
    intros ->%list_elem_of_singleton. simpl.
    intros (? & H%list_elem_of_lookup_2 & _)%elem_of_take.
    apply collect_elem in H as (_ & m & Hm & Ht).
    exists m. unfold sharedHuman in Ht. apply bool_decide_eq_true in Ht.
    naive_solver.
Qed.

Lemma knowledge_view_element_count_witness :
  metaOf demoMeta "AAPL" =
    Some {| sector := "Tech"; subIndustry := "Hardware"; hqState := "CA" |} ∧
  23 ≤ render true (Some demoMeta) "AAPL" (Some ["MSFT"]) ≤ 268.
Proof.
  assert (Hsel : metaOf demoMeta "AAPL" =
            Some {| sector := "Tech"; subIndustry := "Hardware"; hqState := "CA" |})
    by (by vm_compute).
  split; [exact Hsel|].
  exact (proj1 (knowledge_view_element_count demoMeta "AAPL" (Some ["MSFT"]) _ Hsel)).
Defined.
End KnowledgeFacts.

(** ** The index built by the loader *)


